(** * The BUFR query engine: QueryRunner.cpp and ResultSet.cpp

    A shallow embedding of the target resolvers ([findTargets], and
    [findTarget] with [old_findTargets]), the frame collector
    ([collectData]) and the result assembly ([getRawValues],
    [makeDataObject], [splitPath]) of the BUFR parser, with the properties
    of the specification that concern them and further properties of the
    code.

    Conventions of the embedding.
    - [int] values are integers of [Z]; signed overflow is undefined in C++,
      so the embedding describes the executions without it.  Conversions to
      [size_t] are written out modulo [2^64] where the source performs them.
    - [double] values are only stored, copied and compared with zero by the
      code embedded here; they are modelled as rationals.
    - C++ exceptions and undefined behaviour are explicit outcomes
      ([result]); the one loop of the source that may not terminate takes
      fuel. *)

From Stdlib Require Import ZArith List String Ascii Bool Lia QArith Sorted.
From Equations Require Import Equations.
From Equations.Prop Require Import Logic.
Import ListNotations.

Open Scope string_scope.
Open Scope list_scope.
Open Scope Z_scope.

(** ** Outcomes of a call *)

(** The exceptions the two files can raise, and undefined behaviour. *)
Inductive exn : Type :=
| BadValue (msg : string)        (* eckit::BadValue *)
| BadParameter (msg : string)    (* eckit::BadParameter *)
| OutOfRange                     (* std::out_of_range, from vector::at *)
| LengthError                    (* std::length_error, from vector::resize *)
| Undefined.                     (* access outside a vector, back() of an empty one *)

Inductive result (A : Type) : Type :=
| Ok (a : A)
| Throw (e : exn).
Arguments Ok {A} a.
Arguments Throw {A} e.

Definition bind {A B : Type} (m : result A) (k : A -> result B) : result B :=
  match m with
  | Ok a => k a
  | Throw e => Throw e
  end.

Notation "x <- m ;; k" := (bind m (fun x => k))
  (at level 61, m at next level, right associativity).
Notation "' p <- m ;; k" := (bind m (fun x => let p := x in k))
  (at level 61, p pattern, m at next level, right associativity).

(** ** std::vector and std::string operations used by the source *)

Section Vector.
Context {A : Type}.

(** [v[i]] for an [int] or [size_t] index held in [Z]. *)
Definition vget (v : list A) (i : Z) : result A :=
  if i <? 0 then Throw Undefined
  else match nth_error v (Z.to_nat i) with
       | Some a => Ok a
       | None => Throw Undefined
       end.

Fixpoint set_nth (v : list A) (n : nat) (a : A) : option (list A) :=
  match v, n with
  | [], _ => None
  | _ :: v', O => Some (a :: v')
  | x :: v', S n' => option_map (cons x) (set_nth v' n' a)
  end.

(** [v[i] = a]. *)
Definition vset (v : list A) (i : Z) (a : A) : result (list A) :=
  if i <? 0 then Throw Undefined
  else match set_nth v (Z.to_nat i) a with
       | Some v' => Ok v'
       | None => Throw Undefined
       end.

(** [v.at(i)]. *)
Definition vat (v : list A) (i : Z) : result A :=
  if i <? 0 then Throw OutOfRange
  else match nth_error v (Z.to_nat i) with
       | Some a => Ok a
       | None => Throw OutOfRange
       end.

(** [v.back()]. *)
Definition vback (v : list A) : result A :=
  match v with
  | [] => Throw Undefined
  | _ => match nth_error v (Nat.pred (List.length v)) with
         | Some a => Ok a
         | None => Throw Undefined
         end
  end.

(** [v.pop_back()]. *)
Definition vpop (v : list A) : result (list A) :=
  match v with
  | [] => Throw Undefined
  | _ => Ok (removelast v)
  end.

Definition vsize (v : list A) : Z := Z.of_nat (List.length v).
End Vector.

(** [s.find(c, start)]; [None] is [std::string::npos]. *)
Fixpoint find (s : string) (c : ascii) (start : nat) : option nat :=
  match s with
  | EmptyString => None
  | String a s' =>
      match start with
      | O => if Ascii.eqb a c then Some O else option_map S (find s' c O)
      | S k => option_map S (find s' c k)
      end
  end.

(** [s.substr(pos, len)] and [s.substr(pos)], for [pos] within the string
    (the only use [splitPath] makes of them). *)
Definition substr (s : string) (pos len : nat) : string := substring pos len s.
Definition substr_from (s : string) (pos : nat) : string :=
  substring pos (String.length s - pos) s.

(** ** ResultSet::splitPath *)

(** The [while] loop of [splitPath]: [start] only grows, so the distance to
    the end of [path] is a measure. *)
Equations? splitPath_loop (path : string) (start : nat) (components : list string)
  : list string by wf (S (String.length path) - start)%nat lt :=
  splitPath_loop path start components with inspect (find path "/"%char start) => {
    | exist _ (Some e) Hfind =>
        splitPath_loop path (e + 1)
          (if Nat.eqb e start then components
           else components ++ [substr path start (e - start)]);
    | exist _ None _ =>
        if Nat.ltb start (String.length path)
        then components ++ [substr_from path start]
        else components }.
Proof.
  assert (Hb : forall s st k, find s "/"%char st = Some k ->
                 (st <= k < String.length s)%nat).
  { clear. induction s as [|a s IH]; intros st k H; simpl in H; [discriminate|].
    destruct st as [|st].
    - destruct (Ascii.eqb a "/"%char).
      + injection H as <-. simpl. lia.
      + destruct (find s "/"%char 0) as [j|] eqn:E; simpl in H; [|discriminate].
        injection H as <-. apply IH in E. simpl. lia.
    - destruct (find s "/"%char st) as [j|] eqn:E; simpl in H; [|discriminate].
      injection H as <-. apply IH in E. simpl. lia. }
  apply Hb in Hfind. rewrite Nat.add_1_r. destruct start; lia.
Qed.

Definition splitPath (path : string) : list string := splitPath_loop path 0 [].

(** Joining components with a separator, the inverse the round-trip law is
    stated against. *)
Fixpoint join (sep : string) (comps : list string) : string :=
  match comps with
  | [] => ""
  | [c] => c
  | c :: rest => (c ++ sep ++ join sep rest)%string
  end.


(** ** Data model *)

(** [double]: see the conventions above. *)
Definition double : Type := Q.

(** Modelled from the spec: the constant [MissingValue] of Constants.h,
    which is not among the sources; the specification gives it as [10e10]. *)
Definition MissingValue : double := 100000000000 # 1.

(** The node types of the BUFR table (DataProvider.h, [Typ]). *)
Inductive Typ : Type :=
| Subset | DelayedRep | FixedRep | DelayedRepStacked | DelayedBinary
| Sequence | Repeat | StackedRepeat | Number | Character.

Definition Typ_eqb (a b : Typ) : bool :=
  match a, b with
  | Subset, Subset | DelayedRep, DelayedRep | FixedRep, FixedRep
  | DelayedRepStacked, DelayedRepStacked | DelayedBinary, DelayedBinary
  | Sequence, Sequence | Repeat, Repeat | StackedRepeat, StackedRepeat
  | Number, Number | Character, Character => true
  | _, _ => false
  end.

Record TypeInfo : Type := mkTypeInfo {
  scale : Z;
  reference : Z;
  bits : Z;
  unit : string }.

(** The queries the code makes of the external [DataProvider] for the
    current subset. *)
Record DataProvider : Type := mkDataProvider {
  getSubset : string;
  getInode : Z;
  getIsc : Z -> Z;
  getNVal : Z;
  getInv : Z -> Z;
  getVal : Z -> double;
  getTyp : Z -> Typ;
  getTag : Z -> string;
  getJmpb : Z -> Z;
  getLink : Z -> Z;
  getTypeInfo : Z -> TypeInfo }.

(** A component of a query path; the subset component also says whether it
    matches any subset. *)
Record QueryComponent : Type := mkQueryComponent {
  qc_name : string;
  qc_index : Z;
  qc_isAnySubset : bool }.

Record Query : Type := mkQuery {
  q_subset : QueryComponent;
  q_path : list QueryComponent;
  q_queryStr : string }.

Inductive TargetComponentType : Type := TCSubset | TCRepeat | TCValue.

Record TargetComponent : Type := mkTargetComponent {
  queryComponent : QueryComponent;
  branch : Z;
  type : TargetComponentType }.

Definition TargetComponents : Type := list TargetComponent.

Record Target : Type := mkTarget {
  name : string;
  queryStr : string;
  nodeIdx : Z;
  path : TargetComponents;
  seqPath : list Z;
  typeInfo : TypeInfo;
  dimPaths : list string;
  exportDimIdxs : list Z }.

Definition Targets : Type := list Target.

(** Modelled from the spec: [Target::setPath] of Target.h, which is not among
    the sources: [seqPath] is the sub-sequence of the branches of the
    components that stand for a repeated sequence. *)
Definition seqPathOf (components : TargetComponents) : list Z :=
  map branch
      (filter (fun c => match type c with TCRepeat => true | _ => false end)
              components).

Record ProcessingMasks : Type := mkProcessingMasks {
  valueNodeMask : list bool;
  pathNodeMask : list bool }.

Record NodeData : Type := mkNodeData {
  values : list double;
  counts : list Z }.

(** Modelled from the spec: [OffsetArray] of the header of QueryRunner, which
    is not among the sources: a dense vector with a base offset, [V[i]] being
    [storage[i - offset]], built for the node range [inode .. isc(inode)]. *)
Record OffsetArray (A : Type) : Type := mkOffsetArray {
  offset : Z;
  storage : list A }.
Arguments mkOffsetArray {A} offset storage.
Arguments offset {A} o.
Arguments storage {A} o.

Definition oa_make {A : Type} (dflt : A) (lo hi : Z) : OffsetArray A :=
  mkOffsetArray lo (repeat dflt (Z.to_nat (hi - lo + 1))).

Definition oa_get {A : Type} (t : OffsetArray A) (i : Z) : result A :=
  vget (storage t) (i - offset t).

Definition oa_set {A : Type} (t : OffsetArray A) (i : Z) (a : A)
  : result (OffsetArray A) :=
  s <- vset (storage t) (i - offset t) a ;;
  Ok (mkOffsetArray (offset t) s).

(** One field of a frame as the collector fills it. *)
Record DataField : Type := mkDataField {
  target : Target;
  data : list double;
  seqCounts : list (list Z) }.

(** What DataProvider.h declares for [TypeInfo] besides its fields: the value
    of a fresh [TypeInfo()] and the four classifying predicates.  The header
    is not among the sources, so the code is embedded for any such
    declaration. *)
Record TypeInfoDecl : Type := mkTypeInfoDecl {
  TypeInfo_default : TypeInfo;
  isString : TypeInfo -> bool;
  isInteger : TypeInfo -> bool;
  isSigned : TypeInfo -> bool;
  is64Bit : TypeInfo -> bool }.

(** Modelled from the spec: the node index of a fresh [Target] (Target.h is
    not among the sources); an empty target has [nodeIdx = 0]. *)
Definition Target_default_nodeIdx : Z := 0.

(** ** QueryRunner *)

Module QueryRunner.

Definition isQueryNode (dp : DataProvider) (nodeIdx : Z) : bool :=
  Typ_eqb (getTyp dp nodeIdx) DelayedRep ||
  Typ_eqb (getTyp dp nodeIdx) FixedRep ||
  Typ_eqb (getTyp dp nodeIdx) DelayedRepStacked ||
  Typ_eqb (getTyp dp nodeIdx) DelayedBinary.

(** [mnemonicStr.substr(1, mnemonicStr.size() - 2)]: the position 1 lies
    outside an empty tag; on a tag of one character the length wraps around
    and the result is the empty rest. *)
Definition stripTag (mnemonicStr : string) : result string :=
  if Nat.eqb (String.length mnemonicStr) 0 then Throw OutOfRange
  else Ok (substring 1 (String.length mnemonicStr - 2) mnemonicStr).

(** The loop of [getDimInfo] over [branchIdx], [n] iterations being left. *)
Fixpoint getDimInfo_loop (dp : DataProvider) (components : TargetComponents)
    (n : nat) (branchIdx : Z) (currentDimPath : string)
    (dimPaths : list string) (dimIdxs : list Z)
  : result (list string * list Z) :=
  match n with
  | O => Ok (dimPaths, dimIdxs)
  | S n' =>
      c <- vget components (branchIdx + 1) ;;
      let nodeIdx := branch c in
      let mnemonicStr := getTag dp nodeIdx in
      inner <- stripTag mnemonicStr ;;
      let currentDimPath := (currentDimPath ++ "/" ++ inner)%string in
      if Typ_eqb (getTyp dp nodeIdx) DelayedRep ||
         Typ_eqb (getTyp dp nodeIdx) FixedRep ||
         Typ_eqb (getTyp dp nodeIdx) DelayedRepStacked
      then getDimInfo_loop dp components n' (branchIdx + 1) currentDimPath
             (dimPaths ++ [currentDimPath]) (dimIdxs ++ [branchIdx + 1])
      else getDimInfo_loop dp components n' (branchIdx + 1) currentDimPath
             dimPaths dimIdxs
  end.

Definition getDimInfo (dp : DataProvider) (components : TargetComponents)
    (mnemonicCursor : Z) : result (list string * list Z) :=
  if 0 <=? mnemonicCursor
  then getDimInfo_loop dp components (Z.to_nat (mnemonicCursor + 1)) 0 "*" ["*"] [0]
  else Ok (["*"], [0]).

(** The local variables of the node loop of [findTarget]. *)
Record ScanState : Type := mkScanState {
  sc_targetNodes : list Z;
  sc_seqPath : list Z;
  sc_dimPaths : list string;
  sc_dimIdxs : list Z;
  sc_targetComponents : TargetComponents;
  sc_tableCursor : Z;
  sc_mnemonicCursor : Z }.

Definition isSeqTyp (t : Typ) : bool :=
  Typ_eqb t Sequence || Typ_eqb t Repeat || Typ_eqb t StackedRepeat.

Definition setBranch (c : TargetComponent) (b : Z) : TargetComponent :=
  mkTargetComponent (queryComponent c) b (type c).

Definition setType (c : TargetComponent) (t : TargetComponentType) : TargetComponent :=
  mkTargetComponent (queryComponent c) (branch c) t.

(** First half of the loop body: enter a sequence or record an endpoint. *)
Definition scanMatch (dp : DataProvider) (query : Query) (nodeIdx : Z)
    (st : ScanState) : result ScanState :=
  let tc := sc_tableCursor st in
  let mc := sc_mnemonicCursor st in
  if isSeqTyp (getTyp dp nodeIdx) then
    st1 <- (if isQueryNode dp (nodeIdx - 1) then
              qc <- vget (q_path query) (mc + 1) ;;
              st' <- (if String.eqb (getTag dp nodeIdx) (qc_name qc) && (tc =? mc)
                      then
                        let mc' := mc + 1 in
                        c <- vget (sc_targetComponents st) (mc' + 1) ;;
                        comps <- vset (sc_targetComponents st) (mc' + 1)
                                      (setBranch c (nodeIdx - 1)) ;;
                        Ok (mkScanState (sc_targetNodes st) (sc_seqPath st)
                              (sc_dimPaths st) (sc_dimIdxs st) comps tc mc')
                      else Ok st) ;;
              Ok (mkScanState (sc_targetNodes st') (sc_seqPath st')
                    (sc_dimPaths st') (sc_dimIdxs st') (sc_targetComponents st')
                    (sc_tableCursor st' + 1) (sc_mnemonicCursor st'))
            else Ok st) ;;
    Ok (mkScanState (sc_targetNodes st1) (sc_seqPath st1 ++ [nodeIdx])
          (sc_dimPaths st1) (sc_dimIdxs st1) (sc_targetComponents st1)
          (sc_tableCursor st1) (sc_mnemonicCursor st1))
  else if (mc =? vsize (q_path query) - 2) && (tc =? mc) then
    last <- vback (q_path query) ;;
    if String.eqb (getTag dp nodeIdx) (qc_name last) then
      '(dimPaths, dimIdxs) <- getDimInfo dp (sc_targetComponents st) mc ;;
      Ok (mkScanState (sc_targetNodes st ++ [nodeIdx]) (sc_seqPath st)
            dimPaths dimIdxs (sc_targetComponents st) tc mc)
    else Ok st
  else Ok st.

(** The [while] loop that skips pure sequences not inside any kind of
    repeated sequence; it follows [jmpb] links and need not terminate on an
    arbitrary provider, hence the fuel ([None]: fuel exhausted). *)
Fixpoint jumpBackLoop (fuel : nat) (dp : DataProvider) (jumpBackNode : Z)
  : option Z :=
  match fuel with
  | O => None
  | S fuel' =>
      if Typ_eqb (getTyp dp jumpBackNode) Sequence &&
         negb (Typ_eqb (getTyp dp (jumpBackNode - 1)) DelayedRep) &&
         negb (Typ_eqb (getTyp dp (jumpBackNode - 1)) FixedRep) &&
         negb (Typ_eqb (getTyp dp (jumpBackNode - 1)) DelayedRepStacked) &&
         negb (Typ_eqb (getTyp dp (jumpBackNode - 1)) DelayedBinary)
      then
        let newJumpBackNode := getJmpb dp jumpBackNode in
        if negb (newJumpBackNode =? jumpBackNode)
        then jumpBackLoop fuel' dp newJumpBackNode
        else Some jumpBackNode
      else Some jumpBackNode
  end.

Definition jumpBack (fuel : nat) (dp : DataProvider) (nodeIdx : Z) : option Z :=
  if nodeIdx <? getIsc dp (getInode dp) then
    let jumpBackNode := getJmpb dp (nodeIdx + 1) in
    let jumpBackNode := if jumpBackNode =? 0 then getInode dp else jumpBackNode in
    jumpBackLoop fuel dp jumpBackNode
  else Some (getInode dp).

(** The search [for (pathIdx = seqPath.size() - 2; pathIdx >= 0; pathIdx--)]
    for the jump-back node: [n] candidates [n-1 .. 0] are left. *)
Fixpoint findSeqIdx (seqPath : list Z) (jumpBackNode : Z) (n : nat) : option nat :=
  match n with
  | O => None
  | S k =>
      match nth_error seqPath k with
      | Some x => if x =? jumpBackNode then Some k
                  else findSeqIdx seqPath jumpBackNode k
      | None => findSeqIdx seqPath jumpBackNode k
      end
  end.

(** The rewind loop: [n] sequences are left, the next at [rewindIdx]. *)
Fixpoint rewind (dp : DataProvider) (n : nat) (rewindIdx : Z) (st : ScanState)
  : result ScanState :=
  match n with
  | O => Ok st
  | S n' =>
      s <- vget (sc_seqPath st) rewindIdx ;;
      let '(tc, mc) :=
        if isQueryNode dp (s - 1) then
          let mc := if (-1 <? sc_mnemonicCursor st) &&
                       (sc_tableCursor st =? sc_mnemonicCursor st)
                    then sc_mnemonicCursor st - 1 else sc_mnemonicCursor st in
          (sc_tableCursor st - 1, mc)
        else (sc_tableCursor st, sc_mnemonicCursor st) in
      sp <- vpop (sc_seqPath st) ;;
      rewind dp n' (rewindIdx - 1)
        (mkScanState (sc_targetNodes st) sp (sc_dimPaths st) (sc_dimIdxs st)
           (sc_targetComponents st) tc mc)
  end.

(** Second half of the loop body: step back up the tree. *)
Definition scanStepBack (fuel : nat) (dp : DataProvider) (nodeIdx : Z)
    (st : ScanState) : option (result ScanState) :=
  if 1 <? vsize (sc_seqPath st) then
    match jumpBack fuel dp nodeIdx with
    | None => None
    | Some jumpBackNode =>
        let size := List.length (sc_seqPath st) in
        match findSeqIdx (sc_seqPath st) jumpBackNode (size - 1) with
        | Some pathIdx =>
            Some (rewind dp (size - 1 - pathIdx) (Z.of_nat size - 1) st)
        | None => Some (Ok st)
        end
    end
  else Some (Ok st).

Definition scanNode (fuel : nat) (dp : DataProvider) (query : Query)
    (nodeIdx : Z) (st : ScanState) : option (result ScanState) :=
  match scanMatch dp query nodeIdx st with
  | Ok st1 => scanStepBack fuel dp nodeIdx st1
  | Throw e => Some (Throw e)
  end.

(** The [for] loop over [nodeIdx], [n] nodes being left. *)
Fixpoint scanLoop (fuel : nat) (dp : DataProvider) (query : Query)
    (n : nat) (nodeIdx : Z) (st : ScanState) : option (result ScanState) :=
  match n with
  | O => Some (Ok st)
  | S n' =>
      match scanNode fuel dp query nodeIdx st with
      | Some (Ok st') => scanLoop fuel dp query n' (nodeIdx + 1) st'
      | other => other
      end
  end.

Definition initialComponents (query : Query) : TargetComponents :=
  let comps :=
    mkTargetComponent (q_subset query) 0 TCSubset ::
    map (fun pathComponent => mkTargetComponent pathComponent 0 TCRepeat)
        (q_path query) in
  removelast comps ++
  [setType (last comps (mkTargetComponent (q_subset query) 0 TCSubset)) TCValue].

Definition scan (fuel : nat) (dp : DataProvider) (query : Query)
  : option (result ScanState) :=
  scanLoop fuel dp query
    (Z.to_nat (getIsc dp (getInode dp) - getInode dp + 1)) (getInode dp)
    (mkScanState [] [getInode dp] [] [] (initialComponents query) (-1) (-1)).

(** The narrowing of the endpoints by the index of the last component. *)
Definition narrowTargets (index : Z) (targetNodes : list Z) : result (list Z) :=
  if (0 <? index) && (index <=? vsize targetNodes)
  then n <- vget targetNodes (index - 1) ;; Ok [n]
  else Ok targetNodes.

Definition ambiguousMsg (queryStr : string) : string :=
  ("Query string must return 1 target. Are you missing an index? "
     ++ queryStr ++ ".")%string.

Section WithTypeInfoDecl.
Variable decl : TypeInfoDecl.

Definition emptyTarget (targetName : string) (query : Query) : Target :=
  mkTarget targetName (q_queryStr query) Target_default_nodeIdx []
    (seqPathOf []) (TypeInfo_default decl) ["*"] [0].

(** The end of [findTarget]: the check that at most one endpoint is left,
    and the target made of it. *)
Definition buildTarget (dp : DataProvider) (targetName : string)
    (query : Query) (st : ScanState) (targetNodes : list Z) : result Target :=
  if 1 <? vsize targetNodes then
    Throw (BadParameter (ambiguousMsg (q_queryStr query)))
  else
    match targetNodes with
    | n :: _ =>
        Ok (mkTarget targetName (q_queryStr query) n (sc_targetComponents st)
              (seqPathOf (sc_targetComponents st)) (getTypeInfo dp n)
              (sc_dimPaths st) (sc_dimIdxs st))
    | [] =>
        Ok (mkTarget targetName (q_queryStr query) 0 (sc_targetComponents st)
              (seqPathOf (sc_targetComponents st)) (TypeInfo_default decl)
              ["*"] [0])
    end.

(** What [findTarget] does once the node loop is over. *)
Definition finishTarget (dp : DataProvider) (targetName : string)
    (query : Query) (st : ScanState) : result Target :=
  last <- vback (q_path query) ;;
  targetNodes <- narrowTargets (qc_index last) (sc_targetNodes st) ;;
  buildTarget dp targetName query st targetNodes.

Definition findTarget (fuel : nat) (dp : DataProvider) (targetName : string)
    (query : Query) : option (result Target) :=
  if negb (qc_isAnySubset (q_subset query) ||
           String.eqb (qc_name (q_subset query)) (getSubset dp))
  then Some (Ok (emptyTarget targetName query))
  else
    match scan fuel dp query with
    | Some (Ok st) => Some (finishTarget dp targetName query st)
    | Some (Throw e) => Some (Throw e)
    | None => None
    end.

End WithTypeInfoDecl.

(** *** old_findTargets *)

(** The queries the code makes of the external [QuerySet] (QuerySet.h is not
    among the sources): [size()], [names()] and [queriesFor(name)]. *)
Record QuerySet : Type := mkQuerySet {
  qs_size : Z;
  names : list string;
  queriesFor : string -> list Query }.

(** A list of shared pointers to targets; [None] is the null pointer. *)
Definition TargetPtrs : Type := list (option Target).

(** The two caches of the runner, keyed by the name of the subset, as
    association lists in the order of insertion. *)
Record Caches : Type := mkCaches {
  targetCache_ : list (string * TargetPtrs);
  maskCache_ : list (string * ProcessingMasks) }.

(** [m.find(k)], [m.at(k)] and [m.insert({k, v})], which keeps an entry that
    is already there. *)
Fixpoint cache_find {A : Type} (m : list (string * A)) (k : string) : option A :=
  match m with
  | [] => None
  | (k', v) :: rest => if String.eqb k' k then Some v else cache_find rest k
  end.

Definition cache_at {A : Type} (m : list (string * A)) (k : string) : result A :=
  match cache_find m k with
  | Some v => Ok v
  | None => Throw OutOfRange
  end.

Definition cache_insert {A : Type} (m : list (string * A)) (k : string) (v : A)
  : list (string * A) :=
  match cache_find m k with
  | Some _ => m
  | None => m ++ [(k, v)]
  end.

(** [max_size()] of a [std::vector<bool>]. *)
Definition vector_bool_max_size : Z := 2 ^ 63 - 64.

(** [mask.resize(numNodes, false)] of an empty mask, [numNodes] being a
    [size_t]. *)
Definition newMask (numNodes : Z) : result (list bool) :=
  let n := numNodes mod 2 ^ 64 in
  if vector_bool_max_size <? n then Throw LengthError
  else Ok (repeat false (Z.to_nat n)).

(** The loop that sets the path mask at the nodes of a [seqPath]. *)
Fixpoint setPathMask (seqPath : list Z) (mask : list bool) : result (list bool) :=
  match seqPath with
  | [] => Ok mask
  | s :: rest =>
      mask' <- vset mask s true ;;
      setPathMask rest mask'
  end.

(** "Collect mask data". *)
Definition setMasks (target : Target) (masks : ProcessingMasks)
  : result ProcessingMasks :=
  v <- vset (valueNodeMask masks) (nodeIdx target) true ;;
  p <- setPathMask (seqPath target) (pathNodeMask masks) ;;
  Ok (mkProcessingMasks v p).

Definition newline : string := String "010"%char EmptyString.

(** What the code writes to the warning log for a query that found no
    target. *)
Definition warningMsg (queries : list Query) (subset : string) : string :=
  ("Warning: Query String "
     ++ (match queries with
         | [q] => q_queryStr q
         | _ => "[" ++ join ", " (map q_queryStr queries) ++ "]"
         end)
     ++ " didn't apply to subset " ++ subset ++ newline)%string.

Section OldFindTargets.
Variable decl : TypeInfoDecl.

(** The loop over the sub-queries of one name: the last target found, whether
    it is resolved, and the masks. *)
Fixpoint subQueryLoop (fuel : nat) (dp : DataProvider) (queryName : string)
    (subQueries : list Query) (masks : ProcessingMasks) (target : option Target)
  : option (result (option Target * bool * ProcessingMasks)) :=
  match subQueries with
  | [] => Some (Ok (target, false, masks))
  | subQuery :: rest =>
      match findTarget decl fuel dp queryName subQuery with
      | None => None
      | Some (Throw e) => Some (Throw e)
      | Some (Ok t) =>
          if 0 <? nodeIdx t then
            Some (masks' <- setMasks t masks ;; Ok (Some t, true, masks'))
          else subQueryLoop fuel dp queryName rest masks (Some t)
      end
  end.

(** The loop over the names of the query set, [n] names being left. *)
Fixpoint queryLoop (fuel : nat) (dp : DataProvider) (querySet : QuerySet)
    (n : nat) (targetIdx : Z) (targets : TargetPtrs) (masks : ProcessingMasks)
    (log : string) : option (result (TargetPtrs * ProcessingMasks * string)) :=
  match n with
  | O => Some (Ok (targets, masks, log))
  | S n' =>
      match vget (names querySet) targetIdx with
      | Throw e => Some (Throw e)
      | Ok queryName =>
          let subQueries := queriesFor querySet queryName in
          match subQueryLoop fuel dp queryName subQueries masks None with
          | None => None
          | Some (Throw e) => Some (Throw e)
          | Some (Ok (target, foundTarget, masks')) =>
              queryLoop fuel dp querySet n' (targetIdx + 1) (targets ++ [target]) masks'
                (if (foundTarget : bool) then log
                 else (log ++ warningMsg (queriesFor querySet queryName)
                                (getSubset dp))%string)
          end
      end
  end.

(** [old_findTargets]: the targets and the masks of the subset, the caches
    afterwards, and what was written to the warning log by the time it
    returns. *)
Definition old_findTargets (fuel : nat) (dp : DataProvider) (querySet : QuerySet)
    (caches : Caches)
  : option (result (TargetPtrs * ProcessingMasks * Caches * string)) :=
  match cache_find (targetCache_ caches) (getSubset dp) with
  | Some targets =>
      Some (masks <- cache_at (maskCache_ caches) (getSubset dp) ;;
            Ok (targets, masks, caches, ""))
  | None =>
      let numNodes := getIsc dp (getInode dp) in
      match (v <- newMask numNodes ;; p <- newMask numNodes ;;
             Ok (mkProcessingMasks v p)) with
      | Throw e => Some (Throw e)
      | Ok masks0 =>
          match queryLoop fuel dp querySet (Z.to_nat (qs_size querySet)) 0
                  [] masks0 "" with
          | None => None
          | Some (Throw e) => Some (Throw e)
          | Some (Ok (targets, masks, log)) =>
              Some (Ok (targets, masks,
                        mkCaches
                          (cache_insert (targetCache_ caches) (getSubset dp) targets)
                          (cache_insert (maskCache_ caches) (getSubset dp) masks),
                        log))
          end
      end
  end.

End OldFindTargets.

(** *** findTargets *)

(** What the code uses of the external [SubsetTable] (SubsetTable.h is not
    among the sources; the code is embedded for any such table): of a node
    its index, type information, the index and the type of the nodes on the
    path to it, and its dimension paths and indices; of the table the lookup
    of a query path, which answers with a node or with the null pointer, or
    raises what it raises. *)
Record PathNode : Type := mkPathNode {
  pn_nodeIdx : Z;
  pn_type : Typ }.

Record BufrNode : Type := mkBufrNode {
  bn_nodeIdx : Z;
  bn_typeInfo : TypeInfo;
  getPathNodes : list PathNode;
  getDimPaths : list string;
  getDimIdxs : list Z }.

Record SubsetTable : Type := mkSubsetTable {
  getNodeForPath : list QueryComponent -> result (option BufrNode) }.

Section FindTargets.
Variable decl : TypeInfoDecl.

(** [SubsetTable(dataProvider_)]: the table made for the subset. *)
Variable newSubsetTable : DataProvider -> result SubsetTable.

(** A fresh [TargetComponent], and the component type
    [TargetComponent::setType(Typ)] derives from a node type (Target.h is
    not among the sources). *)
Variable TargetComponent_default : TargetComponent.
Variable typeOfTyp : Typ -> TargetComponentType.

(** The loop over the sub-queries of a name: the first one the table has a
    node for, with that node. *)
Fixpoint findNode (table : SubsetTable) (queries : list Query)
  : result (option (Query * BufrNode)) :=
  match queries with
  | [] => Ok None
  | query :: rest =>
      tableNode <- getNodeForPath table (q_path query) ;;
      match tableNode with
      | Some node => Ok (Some (query, node))
      | None => findNode table rest
      end
  end.

(** The loop that fills the components of the path from the path nodes
    behind the first. *)
Fixpoint fillPath (foundQuery : Query) (nodes : list PathNode) (nodeIdx : Z)
    (pathIdx : Z) (path : TargetComponents) : result TargetComponents :=
  match nodes with
  | [] => Ok path
  | node :: rest =>
      qc <- vget (q_path foundQuery) (nodeIdx - 1) ;;
      path' <- vset path pathIdx
                 (mkTargetComponent qc (pn_nodeIdx node) (typeOfTyp (pn_type node))) ;;
      fillPath foundQuery rest (nodeIdx + 1) (pathIdx + 1) path'
  end.

(** The target of a name and the masks with it. *)
Definition targetFor (table : SubsetTable) (querySet : QuerySet) (name : string)
    (masks : ProcessingMasks) : result (Target * ProcessingMasks) :=
  found <- findNode table (queriesFor querySet name) ;;
  match found with
  | None =>
      first <- vget (queriesFor querySet name) 0 ;;
      Ok (emptyTarget decl name first, masks)
  | Some (foundQuery, tableNode) =>
      let path0 := repeat TargetComponent_default (S (List.length (q_path foundQuery))) in
      path1 <- vset path0 0 (mkTargetComponent (q_subset foundQuery) 0 (typeOfTyp Subset)) ;;
      path <- fillPath foundQuery (tl (getPathNodes tableNode)) 1 1 path1 ;;
      let target :=
        mkTarget name (q_queryStr foundQuery) (bn_nodeIdx tableNode) path
          (seqPathOf path) (bn_typeInfo tableNode) (getDimPaths tableNode)
          (getDimIdxs tableNode) in
      masks' <- setMasks target masks ;;
      Ok (target, masks')
  end.

(** The loop over the names of the query set. *)
Fixpoint namesLoop (table : SubsetTable) (querySet : QuerySet)
    (queryNames : list string) (targets : TargetPtrs) (masks : ProcessingMasks)
  : result (TargetPtrs * ProcessingMasks) :=
  match queryNames with
  | [] => Ok (targets, masks)
  | name :: rest =>
      '(target, masks') <- targetFor table querySet name masks ;;
      namesLoop table querySet rest (targets ++ [Some target]) masks'
  end.

(** [findTargets]: the targets and the masks of the subset, and the caches
    afterwards. *)
Definition findTargets (dp : DataProvider) (querySet : QuerySet) (caches : Caches)
  : result (TargetPtrs * ProcessingMasks * Caches) :=
  match cache_find (targetCache_ caches) (getSubset dp) with
  | Some targets =>
      masks <- cache_at (maskCache_ caches) (getSubset dp) ;;
      Ok (targets, masks, caches)
  | None =>
      let numNodes := getIsc dp (getInode dp) in
      v <- newMask numNodes ;;
      p <- newMask numNodes ;;
      table <- newSubsetTable dp ;;
      '(targets, masks) <- namesLoop table querySet (names querySet) []
                             (mkProcessingMasks v p) ;;
      Ok (targets, masks,
          mkCaches (cache_insert (targetCache_ caches) (getSubset dp) targets)
                   (cache_insert (maskCache_ caches) (getSubset dp) masks))
  end.

End FindTargets.

(** *** collectData *)

(** The local variables of [collectData].  [returnNodeIdx] is [None] after
    the source has read [currentPathReturns[-1]], an indeterminate value;
    using such a value is undefined. *)
Record CollectState : Type := mkCollectState {
  currentPath : list Z;
  currentPathReturns : list Z;
  returnNodeIdx : option Z;
  lastNonZeroReturnIdx : Z;
  dataTable : OffsetArray NodeData }.

Definition withTable (st : CollectState) (t : OffsetArray NodeData) : CollectState :=
  mkCollectState (currentPath st) (currentPathReturns st) (returnNodeIdx st)
    (lastNonZeroReturnIdx st) t.

(** [dataTable[i].values.push_back(v)]. *)
Definition pushValue (t : OffsetArray NodeData) (i : Z) (v : double)
  : result (OffsetArray NodeData) :=
  nd <- oa_get t i ;;
  oa_set t i (mkNodeData (values nd ++ [v]) (counts nd)).

(** [dataTable[i].counts.push_back(c)]. *)
Definition pushCount (t : OffsetArray NodeData) (i : Z) (c : Z)
  : result (OffsetArray NodeData) :=
  nd <- oa_get t i ;;
  oa_set t i (mkNodeData (values nd) (counts nd ++ [c])).

(** [dataTable[i].counts.back() += d]. *)
Definition bumpLastCount (t : OffsetArray NodeData) (i : Z) (d : Z)
  : result (OffsetArray NodeData) :=
  nd <- oa_get t i ;;
  c <- vback (counts nd) ;;
  oa_set t i (mkNodeData (values nd) (removelast (counts nd) ++ [c + d])).

(** Value capture. *)
Definition captureValue (dp : DataProvider) (masks : ProcessingMasks)
    (dataCursor : Z) (st : CollectState) : result CollectState :=
  let nodeIdx := getInv dp dataCursor in
  m <- vget (valueNodeMask masks) nodeIdx ;;
  if (m : bool) then
    t <- pushValue (dataTable st) nodeIdx (getVal dp dataCursor) ;;
    Ok (withTable st t)
  else Ok st.

(** Sequence count maintenance. *)
Definition countSequence (dp : DataProvider) (masks : ProcessingMasks)
    (dataCursor : Z) (st : CollectState) : result CollectState :=
  let nodeIdx := getInv dp dataCursor in
  if 0 <? getJmpb dp nodeIdx then
    m <- vget (pathNodeMask masks) (getJmpb dp nodeIdx) ;;
    if (m : bool) then
      let typ := getTyp dp nodeIdx in
      let jmpbTyp := getTyp dp (getJmpb dp nodeIdx) in
      if (Typ_eqb typ Sequence && (Typ_eqb jmpbTyp Sequence ||
                                   Typ_eqb jmpbTyp DelayedBinary ||
                                   Typ_eqb jmpbTyp FixedRep)) ||
         Typ_eqb typ Repeat ||
         Typ_eqb typ StackedRepeat
      then
        t <- bumpLastCount (dataTable st) nodeIdx 1 ;;
        Ok (withTable st t)
      else Ok st
    else Ok st
  else Ok st.

(** The loop that leaves sequences, [n] iterations being left. *)
Fixpoint exitLoop (dp : DataProvider) (n : nat) (st : CollectState)
  : result CollectState :=
  match n with
  | O => Ok st
  | S n' =>
      returns <- vpop (currentPathReturns st) ;;
      seqNodeIdx <- vback (currentPath st) ;;
      cpath <- vpop (currentPath st) ;;
      let typSeqNode := getTyp dp seqNodeIdx in
      t <- (if Typ_eqb typSeqNode DelayedRep || Typ_eqb typSeqNode DelayedRepStacked
            then bumpLastCount (dataTable st) (seqNodeIdx + 1) (-1)
            else Ok (dataTable st)) ;;
      exitLoop dp n'
        (mkCollectState cpath returns (returnNodeIdx st) (lastNonZeroReturnIdx st) t)
  end.

(** [nodeIdx == returnNodeIdx]. *)
Definition isReturnNode (nodeIdx : Z) (returnNodeIdx : option Z) : result bool :=
  match returnNodeIdx with
  | Some r => Ok (nodeIdx =? r)
  | None => Throw Undefined
  end.

(** [currentPathReturns[i]] read into [returnNodeIdx]: outside the vector the
    value is indeterminate. *)
Definition readReturn (returns : list Z) (i : Z) : option Z :=
  if i <? 0 then None else nth_error returns (Z.to_nat i).

(** Exit check. *)
Definition checkExit (dp : DataProvider) (dataCursor : Z) (st : CollectState)
  : result CollectState :=
  let nodeIdx := getInv dp dataCursor in
  if 1 <=? vsize (currentPath st) then
    atReturn <- isReturnNode nodeIdx (returnNodeIdx st) ;;
    leave <- (if (atReturn : bool) then Ok true
              else if dataCursor =? getNVal dp then Ok true
              else if 1 <? vsize (currentPath st) then
                     b <- vback (currentPath st) ;; Ok (nodeIdx =? b + 1)
                   else Ok false) ;;
    if (leave : bool) then
      st1 <- exitLoop dp
               (Z.to_nat (vsize (currentPathReturns st) - lastNonZeroReturnIdx st))
               st ;;
      let last := vsize (currentPathReturns st1) - 1 in
      Ok (mkCollectState (currentPath st1) (currentPathReturns st1)
            (readReturn (currentPathReturns st1) last) last (dataTable st1))
    else Ok st
  else Ok st.

(** The walk up [currentPath] for a non-zero link, [n] entries being left,
    the next at [pathIdx]. *)
Fixpoint findReturn (dp : DataProvider) (cpath : list Z) (nreturns : Z)
    (n : nat) (pathIdx : Z) (acc : Z * Z) : result (Z * Z) :=
  match n with
  | O => Ok acc
  | S n' =>
      p <- vget cpath pathIdx ;;
      let returnNodeIdx := getLink dp (getJmpb dp p) in
      let lastNonZeroReturnIdx := nreturns - pathIdx in
      if negb (returnNodeIdx =? 0) then Ok (returnNodeIdx, lastNonZeroReturnIdx)
      else findReturn dp cpath nreturns n' (pathIdx - 1)
             (returnNodeIdx, lastNonZeroReturnIdx)
  end.

(** Opening of a replication. *)
Definition openSequence (dp : DataProvider) (masks : ProcessingMasks)
    (dataCursor : Z) (st : CollectState) : result CollectState :=
  let nodeIdx := getInv dp dataCursor in
  m <- vget (pathNodeMask masks) nodeIdx ;;
  if (m : bool) && isQueryNode dp nodeIdx then
    st1 <- (if Typ_eqb (getTyp dp nodeIdx) DelayedBinary &&
               Qeq_bool (getVal dp dataCursor) 0
            then Ok st
            else
              let cpath := currentPath st ++ [nodeIdx] in
              let tmpReturnNodeIdx := getLink dp nodeIdx in
              let returns := currentPathReturns st ++ [tmpReturnNodeIdx] in
              if negb (tmpReturnNodeIdx =? 0) then
                Ok (mkCollectState cpath returns (Some tmpReturnNodeIdx)
                      (vsize returns - 1) (dataTable st))
              else if negb (dataCursor =? getNVal dp) then
                '(r, l) <- findReturn dp cpath (vsize returns)
                             (List.length cpath) (vsize cpath - 1) (0, 0) ;;
                Ok (mkCollectState cpath returns (Some r) l (dataTable st))
              else
                Ok (mkCollectState cpath returns (Some 0) 0 (dataTable st))) ;;
    t <- pushCount (dataTable st1) (nodeIdx + 1) 0 ;;
    Ok (withTable st1 t)
  else Ok st.

(** The body of the loop over [dataCursor]. *)
Definition collectStep (dp : DataProvider) (masks : ProcessingMasks)
    (dataCursor : Z) (st : CollectState) : result CollectState :=
  st1 <- captureValue dp masks dataCursor st ;;
  st2 <- countSequence dp masks dataCursor st1 ;;
  st3 <- checkExit dp dataCursor st2 ;;
  openSequence dp masks dataCursor st3.

Fixpoint collectLoop (dp : DataProvider) (masks : ProcessingMasks)
    (n : nat) (dataCursor : Z) (st : CollectState) : result CollectState :=
  match n with
  | O => Ok st
  | S n' =>
      st' <- collectStep dp masks dataCursor st ;;
      collectLoop dp masks n' (dataCursor + 1) st'
  end.

Definition initialState (dp : DataProvider) : CollectState :=
  mkCollectState [] [] (Some (-1)) (-1)
    (oa_make (mkNodeData [] []) (getInode dp) (getIsc dp (getInode dp))).

(** The table of values and counts after the pass over the value stream. *)
Definition collectTable (dp : DataProvider) (masks : ProcessingMasks)
  : result (OffsetArray NodeData) :=
  st <- collectLoop dp masks (Z.to_nat (getNVal dp)) 1 (initialState dp) ;;
  Ok (dataTable st).

(** [seqCounts[pathIdx + 1] = dataTable[seqPath[pathIdx] + 1].counts]. *)
Fixpoint seqCountsOf (t : OffsetArray NodeData) (seqPath : list Z)
  : result (list (list Z)) :=
  match seqPath with
  | [] => Ok []
  | s :: rest =>
      nd <- oa_get t (s + 1) ;;
      cs <- seqCountsOf t rest ;;
      Ok (counts nd :: cs)
  end.

(** The field of one target. *)
Definition fieldFor (t : OffsetArray NodeData) (targ : Target) : result DataField :=
  if nodeIdx targ =? 0 then
    Ok (mkDataField targ [MissingValue] [[1]])
  else
    cs <- seqCountsOf t (seqPath targ) ;;
    nd <- oa_get t (nodeIdx targ) ;;
    Ok (mkDataField targ (values nd) ([1] :: cs)).

Fixpoint fieldsFor (t : OffsetArray NodeData) (targets : Targets)
  : result (list DataField) :=
  match targets with
  | [] => Ok []
  | targ :: rest =>
      f <- fieldFor t targ ;;
      fs <- fieldsFor t rest ;;
      Ok (f :: fs)
  end.

(** [collectData]: the fields of the next frame, indexed like [targets]. *)
Definition collectData (dp : DataProvider) (targets : Targets)
    (masks : ProcessingMasks) : result (list DataField) :=
  t <- collectTable dp masks ;;
  fieldsFor t targets.

End QueryRunner.

(** ** ResultSet *)

Module ResultSet.

(** What [frame[nodeId]] yields: the counts and the values a frame holds for
    a node. *)
Record NodeEntry : Type := mkNodeEntry {
  counts : list Z;
  data : list double }.

(** A frame as ResultSet.cpp uses it (DataFrame.h is not among the sources):
    [getTargets()] and [operator[]]. *)
Record DataFrame : Type := mkDataFrame {
  getTargets : Targets;
  frameAt : Z -> NodeEntry }.

(** Modelled from the spec: the member [nodeId] of a path component
    (Target.h is not among the sources); the specification reads the
    component's [branch] at this place. *)
Definition nodeId (c : TargetComponent) : Z := branch c.

(** Modelled from the spec: the helpers of VectorMath.h, which is not among
    the sources, by their use: the largest element, whether all elements are
    equal, the product of a range, the selection of the given positions, and
    the element-wise [scalar - vector * scalar]. *)
Definition max (v : list Z) : Z :=
  match v with
  | [] => 0
  | x :: rest => fold_left Z.max rest x
  end.

Definition allEqual (v : list Z) : bool :=
  match v with
  | [] => true
  | x :: rest => forallb (Z.eqb x) rest
  end.

Definition product (v : list Z) : Z := fold_left Z.mul v 1.

Fixpoint slice (v : list Z) (idxs : list Z) : result (list Z) :=
  match idxs with
  | [] => Ok []
  | i :: rest =>
      x <- vget v i ;;
      xs <- slice v rest ;;
      Ok (x :: xs)
  end.

Definition scalarMinusScaled (a : Z) (v : list Z) (b : Z) : list Z :=
  map (fun c => a - c * b) v.

(** Conversions between [int] and [size_t]. *)
Definition to_size_t (z : Z) : Z := z mod 2 ^ 64.
Definition to_int (z : Z) : Z := (z + 2 ^ 31) mod 2 ^ 32 - 2 ^ 31.

(** [max_size()] of a vector whose elements take [elemSize] bytes. *)
Definition vector_max_size (elemSize : Z) : Z := (2 ^ 63 - 1) / elemSize.

(** [v.resize(n, x)] of an empty vector. *)
Definition resizeEmpty {A : Type} (elemSize : Z) (n : Z) (x : A) : result (list A) :=
  if vector_max_size elemSize <? n then Throw LengthError
  else Ok (repeat x (Z.to_nat n)).

(** The index of the first target called [fieldName], or the number of
    targets. *)
Fixpoint findTargetIdx (targets : Targets) (fieldName : string) : Z :=
  match targets with
  | [] => 0
  | t :: rest =>
      if String.eqb (name t) fieldName then 0
      else 1 + findTargetIdx rest fieldName
  end.

Definition groupByMsg (groupByField fieldName groupByPath targetPath : string)
  : string :=
  ("The groupByField " ++ groupByField ++ " and the targetField "
     ++ fieldName ++ " do not share a common path. The groupByField path is "
     ++ groupByPath ++ " and the targetField path is" ++ " " ++ targetPath)%string.

(** The comparison loop of the group-by check, from [i] on, [n] iterations
    being left. *)
Fixpoint commonPath (groupByPathComps targetPathComps : list string)
    (n : nat) (i : Z) : result bool :=
  match n with
  | O => Ok true
  | S n' =>
      t <- vget targetPathComps i ;;
      g <- vget groupByPathComps i ;;
      if negb (String.eqb t g) then Ok false
      else commonPath groupByPathComps targetPathComps n' (i + 1)
  end.

(** The check that the group-by target shares a common path with the target;
    it runs only when a group-by target exists. *)
Definition checkGroupBy (fieldName groupByField : string)
    (groupByTarget : option Target) (target : Target) : result Datatypes.unit :=
  match groupByTarget with
  | Some gb =>
      gbPath <- vback (dimPaths gb) ;;
      tPath <- vback (dimPaths target) ;;
      let groupByPathComps := splitPath gbPath in
      let targetPathComps := splitPath tPath in
      let bound := Z.min (vsize groupByPathComps) (vsize targetPathComps) in
      same <- commonPath groupByPathComps targetPathComps (Z.to_nat (bound - 1)) 1 ;;
      if (same : bool) then Ok tt
      else Throw (BadValue (groupByMsg groupByField fieldName gbPath tPath))
  | None => Ok tt
  end.

(** The loop over the path of a frame's target, without its last component:
    the largest counts and the jaggedness. *)
Fixpoint pathLoop (frame : DataFrame) (ps : TargetComponents) (pathIdx : Z)
    (dimsList : list Z) (jagged : bool) : result (list Z * bool) :=
  match ps with
  | [] => Ok (dimsList, jagged)
  | p :: ps' =>
      let cs := counts (frameAt frame (nodeId p)) in
      match cs with
      | [] => Ok (dimsList, jagged)
      | _ =>
          d <- vget dimsList pathIdx ;;
          let newDimVal := Z.max d (max cs) in
          let jagged' :=
            if negb jagged then
              let j := negb (allEqual cs) in
              if negb j && negb (d =? 0) then negb (d =? newDimVal) else j
            else jagged in
          dimsList' <- vset dimsList pathIdx newDimVal ;;
          pathLoop frame ps' (pathIdx + 1) dimsList' jagged'
      end
  end.

(** The merge of the type information of one frame's target. *)
Definition mergeInfo (info : TypeInfo) (t : TypeInfo) : TypeInfo :=
  mkTypeInfo
    (if scale info <? Z.abs (scale t) then scale t else scale info)
    (Z.min (reference info) (reference t))
    (Z.max (bits info) (bits t))
    (if String.eqb (unit info) "" then unit t else unit info).

(** The variables the first loop over the frames updates. *)
Record DimState : Type := mkDimState {
  ds_dimsList : list Z;
  ds_jagged : bool;
  ds_info : TypeInfo;
  ds_dimPaths : list string;
  ds_exportDims : list Z;
  ds_target : Target }.

Definition dimsFrame (targetIdx : Z) (frame : DataFrame) (st : DimState)
  : result DimState :=
  target <- vat (getTargets frame) targetIdx ;;
  match path target with
  | [] => Throw Undefined
  | _ =>
      '(dimsList, jagged) <- pathLoop frame (removelast (path target)) 0
                               (ds_dimsList st) (ds_jagged st) ;;
      let info := mergeInfo (ds_info st) (typeInfo target) in
      if negb (Nat.eqb (List.length (dimPaths target)) 0) &&
         (vsize (ds_dimPaths st) <? vsize (dimPaths target))
      then Ok (mkDimState dimsList jagged info (dimPaths target)
                 (exportDimIdxs target) target)
      else Ok (mkDimState dimsList jagged info (ds_dimPaths st)
                 (ds_exportDims st) target)
  end.

Fixpoint dimsLoop (targetIdx : Z) (frames : list DataFrame) (st : DimState)
  : result DimState :=
  match frames with
  | [] => Ok st
  | frame :: rest =>
      st' <- dimsFrame targetIdx frame st ;;
      dimsLoop targetIdx rest st'
  end.

(** The lifting of the zero dimensions to one, which the source performs on
    its copy [allDims] of the dimensions. *)
Definition liftZeroDims (allDims : list Z) : list Z :=
  map (fun d => if d =? 0 then 1 else d) allDims.

(** [rowLength]: the product of [dims] from position 1 on. *)
Definition rowLengthOf (dims : list Z) : Z := product (tl dims).

(** [inserts[repIdx] = ...] for [repIdx] below both sizes, [n] being left. *)
Fixpoint computeInserts (frame : DataFrame) (dims : list Z)
    (tpath : TargetComponents) (n : nat) (repIdx : Z)
    (inserts : list (list Z)) : result (list (list Z)) :=
  match n with
  | O => Ok inserts
  | S n' =>
      p <- vget tpath repIdx ;;
      let ins :=
        scalarMinusScaled (product (skipn (Z.to_nat repIdx) dims))
          (counts (frameAt frame (nodeId p)))
          (product (skipn (Z.to_nat (repIdx + 1)) dims)) in
      inserts' <- vset inserts repIdx ins ;;
      computeInserts frame dims tpath n' (repIdx + 1) inserts'
  end.

(** One insertion: every index beyond [data_idx] moves up. *)
Definition shiftIdxs (idxs : list Z) (data_idx num_inserts : Z) : list Z :=
  map (fun idx => if data_idx <? to_int idx
                  then to_size_t (idx + num_inserts) else idx) idxs.

(** The loop over [insert_idx] for one dimension. *)
Fixpoint inflateDim (prod : Z) (ins : list Z) (insert_idx : Z) (idxs : list Z)
  : list Z :=
  match ins with
  | [] => idxs
  | x :: rest =>
      let num_inserts := to_size_t x in
      let idxs' :=
        if 0 <? num_inserts then
          let data_idx :=
            to_int (to_size_t (to_size_t prod * insert_idx + to_size_t prod
                               - num_inserts - 1)) in
          shiftIdxs idxs data_idx num_inserts
        else idxs in
      inflateDim prod rest (insert_idx + 1) idxs'
  end.

(** The loop over [dim_idx], downwards, [n] dimensions being left. *)
Fixpoint inflate (dims : list Z) (inserts : list (list Z)) (n : nat)
    (idxs : list Z) : result (list Z) :=
  match n with
  | O => Ok idxs
  | S dim_idx =>
      ins <- vget inserts (Z.of_nat dim_idx) ;;
      inflate dims inserts dim_idx
        (inflateDim (product (skipn dim_idx dims)) ins 0 idxs)
  end.

(** [data[idxs[i] + base] = fragment[i]] for every [i]. *)
Fixpoint scatter (idxs : list Z) (fragment : list double) (base : Z)
    (data : list double) : result (list double) :=
  match idxs, fragment with
  | idx :: idxs', x :: fragment' =>
      data' <- vset data (to_size_t (idx + base)) x ;;
      scatter idxs' fragment' base data'
  | _, _ => Ok data
  end.

(** [std::copy(fragment.begin(), fragment.end(), data.begin() + pos)]. *)
Fixpoint copyTo (fragment : list double) (pos : Z) (data : list double)
  : result (list double) :=
  match fragment with
  | [] => Ok data
  | x :: fragment' =>
      data' <- vset data pos x ;;
      copyTo fragment' (pos + 1) data'
  end.

(** The body of the second loop over the frames.  The fragment is read with
    the target of the previous iteration, as in the source. *)
Definition copyFrame (targetIdx : Z) (jagged : bool) (dims : list Z)
    (rowLength : Z) (frameIdx : Z) (frame : DataFrame)
    (acc : list double * Target) : result (list double * Target) :=
  let '(data, target) := acc in
  let fragment := ResultSet.data (frameAt frame (nodeIdx target)) in
  target <- vat (getTargets frame) targetIdx ;;
  let base := to_size_t (frameIdx * to_size_t rowLength) in
  if jagged then
    let idxs := map Z.of_nat (seq 0 (List.length fragment)) in
    let inserts := repeat [0] (List.length dims) in
    inserts <- computeInserts frame dims (path target)
                 (Nat.min (List.length dims) (List.length (path target))) 0
                 inserts ;;
    idxs <- inflate dims inserts (List.length dims) idxs ;;
    data' <- scatter idxs fragment base data ;;
    Ok (data', target)
  else
    data' <- copyTo fragment base data ;;
    Ok (data', target).

Fixpoint copyLoop (targetIdx : Z) (jagged : bool) (dims : list Z)
    (rowLength : Z) (frameIdx : Z) (frames : list DataFrame)
    (acc : list double * Target) : result (list double * Target) :=
  match frames with
  | [] => Ok acc
  | frame :: rest =>
      acc' <- copyFrame targetIdx jagged dims rowLength frameIdx frame acc ;;
      copyLoop targetIdx jagged dims rowLength (frameIdx + 1) rest acc'
  end.

Section WithTypeInfoDecl.
Variable decl : TypeInfoDecl.

(** The first part of [getRawValues]: the target, the group-by check and the
    loop that finds the dimensions, the jaggedness and the type information. *)
Definition computeDims (fieldName groupByField : string)
    (frames : list DataFrame) : result DimState :=
  match frames with
  | [] => Throw (BadValue "No data was found.")
  | front :: _ =>
      let targets := getTargets front in
      let targetIdx := findTargetIdx targets fieldName in
      target <- vat targets targetIdx ;;
      let groupByTarget : option Target := None in
      _ <- checkGroupBy fieldName groupByField groupByTarget target ;;
      dimsList <- resizeEmpty 4 (to_size_t (vsize (path target) - 1)) 0 ;;
      dimsLoop targetIdx frames
        (mkDimState dimsList false (TypeInfo_default decl) [] [] target)
  end.

(** [getRawValues]: the data, the dimensions, the dimension paths and the
    type information of a field. *)
Definition getRawValues (fieldName groupByField : string)
    (frames : list DataFrame)
  : result (list double * list Z * list string * TypeInfo) :=
  st <- computeDims fieldName groupByField frames ;;
  let targetIdx :=
    match frames with
    | front :: _ => findTargetIdx (getTargets front) fieldName
    | [] => 0
    end in
  let allDims := liftZeroDims (ds_dimsList st) in
  let dims := ds_dimsList st in
  let rowLength := rowLengthOf dims in
  let totalRows := vsize frames in
  data <- resizeEmpty 8 (to_size_t (totalRows * to_size_t rowLength)) MissingValue ;;
  '(data, target) <- copyLoop targetIdx (ds_jagged st) dims rowLength 0 frames
                       (data, ds_target st) ;;
  dims <- vset dims 0 totalRows ;;
  dims <- slice dims (exportDimIdxs target) ;;
  Ok (data, dims, ds_dimPaths st, ds_info st).

(** The element types of the result objects. *)
Inductive ElementType : Type :=
| TInt32 | TInt64 | TUInt32 | TUInt64 | TFloat | TDouble | TString.

(** A result object, as the values handed to its setters (DataObject.h is
    not among the sources). *)
Record DataObjectBase : Type := mkDataObject {
  elementType : ElementType;
  objData : list double;
  objMissing : double;
  objDims : list Z;
  objFieldName : string;
  objGroupByFieldName : string;
  objDimPaths : list string }.

Definition objectByTypeInfo (info : TypeInfo) : ElementType :=
  if isString decl info then TString
  else if isInteger decl info then
    if isSigned decl info then
      if is64Bit decl info then TInt64 else TInt32
    else
      if is64Bit decl info then TUInt64 else TUInt32
  else
    if is64Bit decl info then TDouble else TFloat.

Definition unknownTypeMsg (overrideType : string) : string :=
  ("Unknown or unsupported type " ++ overrideType ++ ".")%string.

Definition objectByType (overrideType : string) : result ElementType :=
  if String.eqb overrideType "int" || String.eqb overrideType "int32" then Ok TInt32
  else if String.eqb overrideType "float" then Ok TFloat
  else if String.eqb overrideType "double" then Ok TDouble
  else if String.eqb overrideType "string" then Ok TString
  else if String.eqb overrideType "int64" then Ok TInt64
  else Throw (BadParameter (unknownTypeMsg overrideType)).

Definition dquote : string := String "034"%char EmptyString.

Definition conversionMsg (fieldName : string) : string :=
  ("Conversions between numbers and strings are not currently supported. "
     ++ "See the export definition for " ++ dquote ++ fieldName ++ dquote ++ ".")%string.

Definition makeDataObject (fieldName groupByFieldName : string)
    (info : TypeInfo) (overrideType : string) (data : list double)
    (dims : list Z) (dimPaths : list string) : result DataObjectBase :=
  object <- (if String.eqb overrideType "" then Ok (objectByTypeInfo info)
             else
               object <- objectByType overrideType ;;
               if (String.eqb overrideType "string" && negb (isString decl info)) ||
                  (negb (String.eqb overrideType "string") && isString decl info)
               then Throw (BadParameter (conversionMsg fieldName))
               else Ok object) ;;
  Ok (mkDataObject object data MissingValue dims fieldName groupByFieldName dimPaths).

Definition get (frames : list DataFrame)
    (fieldName groupByFieldName overrideType : string) : result DataObjectBase :=
  '(data, dims, dimPaths, info) <- getRawValues fieldName groupByFieldName frames ;;
  makeDataObject fieldName groupByFieldName info overrideType data dims dimPaths.

End WithTypeInfoDecl.

End ResultSet.

(** * Notions of the properties *)

(** A path component as the round trip needs it: not empty and without the
    separator. *)
Definition isComponent (c : string) : Prop :=
  c <> "" /\ find c "/"%char 0 = None.

(** The errors of the standard library and undefined behaviour, as opposed to
    the two exceptions the code raises with a message. *)
Definition stdError (e : exn) : Prop :=
  match e with
  | BadValue _ | BadParameter _ => False
  | _ => True
  end.

Definition throwsStd {A : Type} (r : result A) : Prop :=
  forall e, r = Throw e -> stdError e.

(** The error of the group-by check. *)
Definition IncompatibleGroupBy (e : exn) : Prop :=
  exists groupByField fieldName groupByPath targetPath,
    e = BadValue (ResultSet.groupByMsg groupByField fieldName groupByPath targetPath).

(** The override types [objectByType] knows. *)
Definition knownTypes : list string :=
  ["int"; "int32"; "int64"; "float"; "double"; "string"].

(** The error of the check between numbers and strings. *)
Definition IncompatibleOverride (fieldName : string) : exn :=
  BadParameter (ResultSet.conversionMsg fieldName).

(** Whether a query applies to the subset of the provider. *)
Definition appliesTo (query : Query) (dp : DataProvider) : Prop :=
  qc_isAnySubset (q_subset query) = true \/
  qc_name (q_subset query) = getSubset dp.

(** The index of the field among the targets of the first frame. *)
Definition fieldIdx (fieldName : string) (frames : list ResultSet.DataFrame) : Z :=
  match frames with
  | front :: _ => ResultSet.findTargetIdx (ResultSet.getTargets front) fieldName
  | [] => 0
  end.

(** The target of a frame at the index of the field. *)
Definition frameTarget (targetIdx : Z) (frame : ResultSet.DataFrame) : option Target :=
  nth_error (ResultSet.getTargets frame) (Z.to_nat targetIdx).

(** The counts vectors of a frame that the loop over the path examines: those
    of the components before the first one that has no counts. *)
Fixpoint examinedCounts (frame : ResultSet.DataFrame) (ps : TargetComponents)
  : list (list Z) :=
  match ps with
  | [] => []
  | p :: ps' =>
      match ResultSet.counts (ResultSet.frameAt frame (ResultSet.nodeId p)) with
      | [] => []
      | c => c :: examinedCounts frame ps'
      end
  end.

Definition examined (targetIdx : Z) (frame : ResultSet.DataFrame) : list (list Z) :=
  match frameTarget targetIdx frame with
  | Some t => examinedCounts frame (removelast (path t))
  | None => []
  end.

(** The running maximum of dimension [k] over the frames, from [d0]. *)
Definition runningMaxFrom (targetIdx : Z) (d0 : Z)
    (frames : list ResultSet.DataFrame) (k : nat) : Z :=
  fold_left (fun d f => match nth_error (examined targetIdx f) k with
                        | Some c => Z.max d (ResultSet.max c)
                        | None => d
                        end) frames d0.

Definition runningMax (targetIdx : Z) (frames : list ResultSet.DataFrame) (k : nat) : Z :=
  runningMaxFrom targetIdx 0 frames k.

(** The type information of the targets of the frames, in frame order. *)
Definition frameInfos (targetIdx : Z) (frames : list ResultSet.DataFrame)
  : list TypeInfo :=
  flat_map (fun f => match frameTarget targetIdx f with
                     | Some t => [typeInfo t]
                     | None => []
                     end) frames.

(** What one examined counts vector does to the jaggedness, the running
    maximum being [d]. *)
Definition raisesJagged (d : Z) (c : list Z) : bool :=
  negb (ResultSet.allEqual c) ||
  (negb (d =? 0) && negb (d =? Z.max d (ResultSet.max c))).

(** The loop over the path, on the examined counts and the dimensions side by
    side. *)
Fixpoint lockstep (ex : list (list Z)) (dl : list Z) (j : bool)
  : option (list Z * bool) :=
  match ex with
  | [] => Some (dl, j)
  | c :: ex' =>
      match dl with
      | [] => None
      | d :: dl' =>
          match lockstep ex' dl' (j || raisesJagged d c) with
          | Some (r, j') => Some (Z.max d (ResultSet.max c) :: r, j')
          | None => None
          end
      end
  end.

(** The first string of a list that is not empty, or the empty string. *)
Fixpoint firstNonEmpty (units : list string) : string :=
  match units with
  | [] => ""
  | u :: rest => if String.eqb u "" then firstNonEmpty rest else u
  end.

(** Whether a node is a replication that makes a dimension of its own, as
    [getDimInfo] tests it. *)
Definition isDimTyp (t : Typ) : bool :=
  Typ_eqb t DelayedRep || Typ_eqb t FixedRep || Typ_eqb t DelayedRepStacked.

(** Whether the component at position [i] stands for a dimension. *)
Definition isDimComponent (dp : DataProvider) (components : TargetComponents)
    (i : Z) : bool :=
  match vget components i with
  | Ok c => isDimTyp (getTyp dp (branch c))
  | Throw _ => false
  end.

(** The positions [lo + 1 .. lo + n]. *)
Definition positionsFrom (lo : Z) (n : nat) : list Z :=
  map (fun k => lo + 1 + Z.of_nat k) (seq 0 n).

(** One string continues another. *)
Definition continues (a b : string) : Prop :=
  exists rest, b = (a ++ rest)%string.

(** What the node loop of [findTarget] keeps true, the nodes below [bound]
    having been visited: the components still carry the query and their
    types, the endpoints found are nodes of the subset, in growing order,
    that carry the name of the last component of the query and are no
    sequences, and the dimension information is that of [getDimInfo]. *)
Definition scanInv (dp : DataProvider) (query : Query) (bound : Z)
    (st : QueryRunner.ScanState) : Prop :=
  map queryComponent (QueryRunner.sc_targetComponents st) =
    q_subset query :: q_path query /\
  map type (QueryRunner.sc_targetComponents st) =
    map type (QueryRunner.initialComponents query) /\
  Forall (fun n =>
            getInode dp <= n < bound /\
            (exists last, vback (q_path query) = Ok last /\
                          getTag dp n = qc_name last) /\
            QueryRunner.isSeqTyp (getTyp dp n) = false)
         (QueryRunner.sc_targetNodes st) /\
  StronglySorted Z.lt (QueryRunner.sc_targetNodes st) /\
  List.length (QueryRunner.sc_dimPaths st) = List.length (QueryRunner.sc_dimIdxs st) /\
  (QueryRunner.sc_targetNodes st <> [] ->
   hd_error (QueryRunner.sc_dimPaths st) = Some "*" /\
   hd_error (QueryRunner.sc_dimIdxs st) = Some 0 /\
   StronglySorted Z.lt (QueryRunner.sc_dimIdxs st)).

(** The bit of a mask at a node, [false] outside the mask. *)
Definition maskAt (mask : list bool) (n : Z) : bool :=
  match vget mask n with
  | Ok b => b
  | Throw _ => false
  end.

(** The values of the stream, in stream order, at those of the cursors [cs]
    that stand on node [j], if the value mask of the node is set. *)
Definition captured (dp : DataProvider) (masks : ProcessingMasks) (j : Z)
    (cs : list Z) : list double :=
  map (getVal dp)
      (filter (fun c => (getInv dp c =? j) &&
                        maskAt (valueNodeMask masks) (getInv dp c)) cs).

(** How many of the cursors [cs] stand on the replication node in front of
    node [j] and open it: its path mask is set and it is a query node. *)
Definition opened (dp : DataProvider) (masks : ProcessingMasks) (j : Z)
    (cs : list Z) : nat :=
  List.length
    (filter (fun c => (getInv dp c + 1 =? j) &&
                      (maskAt (pathNodeMask masks) (getInv dp c) &&
                       QueryRunner.isQueryNode dp (getInv dp c))) cs).

(** The cursors [1 .. nVal] of the value stream. *)
Definition cursors (dp : DataProvider) : list Z :=
  positionsFrom 0 (Z.to_nat (getNVal dp)).

(** A table [t'] that has the shape of [t] and holds, for every node, the
    values of [t] followed by [dv], and as many more counts as [dc] says. *)
Definition tableStep (t t' : OffsetArray NodeData)
    (dv : Z -> list double) (dc : Z -> nat) : Prop :=
  offset t' = offset t /\
  List.length (storage t') = List.length (storage t) /\
  forall j nd, oa_get t j = Ok nd ->
    exists nd', oa_get t' j = Ok nd' /\
                values nd' = values nd ++ dv j /\
                List.length (counts nd') = (List.length (counts nd) + dc j)%nat.

(** The dimensions the first loop of [getRawValues] ends with, for a path
    with [n] components before its last one. *)
Definition frameDims (targetIdx : Z) (frames : list ResultSet.DataFrame) (n : nat)
  : list Z :=
  map (runningMax targetIdx frames) (seq 0 n).

(** The target the loops over the frames hold in the end: that of the last
    frame, or [prev] without frames. *)
Definition lastTarget (targetIdx : Z) (frames : list ResultSet.DataFrame)
    (prev : Target) : Target :=
  fold_left (fun t f => match frameTarget targetIdx f with
                        | Some t' => t'
                        | None => t
                        end) frames prev.

(** The fragments the second loop of [getRawValues] copies, in frame order:
    each is read at the node of the target the loop holds when it comes to
    the frame, [prev] at the first frame and then the target of the frame
    before. *)
Fixpoint fragmentsFrom (targetIdx : Z) (frames : list ResultSet.DataFrame)
    (prev : Target) : list (list double) :=
  match frames with
  | [] => []
  | f :: rest =>
      ResultSet.data (ResultSet.frameAt f (nodeIdx prev)) ::
      match frameTarget targetIdx f with
      | Some t => fragmentsFrom targetIdx rest t
      | None => []
      end
  end.

(** A fragment followed by missing values up to the length of a row. *)
Definition paddedRow (rowLength : Z) (fragment : list double) : list double :=
  fragment ++ repeat MissingValue (Z.to_nat rowLength - List.length fragment).

(** The number of dimensions of a target: the components of its path but the
    last, as the [size_t] the source computes. *)
Definition dimCount (t : Target) : nat :=
  Z.to_nat (ResultSet.to_size_t (vsize (path t) - 1)).

(** Whether a pointer holds a resolved target. *)
Definition resolvedPtr (tp : option Target) : bool :=
  match tp with
  | Some t => 0 <? nodeIdx t
  | None => false
  end.

(** None of the sub-queries [qs] of a name resolves to a node. *)
Definition noneResolves (decl : TypeInfoDecl) (fuel : nat) (dp : DataProvider)
    (queryName : string) (qs : list Query) : Prop :=
  Forall (fun q => exists t,
            QueryRunner.findTarget decl fuel dp queryName q = Some (Ok t) /\
            nodeIdx t <= 0) qs.

(** What [old_findTargets] keeps for a name: the target of the first
    sub-query that resolves or, when none does, the target of the last
    sub-query; the null pointer when the name has no sub-query. *)
Definition chosenTarget (decl : TypeInfoDecl) (fuel : nat) (dp : DataProvider)
    (queryName : string) (subQueries : list Query) (tp : option Target) : Prop :=
  match tp with
  | None => subQueries = []
  | Some t =>
      exists pre q post,
        subQueries = pre ++ q :: post /\
        noneResolves decl fuel dp queryName pre /\
        QueryRunner.findTarget decl fuel dp queryName q = Some (Ok t) /\
        (0 < nodeIdx t \/ post = [])
  end.

(** The warnings for the names whose pointer holds no resolved target. *)
Fixpoint warningsFor (querySet : QueryRunner.QuerySet) (subset : string)
    (queryNames : list string) (targets : QueryRunner.TargetPtrs) : string :=
  match queryNames, targets with
  | queryName :: queryNames', tp :: targets' =>
      ((if resolvedPtr tp then ""
        else QueryRunner.warningMsg (QueryRunner.queriesFor querySet queryName) subset)
         ++ warningsFor querySet subset queryNames' targets')%string
  | _, _ => ""
  end.

(** A frame of a field with one replication: the path of its target is the
    subset, the replicated sequence and the leaf; the frame counts the subset
    once, and the sequence as often as the fragment has values. *)
Definition oneLevel (targetIdx : Z) (frame : ResultSet.DataFrame)
    (fragment : list double) : Prop :=
  exists t pSubset pSeq pLeaf,
    frameTarget targetIdx frame = Some t /\
    path t = [pSubset; pSeq; pLeaf] /\
    ResultSet.counts (ResultSet.frameAt frame (ResultSet.nodeId pSubset)) = [1] /\
    ResultSet.counts (ResultSet.frameAt frame (ResultSet.nodeId pSeq)) =
      [Z.of_nat (List.length fragment)].

(** A computation raises only errors that satisfy [P]. *)
Definition raisesOnly {A : Type} (P : exn -> Prop) (r : result A) : Prop :=
  forall e, r = Throw e -> P e.

(** An error that the making of the subset table or one of its lookups
    raised. *)
Definition raisedByTable (newSubsetTable : DataProvider -> result QueryRunner.SubsetTable)
    (dp : DataProvider) (e : exn) : Prop :=
  newSubsetTable dp = Throw e \/
  exists table path,
    newSubsetTable dp = Ok table /\
    QueryRunner.getNodeForPath table path = Throw e.

(** A subset table whose lookups answer, with a node or with the null
    pointer, and raise nothing. *)
Definition answers (table : QueryRunner.SubsetTable) : Prop :=
  forall path, exists n, QueryRunner.getNodeForPath table path = Ok n.

(** The values [rowLength] takes while it is multiplied up, from [acc], over
    the dimensions [v]. *)
Fixpoint runningProducts (acc : Z) (v : list Z) : list Z :=
  match v with
  | [] => []
  | d :: rest => acc * d :: runningProducts (acc * d) rest
  end.

(** The multiplication of [rowLength], an [int], over the dimensions behind
    the first does not overflow. *)
Definition rowLengthFits (dims : list Z) : Prop :=
  Forall (fun p => - 2 ^ 31 <= p < 2 ^ 31) (runningProducts 1 (tl dims)).

(** * Example data *)

(** A declaration of [TypeInfo] to run the examples with. *)
Definition exampleDecl : TypeInfoDecl :=
  mkTypeInfoDecl (mkTypeInfo 0 0 0 "")
    (fun info => String.eqb (unit info) "CCITT IA5")
    (fun info => scale info <=? 0)
    (fun info => reference info <? 0)
    (fun info => 32 <? bits info).

Definition anySubset : QueryComponent := mkQueryComponent "*" 0 true.

Definition exampleComponent (n : string) : QueryComponent :=
  mkQueryComponent n 0 false.

Definition kelvin (s : Z) : TypeInfo := mkTypeInfo s 0 12 "K".

(** The example subset: [NC] holds the delayed replication [{OBS}] of the
    sequence [OBS] with the leaf [TEMP], and then the leaf [LAT] twice.  The
    value stream has two occurrences of [OBS]. *)
Definition exampleProvider : DataProvider :=
  mkDataProvider "NC" 1 (fun _ => 6) 9
    (fun cursor => nth (Z.to_nat cursor) [0; 1; 2; 3; 4; 3; 4; 3; 5; 6] 0)
    (fun cursor => nth (Z.to_nat cursor)
                     [0#1; 0#1; 2#1; 0#1; 2731#10; 0#1; 2742#10; 0#1; 45#1; 46#1]
                     (0#1))
    (fun node => nth (Z.to_nat node)
                   [Subset; Subset; DelayedRep; Repeat; Number; Number; Number] Number)
    (fun node => nth (Z.to_nat node)
                   [""; "NC"; "{OBS}"; "OBS"; "TEMP"; "LAT"; "LAT"] "")
    (fun node => nth (Z.to_nat node) [0; 0; 1; 2; 3; 1; 1] 0)
    (fun node => nth (Z.to_nat node) [0; 0; 5; 0; 0; 0; 0] 0)
    (fun node => if node =? 4 then kelvin 1 else mkTypeInfo 2 (-9000) 15 "DEG").

Definition exampleMasks : ProcessingMasks :=
  mkProcessingMasks [false; false; false; false; true; false; false]
                    [false; false; true; false; false; false; false].

Definition tempQuery : Query :=
  mkQuery anySubset [exampleComponent "OBS"; exampleComponent "TEMP"] "*/OBS/TEMP".

Definition latQuery (index : Z) : Query :=
  mkQuery anySubset [mkQueryComponent "LAT" index false] "*/LAT".

(** The target of [*/OBS/TEMP] in the example subset, as [findTarget] makes
    it, with the given type information. *)
Definition tempTarget (info : TypeInfo) : Target :=
  mkTarget "temp" "*/OBS/TEMP" 4
    [mkTargetComponent anySubset 0 TCSubset;
     mkTargetComponent (exampleComponent "OBS") 2 TCRepeat;
     mkTargetComponent (exampleComponent "TEMP") 0 TCValue]
    [2] info ["*"; "*/OBS"] [0; 1].

Definition resolvedTemp : Target := tempTarget (kelvin 1).

Definition stationTarget : Target :=
  mkTarget "station" "*/STN/ID" 9
    [mkTargetComponent anySubset 0 TCSubset;
     mkTargetComponent (exampleComponent "STN") 7 TCRepeat;
     mkTargetComponent (exampleComponent "ID") 0 TCValue]
    [7] (mkTypeInfo 0 0 8 "") ["*"; "*/STN"] [0; 1].

(** The empty target of a query that no node of the subset answers. *)
Definition unresolvedTarget : Target :=
  QueryRunner.emptyTarget exampleDecl "nope"
    (mkQuery anySubset [exampleComponent "NOPE"] "*/NOPE").

(** A subset with the delayed binary [<CLD>] that gates the sequence [CLD]
    with the leaf [HGT]; in the value stream the delayed binary is zero. *)
Definition binaryProvider : DataProvider :=
  mkDataProvider "NC" 1 (fun _ => 5) 3
    (fun cursor => nth (Z.to_nat cursor) [0; 1; 2; 5] 0)
    (fun cursor => nth (Z.to_nat cursor) [0#1; 0#1; 0#1; 45#1] (0#1))
    (fun node => nth (Z.to_nat node)
                   [Subset; Subset; DelayedBinary; Sequence; Number; Number] Number)
    (fun node => nth (Z.to_nat node) [""; "NC"; "<CLD>"; "CLD"; "HGT"; "LAT"] "")
    (fun node => nth (Z.to_nat node) [0; 0; 1; 2; 3; 1] 0)
    (fun node => nth (Z.to_nat node) [0; 0; 5; 0; 0; 0] 0)
    (fun _ => mkTypeInfo 0 0 12 "M").

Definition binaryMasks : ProcessingMasks :=
  mkProcessingMasks [false; false; false; false; true; false]
                    [false; false; true; false; false; false].

Definition heightTarget : Target :=
  mkTarget "height" "*/CLD/HGT" 4
    [mkTargetComponent anySubset 0 TCSubset;
     mkTargetComponent (exampleComponent "CLD") 2 TCRepeat;
     mkTargetComponent (exampleComponent "HGT") 0 TCValue]
    [2] (mkTypeInfo 0 0 12 "M") ["*"] [0].

(** A frame of the result set in which the counts of [OBS] are [n] and the
    values of [TEMP] are [vals]; the subset component has the one count of
    the frame itself. *)
Definition obsFrame (info : TypeInfo) (n : list Z) (vals : list double)
  : ResultSet.DataFrame :=
  ResultSet.mkDataFrame [tempTarget info; stationTarget]
    (fun i => if i =? 0 then ResultSet.mkNodeEntry [1] []
              else if i =? 2 then ResultSet.mkNodeEntry n []
              else if i =? 4 then ResultSet.mkNodeEntry [] vals
              else ResultSet.mkNodeEntry [] []).

(** Three frames in which [OBS] occurred two, three and one times. *)
Definition jaggedFrames : list ResultSet.DataFrame :=
  [obsFrame (kelvin 1) [2] [1#1; 2#1];
   obsFrame (kelvin 1) [3] [3#1; 4#1; 5#1];
   obsFrame (kelvin 1) [1] [6#1]].

(** A frame whose target has two dimensions, the first without counts, the
    second with counts that are not uniform. *)
Definition gapTarget : Target :=
  mkTarget "gap" "*/A/B/X" 5
    [mkTargetComponent anySubset 0 TCSubset;
     mkTargetComponent (exampleComponent "A") 2 TCRepeat;
     mkTargetComponent (exampleComponent "B") 3 TCRepeat;
     mkTargetComponent (exampleComponent "X") 0 TCValue]
    [2; 3] (kelvin 1) ["*"; "*/A"; "*/A/B"] [0; 1; 2].

Definition gapFrame : ResultSet.DataFrame :=
  ResultSet.mkDataFrame [gapTarget]
    (fun i => if i =? 0 then ResultSet.mkNodeEntry [1] []
              else if i =? 3 then ResultSet.mkNodeEntry [1; 2] []
              else ResultSet.mkNodeEntry [] []).

(** The frame of a subset in which the field was not resolved: the empty
    target, whose path is empty. *)
Definition unresolvedFrame : ResultSet.DataFrame :=
  ResultSet.mkDataFrame [unresolvedTarget]
    (fun _ => ResultSet.mkNodeEntry [] []).

(** Two frames in which [OBS] occurred twice. *)
Definition denseFrames : list ResultSet.DataFrame :=
  [obsFrame (kelvin 1) [2] [1#1; 2#1];
   obsFrame (mkTypeInfo 2 (-5) 16 "K") [2] [3#1; 4#1]].

(** The query set of the names [temp] and [nope], the second of which no
    node of the example subset answers. *)
Definition nopeQuery : Query :=
  mkQuery anySubset [exampleComponent "NOPE"] "*/NOPE".

Definition exampleQuerySet : QueryRunner.QuerySet :=
  QueryRunner.mkQuerySet 2 ["temp"; "nope"]
    (fun n => if String.eqb n "temp" then [tempQuery] else [nopeQuery]).

Definition noCaches : QueryRunner.Caches := QueryRunner.mkCaches [] [].

(** The example subset with a value stream that ends after [n] values. *)
Definition streamOf (n : Z) : DataProvider :=
  mkDataProvider (getSubset exampleProvider) (getInode exampleProvider)
    (getIsc exampleProvider) n (getInv exampleProvider) (getVal exampleProvider)
    (getTyp exampleProvider) (getTag exampleProvider) (getJmpb exampleProvider)
    (getLink exampleProvider) (getTypeInfo exampleProvider).

(** The target [findTarget] makes of [nopeQuery] in the example subset. *)
Definition nopeTarget : Target :=
  mkTarget "nope" "*/NOPE" 0
    [mkTargetComponent anySubset 0 TCSubset;
     mkTargetComponent (exampleComponent "NOPE") 0 TCValue]
    [] (mkTypeInfo 0 0 0 "") ["*"] [0].

(** The masks of the example subset for the two names of the query set. *)
Definition queryMasks : ProcessingMasks :=
  mkProcessingMasks [false; false; false; false; true; false]
                    [false; false; true; false; false; false].

(** The caches after the targets and masks of the example subset were
    found. *)
Definition queryCaches : QueryRunner.Caches :=
  QueryRunner.mkCaches [("NC", [Some (tempTarget (kelvin 1)); Some nopeTarget])]
                       [("NC", queryMasks)].

(** The query set of the one name [lat], asked for without index. *)
Definition latQuerySet : QueryRunner.QuerySet :=
  QueryRunner.mkQuerySet 1 ["lat"] (fun _ => [latQuery 0]).

(** A subset table for the example subset, as the specification describes
    its lookup (SubsetTable.h is not among the sources): the walk over the
    nodes below the subset answers the path [LAT] with the first node of
    that name, and any other path with the null pointer.  With it, a typing
    of the components by the type of their node. *)
Definition firstLatTable : QueryRunner.SubsetTable :=
  QueryRunner.mkSubsetTable
    (fun path =>
       match path with
       | [c] =>
           if String.eqb (qc_name c) "LAT" then
             Ok (Some (QueryRunner.mkBufrNode 5 (getTypeInfo exampleProvider 5)
                         [QueryRunner.mkPathNode 1 Subset;
                          QueryRunner.mkPathNode 5 Number]
                         ["*"] [0]))
           else Ok None
       | _ => Ok None
       end).

Definition exampleTypeOf (t : Typ) : TargetComponentType :=
  match t with
  | Subset => TCSubset
  | Number | Character => TCValue
  | _ => TCRepeat
  end.

(** * Properties *)

(** ** Strings *)

Lemma string_app_assoc (a b c : string) :
  ((a ++ b) ++ c = a ++ (b ++ c))%string.
Proof. induction a as [|x a IH]; simpl; [reflexivity | now rewrite IH]. Qed.

Lemma string_app_length (a b : string) :
  String.length (a ++ b) = (String.length a + String.length b)%nat.
Proof. induction a as [|x a IH]; simpl; [reflexivity | now rewrite IH]. Qed.

Lemma find_bounds (s : string) (c : ascii) (start k : nat) :
  find s c start = Some k -> (start <= k < String.length s)%nat.
Proof.
  revert start k; induction s as [|a s IH]; intros start k H; simpl in H.
  - discriminate.
  - destruct start as [|start].
    + destruct (Ascii.eqb a c).
      * injection H as <-. simpl. lia.
      * destruct (find s c 0) as [j|] eqn:E; simpl in H; [|discriminate].
        injection H as <-. apply IH in E. simpl. lia.
    + destruct (find s c start) as [j|] eqn:E; simpl in H; [|discriminate].
      injection H as <-. apply IH in E. simpl. lia.
Qed.

(** Searching beyond a prefix searches the rest. *)
Lemma find_skip_prefix (pre s : string) (c : ascii) (k : nat) :
  find (pre ++ s) c (String.length pre + k) =
  option_map (Nat.add (String.length pre)) (find s c k).
Proof.
  induction pre as [|a pre IH]; simpl.
  - destruct (find s c k); reflexivity.
  - rewrite IH. destruct (find s c k); reflexivity.
Qed.

Lemma find_at_prefix_end (pre s : string) (c : ascii) :
  find (pre ++ s) c (String.length pre) =
  option_map (Nat.add (String.length pre)) (find s c 0).
Proof. rewrite <- find_skip_prefix, Nat.add_0_r. reflexivity. Qed.

(** A component without separator, followed by one: the separator is found
    right behind the component. *)
Lemma find_behind_component (comp rest : string) (c : ascii) :
  find comp c 0 = None ->
  find (comp ++ String c rest) c 0 = Some (String.length comp).
Proof.
  induction comp as [|a comp IH]; simpl; intros H.
  - now rewrite Ascii.eqb_refl.
  - destruct (Ascii.eqb a c); [discriminate|].
    destruct (find comp c 0) eqn:E; [discriminate|].
    now rewrite IH.
Qed.

Lemma substring_prefix (s rest : string) :
  substring 0 (String.length s) (s ++ rest) = s.
Proof.
  induction s as [|a s IH]; simpl.
  - destruct rest; reflexivity.
  - now rewrite IH.
Qed.

Lemma substring_skip_prefix (pre s : string) (n : nat) :
  substring (String.length pre) n (pre ++ s) = substring 0 n s.
Proof. induction pre as [|a pre IH]; simpl; [reflexivity | exact IH]. Qed.

Lemma substring_all (s : string) : substring 0 (String.length s) s = s.
Proof. induction s as [|a s IH]; simpl; [reflexivity | now rewrite IH]. Qed.

(** ** splitPath *)

Example splitPath_ex1 : splitPath "*/OBS/TEMP" = ["*"; "OBS"; "TEMP"].
Proof. reflexivity. Qed.

Example splitPath_ex2 : splitPath "//a//b/" = ["a"; "b"].
Proof. reflexivity. Qed.

(** The loop of [splitPath], unfolded once. *)
Lemma splitPath_loop_step (path : string) (start : nat) (comps : list string) :
  splitPath_loop path start comps =
  match find path "/"%char start with
  | Some e =>
      splitPath_loop path (e + 1)
        (if Nat.eqb e start then comps
         else comps ++ [substr path start (e - start)])
  | None =>
      if Nat.ltb start (String.length path)
      then comps ++ [substr_from path start]
      else comps
  end.
Proof.
  rewrite splitPath_loop_equation_1. unfold splitPath_loop_unfold_clause_1.
  generalize (inspect (find path "/"%char start)).
  intros [[e|] H]; simpl; rewrite H; reflexivity.
Qed.

(** The loop started behind a prefix of the path, on joined components. *)
Lemma splitPath_loop_join (comps : list string) :
  comps <> [] -> Forall isComponent comps ->
  forall (pre : string) (acc : list string),
    splitPath_loop (pre ++ join "/" comps) (String.length pre) acc = acc ++ comps.
Proof.
  induction comps as [|c rest IH]; intros Hne Hall pre acc; [congruence|].
  inversion Hall as [|? ? [Hc Hfind] Hrest]; subst.
  assert (Hlen : (0 < String.length c)%nat) by (destruct c; simpl; [congruence | lia]).
  rewrite splitPath_loop_step.
  destruct rest as [|c2 rest].
  - simpl join.
    rewrite find_at_prefix_end, Hfind. simpl option_map.
    rewrite string_app_length.
    replace (String.length pre <? String.length pre + String.length c)%nat with true
      by (symmetry; apply Nat.ltb_lt; lia).
    unfold substr_from. rewrite string_app_length.
    replace (String.length pre + String.length c - String.length pre)%nat
      with (String.length c) by lia.
    rewrite substring_skip_prefix, substring_all. reflexivity.
  - change (join "/" (c :: c2 :: rest))
      with (c ++ String "/"%char (join "/" (c2 :: rest)))%string.
    rewrite find_at_prefix_end, find_behind_component by assumption.
    simpl option_map.
    unfold substr.
    replace (String.length pre + String.length c - String.length pre)%nat
      with (String.length c) by lia.
    rewrite substring_skip_prefix, substring_prefix.
    assert (Hpath : (pre ++ c ++ String "/"%char (join "/" (c2 :: rest)) =
                     (pre ++ c ++ "/") ++ join "/" (c2 :: rest))%string).
    { rewrite !string_app_assoc. reflexivity. }
    assert (Hpos : (String.length pre + String.length c + 1 =
                    String.length (pre ++ c ++ "/"))%nat).
    { rewrite !string_app_length. simpl. lia. }
    rewrite Hpath, Hpos, IH by (assumption || congruence).
    destruct (Nat.eqb_spec (String.length pre + String.length c) (String.length pre));
      [lia|].
    rewrite <- app_assoc. reflexivity.
Qed.

(** C9, as amended: for every non-empty list of components that are not
    empty and hold no separator, [splitPath] of the components joined with
    the separator gives the components back. *)
Theorem splitPath_join (comps : list string) :
  comps <> [] -> Forall isComponent comps ->
  splitPath (join "/" comps) = comps.
Proof.
  intros Hne Hall. unfold splitPath.
  exact (splitPath_loop_join comps Hne Hall "" []).
Qed.

Lemma splitPath_join_witness :
  splitPath (join "/" ["*"; "OBS"; "TEMP"]) = ["*"; "OBS"; "TEMP"].
Proof.
  apply splitPath_join; [discriminate|].
  repeat constructor; discriminate.
Defined.

(** C9, as stated, fails on a non-empty component that holds the separator:
    the component comes back in two pieces. *)
Lemma splitPath_cuts_inside_component :
  "a/b" <> "" /\ splitPath (join "/" ["a/b"]) = ["a"; "b"] /\
  splitPath (join "/" ["a/b"]) <> ["a/b"].
Proof. repeat split; discriminate. Qed.

(** ** Which errors the vector operations raise *)

Create HintDb throws.

Lemma throwsStd_Ok {A : Type} (a : A) : throwsStd (Ok a).
Proof. intros e H; discriminate. Qed.

Lemma throwsStd_Throw {A : Type} (e : exn) :
  stdError e -> throwsStd (@Throw A e).
Proof. intros He e' [= <-]; exact He. Qed.

Lemma throwsStd_bind {A B : Type} (m : result A) (k : A -> result B) :
  throwsStd m -> (forall a, throwsStd (k a)) -> throwsStd (bind m k).
Proof.
  intros Hm Hk e H. destruct m as [a|e']; simpl in H.
  - exact (Hk a e H).
  - apply Hm. congruence.
Qed.

(** One step of the analysis of a computation in [result]. *)
Ltac throws_step :=
  match goal with
  | |- throwsStd (Ok _) => apply throwsStd_Ok
  | |- throwsStd (Throw _) => apply throwsStd_Throw; exact I
  | |- throwsStd (bind _ _) => apply throwsStd_bind; [|intros]
  | |- throwsStd (let '(_, _) := ?p in _) => destruct p
  | |- throwsStd (if ?b then _ else _) => destruct b
  | |- throwsStd (match ?x with _ => _ end) => destruct x
  | |- throwsStd _ => solve [auto with throws]
  end.

Ltac throws := repeat throws_step.

Lemma throwsStd_vget {A : Type} (v : list A) (i : Z) : throwsStd (vget v i).
Proof. unfold vget. throws. Qed.

Lemma throwsStd_vset {A : Type} (v : list A) (i : Z) (a : A) :
  throwsStd (vset v i a).
Proof. unfold vset. throws. Qed.

Lemma throwsStd_vat {A : Type} (v : list A) (i : Z) : throwsStd (vat v i).
Proof. unfold vat. throws. Qed.

Lemma throwsStd_vback {A : Type} (v : list A) : throwsStd (vback v).
Proof. unfold vback. throws. Qed.

Lemma throwsStd_vpop {A : Type} (v : list A) : throwsStd (vpop v).
Proof. unfold vpop. throws. Qed.

#[export] Hint Resolve throwsStd_vget throwsStd_vset throwsStd_vat
  throwsStd_vback throwsStd_vpop : throws.

Lemma throwsStd_resizeEmpty {A : Type} (elemSize n : Z) (x : A) :
  throwsStd (ResultSet.resizeEmpty elemSize n x).
Proof. unfold ResultSet.resizeEmpty. throws. Qed.

Lemma throwsStd_slice (v idxs : list Z) : throwsStd (ResultSet.slice v idxs).
Proof. induction idxs as [|i idxs IH]; simpl; throws. Qed.

Lemma throwsStd_pathLoop frame ps pathIdx dimsList jagged :
  throwsStd (ResultSet.pathLoop frame ps pathIdx dimsList jagged).
Proof.
  revert pathIdx dimsList jagged.
  induction ps as [|p ps IH]; intros; simpl; throws.
Qed.

#[export] Hint Resolve throwsStd_resizeEmpty throwsStd_slice
  throwsStd_pathLoop : throws.

Lemma throwsStd_dimsFrame targetIdx frame st :
  throwsStd (ResultSet.dimsFrame targetIdx frame st).
Proof. unfold ResultSet.dimsFrame. throws. Qed.

#[export] Hint Resolve throwsStd_dimsFrame : throws.

Lemma throwsStd_dimsLoop targetIdx frames st :
  throwsStd (ResultSet.dimsLoop targetIdx frames st).
Proof. revert st; induction frames as [|f frames IH]; intros; simpl; throws. Qed.

Lemma throwsStd_computeInserts frame dims tpath n repIdx inserts :
  throwsStd (ResultSet.computeInserts frame dims tpath n repIdx inserts).
Proof. revert repIdx inserts; induction n as [|n IH]; intros; simpl; throws. Qed.

Lemma throwsStd_inflate dims inserts n idxs :
  throwsStd (ResultSet.inflate dims inserts n idxs).
Proof. revert idxs; induction n as [|n IH]; intros; simpl; throws. Qed.

Lemma throwsStd_scatter idxs fragment base data :
  throwsStd (ResultSet.scatter idxs fragment base data).
Proof.
  revert fragment data; induction idxs as [|i idxs IH]; intros; simpl; throws.
Qed.

Lemma throwsStd_copyTo fragment pos data :
  throwsStd (ResultSet.copyTo fragment pos data).
Proof. revert pos data; induction fragment as [|x fragment IH]; intros; simpl; throws. Qed.

#[export] Hint Resolve throwsStd_dimsLoop throwsStd_computeInserts
  throwsStd_inflate throwsStd_scatter throwsStd_copyTo : throws.

Lemma throwsStd_copyFrame targetIdx jagged dims rowLength frameIdx frame acc :
  throwsStd (ResultSet.copyFrame targetIdx jagged dims rowLength frameIdx frame acc).
Proof. unfold ResultSet.copyFrame. throws. Qed.

#[export] Hint Resolve throwsStd_copyFrame : throws.

Lemma throwsStd_copyLoop targetIdx jagged dims rowLength frameIdx frames acc :
  throwsStd (ResultSet.copyLoop targetIdx jagged dims rowLength frameIdx frames acc).
Proof.
  revert frameIdx acc; induction frames as [|f frames IH]; intros; simpl; throws.
Qed.

#[export] Hint Resolve throwsStd_copyLoop : throws.

(** Reduces a goal about the error of a computation to [throwsStd]. *)
Ltac by_throwsStd :=
  match goal with
  | H : ?r = Throw ?e |- stdError ?e =>
      apply (fun T : throwsStd r => T e H); clear H
  end.

(** [getRawValues] raises one exception of its own, for an empty result set;
    everything else comes from the vectors. *)
Lemma computeDims_throws decl fieldName groupByField frames e :
  ResultSet.computeDims decl fieldName groupByField frames = Throw e ->
  e = BadValue "No data was found." \/ stdError e.
Proof.
  unfold ResultSet.computeDims, ResultSet.checkGroupBy.
  destruct frames as [|front rest].
  - intros [= <-]. now left.
  - intros H. right. by_throwsStd. throws.
Qed.

Lemma getRawValues_throws decl fieldName groupByField frames e :
  ResultSet.getRawValues decl fieldName groupByField frames = Throw e ->
  e = BadValue "No data was found." \/ stdError e.
Proof.
  unfold ResultSet.getRawValues.
  destruct (ResultSet.computeDims decl fieldName groupByField frames)
    as [st|e'] eqn:E; cbn [bind].
  - intros H. right. by_throwsStd. throws.
  - intros [= <-]. eapply computeDims_throws; eassumption.
Qed.

(** ** The assembly on the example frames *)

(** Three frames of two, three and one occurrences come out padded with the
    missing value. *)
Example getRawValues_jagged :
  ResultSet.getRawValues exampleDecl "temp" "" jaggedFrames =
  Ok ([1#1; 2#1; MissingValue; 3#1; 4#1; 5#1; 6#1; MissingValue; MissingValue],
      [3; 3], ["*"; "*/OBS"], kelvin 1).
Proof. reflexivity. Qed.

(** ** The group-by check *)

Lemma stdError_not_IncompatibleGroupBy (e : exn) :
  e = BadValue "No data was found." \/ stdError e -> ~ IncompatibleGroupBy e.
Proof.
  intros [-> | He] (g & f & gp & tp & H).
  - unfold ResultSet.groupByMsg in H. simpl in H. discriminate.
  - subst e. exact He.
Qed.

(** C4, as amended: the group-by field is never looked up, so the check of
    the common path never runs: the raw values do not depend on the group-by
    field, and no call of [get] fails with the error of that check. *)
Theorem get_never_checks_groupBy decl frames fieldName groupByField overrideType :
  ResultSet.getRawValues decl fieldName groupByField frames =
    ResultSet.getRawValues decl fieldName "" frames /\
  forall e, ResultSet.get decl frames fieldName groupByField overrideType = Throw e ->
            ~ IncompatibleGroupBy e.
Proof.
  split; [reflexivity|].
  intros e H. unfold ResultSet.get in H.
  destruct (ResultSet.getRawValues decl fieldName groupByField frames)
    as [[[[data dims] dimPaths] info]|e'] eqn:E; cbn [bind] in H.
  - unfold ResultSet.makeDataObject in H.
    intros (g & f & gp & tp & ->).
    destruct (String.eqb overrideType ""); cbn [bind] in H; [discriminate|].
    destruct (ResultSet.objectByType overrideType) as [o|e'] eqn:Eo; cbn [bind] in H.
    + destruct (_ || _) in H; cbn [bind] in H; discriminate.
    + unfold ResultSet.objectByType in Eo.
      repeat match type of Eo with
             | (if ?b then _ else _) = _ => destruct b
             end; try discriminate.
      congruence.
  - injection H as <-. apply stdError_not_IncompatibleGroupBy.
    eapply getRawValues_throws; eassumption.
Qed.

Lemma get_never_checks_groupBy_witness :
  ResultSet.get exampleDecl [] "temp" "station" "" =
    Throw (BadValue "No data was found.") /\
  ~ IncompatibleGroupBy (BadValue "No data was found.").
Proof.
  split; [reflexivity|].
  destruct (get_never_checks_groupBy exampleDecl [] "temp" "station" "") as [_ H].
  apply H. reflexivity.
Defined.

(** C4, as stated, fails: the dimension path of [station] is no prefix of
    that of [temp] (the check itself would reject the pair), yet the call
    grouped by [station] returns its object. *)
Lemma get_incompatible_groupBy_succeeds :
  ResultSet.checkGroupBy "temp" "station" (Some stationTarget)
    (tempTarget (kelvin 1)) =
    Throw (BadValue (ResultSet.groupByMsg "station" "temp" "*/STN" "*/OBS")) /\
  ResultSet.get exampleDecl [obsFrame (kelvin 1) [2] [1#1; 2#1]] "temp" "station" "" =
    Ok (ResultSet.mkDataObject ResultSet.TFloat [1#1; 2#1] MissingValue [1; 2]
          "temp" "station" ["*"; "*/OBS"]).
Proof. split; reflexivity. Qed.

(** ** The element type of the result object *)

Lemma objectByType_unknown (overrideType : string) :
  ~ In overrideType knownTypes ->
  ResultSet.objectByType overrideType =
    Throw (BadParameter (ResultSet.unknownTypeMsg overrideType)).
Proof.
  intros Hnot. unfold ResultSet.objectByType.
  repeat match goal with
         | |- context [String.eqb overrideType ?s] =>
             destruct (String.eqb_spec overrideType s) as [->|_];
             [exfalso; apply Hnot; simpl; tauto|]
         end.
  reflexivity.
Qed.

(** C10: with an override type that is not empty and not one of the known
    ones, [get] fails, with the error of the unknown type once the raw values
    are there, whatever the type information says; with the empty override
    type the object is made from the type information alone; in neither case
    is the error of the check between numbers and strings raised. *)
Theorem get_overrideType decl frames fieldName groupByField overrideType :
  (overrideType <> "" -> ~ In overrideType knownTypes ->
   ResultSet.get decl frames fieldName groupByField overrideType =
     (_ <- ResultSet.getRawValues decl fieldName groupByField frames ;;
      Throw (BadParameter (ResultSet.unknownTypeMsg overrideType))) /\
   ResultSet.get decl frames fieldName groupByField overrideType <>
     Throw (IncompatibleOverride fieldName)) /\
  ResultSet.get decl frames fieldName groupByField "" =
    ('(data, dims, dimPaths, info) <-
       ResultSet.getRawValues decl fieldName groupByField frames ;;
     Ok (ResultSet.mkDataObject (ResultSet.objectByTypeInfo decl info) data
           MissingValue dims fieldName groupByField dimPaths)) /\
  ResultSet.get decl frames fieldName groupByField "" <>
    Throw (IncompatibleOverride fieldName).
Proof.
  assert (Hraw : forall e,
             ResultSet.getRawValues decl fieldName groupByField frames = Throw e ->
             e <> IncompatibleOverride fieldName).
  { intros e He ->. apply getRawValues_throws in He as [He|He];
      [discriminate | exact He]. }
  unfold ResultSet.get.
  destruct (ResultSet.getRawValues decl fieldName groupByField frames)
    as [[[[data dims] dimPaths] info]|e] eqn:E; cbn [bind].
  - repeat split; try discriminate.
    + unfold ResultSet.makeDataObject.
      destruct (String.eqb_spec overrideType "") as [->|_]; [congruence|].
      rewrite objectByType_unknown by assumption. reflexivity.
    + unfold ResultSet.makeDataObject.
      destruct (String.eqb_spec overrideType "") as [->|_]; [congruence|].
      rewrite objectByType_unknown by assumption. cbn [bind].
      unfold IncompatibleOverride, ResultSet.unknownTypeMsg, ResultSet.conversionMsg.
      simpl. discriminate.
  - repeat split; try reflexivity; intros; intros [= ->]; now apply (Hraw _ eq_refl).
Qed.

Lemma get_overrideType_witness :
  ResultSet.get exampleDecl [obsFrame (kelvin 1) [2] [1#1; 2#1]] "temp" "" "complex" =
    Throw (BadParameter "Unknown or unsupported type complex.") /\
  ResultSet.get exampleDecl [obsFrame (kelvin 1) [2] [1#1; 2#1]] "temp" "" "" =
    Ok (ResultSet.mkDataObject ResultSet.TFloat [1#1; 2#1] MissingValue [1; 2]
          "temp" "" ["*"; "*/OBS"]).
Proof.
  destruct (get_overrideType exampleDecl [obsFrame (kelvin 1) [2] [1#1; 2#1]]
              "temp" "" "complex") as (Hunknown & Hempty & _).
  split.
  - destruct Hunknown as [-> _].
    + discriminate.
    + simpl. intuition discriminate.
    + reflexivity.
  - rewrite Hempty. reflexivity.
Defined.

(** ** Target resolution *)

Example findTarget_temp :
  QueryRunner.findTarget exampleDecl 10 exampleProvider "temp" tempQuery =
  Some (Ok (tempTarget (kelvin 1))).
Proof. reflexivity. Qed.

Example findTarget_lat2 :
  option_map (fun r => match r with Ok t => Ok (nodeIdx t) | Throw e => Throw e end)
    (QueryRunner.findTarget exampleDecl 10 exampleProvider "lat" (latQuery 2)) =
  Some (Ok 6).
Proof. reflexivity. Qed.

(** More fuel does not change a result of the loop that follows the
    jump-back links, nor of what is built on it. *)
Lemma jumpBackLoop_more_fuel (fuel fuel' : nat) dp jumpBackNode r :
  (fuel <= fuel')%nat ->
  QueryRunner.jumpBackLoop fuel dp jumpBackNode = Some r ->
  QueryRunner.jumpBackLoop fuel' dp jumpBackNode = Some r.
Proof.
  revert fuel' jumpBackNode; induction fuel as [|fuel IH];
    intros fuel' jumpBackNode Hle H; [discriminate|].
  destruct fuel' as [|fuel']; [lia|]. simpl in *.
  destruct (_ && _); [|assumption].
  destruct (negb _); [|assumption].
  apply IH; [lia | assumption].
Qed.

Lemma scanNode_more_fuel (fuel fuel' : nat) dp query nodeIdx st r :
  (fuel <= fuel')%nat ->
  QueryRunner.scanNode fuel dp query nodeIdx st = Some r ->
  QueryRunner.scanNode fuel' dp query nodeIdx st = Some r.
Proof.
  intros Hle. unfold QueryRunner.scanNode.
  destruct (QueryRunner.scanMatch dp query nodeIdx st) as [st1|e]; [|trivial].
  unfold QueryRunner.scanStepBack, QueryRunner.jumpBack.
  destruct (1 <? _); [|trivial].
  destruct (nodeIdx <? _); [|trivial].
  destruct (QueryRunner.jumpBackLoop fuel dp _) as [jb|] eqn:E; [|discriminate].
  rewrite (jumpBackLoop_more_fuel _ _ _ _ _ Hle E). trivial.
Qed.

Lemma scanLoop_more_fuel (fuel fuel' : nat) dp query n :
  (fuel <= fuel')%nat ->
  forall nodeIdx st r,
    QueryRunner.scanLoop fuel dp query n nodeIdx st = Some r ->
    QueryRunner.scanLoop fuel' dp query n nodeIdx st = Some r.
Proof.
  intros Hle. induction n as [|n IH]; intros nodeIdx st r; simpl; [trivial|].
  destruct (QueryRunner.scanNode fuel dp query nodeIdx st) as [r1|] eqn:E;
    [|discriminate].
  rewrite (scanNode_more_fuel _ _ _ _ _ _ _ Hle E).
  destruct r1 as [st1|e]; [apply IH | trivial].
Qed.

Lemma findTarget_more_fuel decl (fuel fuel' : nat) dp targetName query r :
  (fuel <= fuel')%nat ->
  QueryRunner.findTarget decl fuel dp targetName query = Some r ->
  QueryRunner.findTarget decl fuel' dp targetName query = Some r.
Proof.
  intros Hle. unfold QueryRunner.findTarget, QueryRunner.scan.
  destruct (negb _); [trivial|].
  destruct (QueryRunner.scanLoop fuel dp query _ _ _) as [r1|] eqn:E; [|discriminate].
  rewrite (scanLoop_more_fuel _ _ _ _ _ Hle _ _ _ E). trivial.
Qed.

Lemma findTarget_applies decl fuel dp targetName query :
  appliesTo query dp ->
  QueryRunner.findTarget decl fuel dp targetName query =
  match QueryRunner.scan fuel dp query with
  | Some (Ok st) => Some (QueryRunner.finishTarget decl dp targetName query st)
  | Some (Throw e) => Some (Throw e)
  | None => None
  end.
Proof.
  intros [H|H]; unfold QueryRunner.findTarget; rewrite H.
  - reflexivity.
  - rewrite String.eqb_refl, orb_true_r. reflexivity.
Qed.

(** The resolver of [old_findTargets]: when the node loop ends with more
    than one endpoint and the last component of the query has no index,
    [findTarget] fails with the error that names the query string. *)
Lemma findTarget_many_endpoints decl fuel dp targetName query st last :
  appliesTo query dp ->
  QueryRunner.scan fuel dp query = Some (Ok st) ->
  vback (q_path query) = Ok last ->
  qc_index last = 0 ->
  1 < vsize (QueryRunner.sc_targetNodes st) ->
  QueryRunner.findTarget decl fuel dp targetName query =
    Some (Throw (BadParameter
      ("Query string must return 1 target. Are you missing an index? "
         ++ q_queryStr query ++ "."))).
Proof.
  intros Happ Hscan Hlast Hidx Hmany.
  rewrite findTarget_applies, Hscan by assumption.
  unfold QueryRunner.finishTarget. rewrite Hlast. cbn [bind].
  unfold QueryRunner.narrowTargets. rewrite Hidx. cbn [Z.ltb Z.compare andb bind].
  unfold QueryRunner.buildTarget.
  apply Z.ltb_lt in Hmany. rewrite Hmany. reflexivity.
Qed.

Example findTarget_two_lat :
  QueryRunner.scan 10 exampleProvider (latQuery 0) =
    Some (Ok (QueryRunner.mkScanState [5; 6] [1] ["*"] [0]
                (QueryRunner.initialComponents (latQuery 0)) (-1) (-1))).
Proof. reflexivity. Qed.

Lemma narrowTargets_beyond (index : Z) (targetNodes : list Z) :
  vsize targetNodes < index ->
  QueryRunner.narrowTargets index targetNodes = Ok targetNodes.
Proof.
  intros H. unfold QueryRunner.narrowTargets.
  replace (index <=? vsize targetNodes) with false by (symmetry; apply Z.leb_gt; lia).
  rewrite andb_false_r. reflexivity.
Qed.

Lemma narrowTargets_none (index : Z) (targetNodes : list Z) :
  index <= 0 ->
  QueryRunner.narrowTargets index targetNodes = Ok targetNodes.
Proof.
  intros H. unfold QueryRunner.narrowTargets.
  replace (0 <? index) with false by (symmetry; apply Z.ltb_ge; lia).
  reflexivity.
Qed.

Lemma narrowTargets_within (index : Z) (targetNodes : list Z) :
  0 < index <= vsize targetNodes ->
  exists n, nth_error targetNodes (Z.to_nat (index - 1)) = Some n /\
            QueryRunner.narrowTargets index targetNodes = Ok [n].
Proof.
  intros [Hlo Hhi]. unfold QueryRunner.narrowTargets, vget, vsize in *.
  replace (0 <? index) with true by (symmetry; apply Z.ltb_lt; lia).
  replace (index <=? Z.of_nat (List.length targetNodes)) with true
    by (symmetry; apply Z.leb_le; lia).
  replace (index - 1 <? 0) with false by (symmetry; apply Z.ltb_ge; lia).
  cbn [andb].
  destruct (nth_error targetNodes (Z.to_nat (index - 1))) as [n|] eqn:E.
  - exists n. split; reflexivity.
  - apply nth_error_None in E. lia.
Qed.

(** C8: an index beyond the number of endpoints found leaves all of them in
    place, and [findTarget] goes on with the full set as it does without an
    index: no error about the index is raised; the endpoints are narrowed to
    the one at the index exactly when the index is positive and at most their
    number. *)
Theorem findTarget_index_beyond decl fuel dp targetName query st last :
  appliesTo query dp ->
  QueryRunner.scan fuel dp query = Some (Ok st) ->
  vback (q_path query) = Ok last ->
  let targetNodes := QueryRunner.sc_targetNodes st in
  let index := qc_index last in
  (vsize targetNodes < index ->
   QueryRunner.narrowTargets index targetNodes = Ok targetNodes /\
   QueryRunner.findTarget decl fuel dp targetName query =
     Some (QueryRunner.buildTarget decl dp targetName query st targetNodes)) /\
  (index <= 0 ->
   QueryRunner.narrowTargets index targetNodes = Ok targetNodes) /\
  (0 < index <= vsize targetNodes ->
   exists n, nth_error targetNodes (Z.to_nat (index - 1)) = Some n /\
             QueryRunner.narrowTargets index targetNodes = Ok [n] /\
             QueryRunner.findTarget decl fuel dp targetName query =
               Some (QueryRunner.buildTarget decl dp targetName query st [n])).
Proof.
  intros Happ Hscan Hlast targetNodes index.
  assert (Hfind : QueryRunner.findTarget decl fuel dp targetName query =
                  Some (nodes <- QueryRunner.narrowTargets index targetNodes ;;
                        QueryRunner.buildTarget decl dp targetName query st nodes)).
  { rewrite findTarget_applies, Hscan by assumption.
    unfold QueryRunner.finishTarget. rewrite Hlast. reflexivity. }
  repeat split.
  - now apply narrowTargets_beyond.
  - rewrite Hfind, narrowTargets_beyond by assumption. reflexivity.
  - now apply narrowTargets_none.
  - intros Hin. destruct (narrowTargets_within index targetNodes Hin) as (n & Hn & Hnarrow).
    exists n. repeat split; try assumption.
    rewrite Hfind, Hnarrow. reflexivity.
Qed.

Lemma findTarget_index_beyond_witness :
  QueryRunner.narrowTargets 3 [5; 6] = Ok [5; 6] /\
  QueryRunner.findTarget exampleDecl 10 exampleProvider "lat" (latQuery 3) =
    Some (Throw (BadParameter
      "Query string must return 1 target. Are you missing an index? */LAT.")) /\
  QueryRunner.narrowTargets 2 [5; 6] = Ok [6].
Proof.
  pose proof (findTarget_index_beyond exampleDecl 10 exampleProvider "lat" (latQuery 3)
                (QueryRunner.mkScanState [5; 6] [1] ["*"] [0]
                   (QueryRunner.initialComponents (latQuery 3)) (-1) (-1))
                (mkQueryComponent "LAT" 3 false)
                (or_introl eq_refl) eq_refl eq_refl) as (Hbeyond & _ & _).
  destruct Hbeyond as [Hn Hf]; [reflexivity|].
  split; [exact Hn | split; [rewrite Hf; reflexivity | reflexivity]].
Defined.

(** ** Vectors and the table of the collector *)

Lemma set_nth_same {A : Type} (v v' : list A) (n : nat) (a : A) :
  set_nth v n a = Some v' -> nth_error v' n = Some a.
Proof.
  revert v' n; induction v as [|x v IH]; intros v' n H; simpl in H; [discriminate|].
  destruct n as [|n].
  - injection H as <-. reflexivity.
  - destruct (set_nth v n a) as [w|] eqn:E; simpl in H; [|discriminate].
    injection H as <-. simpl. now apply IH.
Qed.

Lemma set_nth_other {A : Type} (v v' : list A) (n m : nat) (a : A) :
  set_nth v n a = Some v' -> m <> n -> nth_error v' m = nth_error v m.
Proof.
  revert v' n m; induction v as [|x v IH]; intros v' n m H Hne; simpl in H; [discriminate|].
  destruct n as [|n].
  - injection H as <-. destruct m; [congruence | reflexivity].
  - destruct (set_nth v n a) as [w|] eqn:E; simpl in H; [|discriminate].
    injection H as <-. destruct m as [|m]; [reflexivity|].
    simpl. eapply IH; [eassumption | congruence].
Qed.

Lemma set_nth_defined {A : Type} (v : list A) (n : nat) (a : A) :
  (n < List.length v)%nat -> exists v', set_nth v n a = Some v'.
Proof.
  revert n; induction v as [|x v IH]; intros n H; simpl in *; [lia|].
  destruct n as [|n]; [eexists; reflexivity|].
  destruct (IH n) as [w Hw]; [lia|]. rewrite Hw. eexists; reflexivity.
Qed.

Lemma vset_inv {A : Type} (v v' : list A) (i : Z) (a : A) :
  vset v i a = Ok v' -> 0 <= i /\ set_nth v (Z.to_nat i) a = Some v'.
Proof.
  unfold vset. destruct (Z.ltb_spec i 0); [discriminate|].
  destruct (set_nth v (Z.to_nat i) a); [|discriminate].
  intros [= <-]. split; [assumption | reflexivity].
Qed.

Lemma vget_vset_same {A : Type} (v v' : list A) (i : Z) (a : A) :
  vset v i a = Ok v' -> vget v' i = Ok a.
Proof.
  intros H. apply vset_inv in H as [Hi H]. unfold vget.
  replace (i <? 0) with false by (symmetry; apply Z.ltb_ge; lia).
  now rewrite (set_nth_same _ _ _ _ H).
Qed.

Lemma vget_vset_other {A : Type} (v v' : list A) (i j : Z) (a : A) :
  vset v i a = Ok v' -> j <> i -> vget v' j = vget v j.
Proof.
  intros H Hne. apply vset_inv in H as [Hi H]. unfold vget.
  destruct (Z.ltb_spec j 0); [reflexivity|].
  rewrite (set_nth_other _ _ _ (Z.to_nat j) _ H) by lia. reflexivity.
Qed.

Lemma vget_vset_defined {A : Type} (v : list A) (i : Z) (a b : A) :
  vget v i = Ok a -> exists v', vset v i b = Ok v'.
Proof.
  unfold vget, vset. destruct (i <? 0); [discriminate|].
  destruct (nth_error v (Z.to_nat i)) eqn:E; [|discriminate]. intros _.
  destruct (set_nth_defined v (Z.to_nat i) b) as [v' Hv'].
  - apply nth_error_Some. congruence.
  - rewrite Hv'. eexists; reflexivity.
Qed.

Lemma oa_get_set_same {A : Type} (t t' : OffsetArray A) (i : Z) (a : A) :
  oa_set t i a = Ok t' -> oa_get t' i = Ok a.
Proof.
  unfold oa_set, oa_get. destruct (vset (storage t) (i - offset t) a) eqn:E;
    cbn [bind]; [|discriminate].
  intros [= <-]. simpl. eapply vget_vset_same; eassumption.
Qed.

Lemma oa_get_set_other {A : Type} (t t' : OffsetArray A) (i j : Z) (a : A) :
  oa_set t i a = Ok t' -> j <> i -> oa_get t' j = oa_get t j.
Proof.
  unfold oa_set, oa_get. destruct (vset (storage t) (i - offset t) a) eqn:E;
    cbn [bind]; [|discriminate].
  intros [= <-] Hne. simpl. eapply vget_vset_other; [eassumption | lia].
Qed.

Lemma oa_set_defined {A : Type} (t : OffsetArray A) (i : Z) (a b : A) :
  oa_get t i = Ok a -> exists t', oa_set t i b = Ok t'.
Proof.
  unfold oa_get, oa_set. intros H.
  destruct (vget_vset_defined _ _ _ b H) as [s Hs]. rewrite Hs.
  eexists; reflexivity.
Qed.

(** [pushCount] appends to the counts of one node and leaves the rest. *)
Lemma pushCount_spec (t : OffsetArray NodeData) (i c : Z) (nd : NodeData) :
  oa_get t i = Ok nd ->
  exists t', QueryRunner.pushCount t i c = Ok t' /\
    oa_get t' i = Ok (mkNodeData (values nd) (counts nd ++ [c])) /\
    forall j, j <> i -> oa_get t' j = oa_get t j.
Proof.
  intros H. unfold QueryRunner.pushCount. rewrite H. cbn [bind].
  destruct (oa_set_defined t i nd (mkNodeData (values nd) (counts nd ++ [c])) H)
    as [t' Ht'].
  exists t'. split; [assumption|]. split.
  - eapply oa_get_set_same; eassumption.
  - intros j Hj. eapply oa_get_set_other; eassumption.
Qed.

(** ** The collector on an absent delayed binary *)

(** The opening step on a delayed binary node of value zero whose mask is
    set comes down to the append of a count of zero. *)
Lemma openSequence_delayed_binary_zero dp masks dataCursor st :
  let n := getInv dp dataCursor in
  vget (pathNodeMask masks) n = Ok true ->
  getTyp dp n = DelayedBinary ->
  getVal dp dataCursor == 0 ->
  QueryRunner.openSequence dp masks dataCursor st =
    (t <- QueryRunner.pushCount (QueryRunner.dataTable st) (n + 1) 0 ;;
     Ok (QueryRunner.withTable st t)).
Proof.
  intros n Hmask Htyp Hval.
  unfold QueryRunner.openSequence. fold n. rewrite Hmask. cbn [bind].
  unfold QueryRunner.isQueryNode. rewrite Htyp. cbn [Typ_eqb orb andb].
  apply Qeq_bool_iff in Hval. rewrite Hval. reflexivity.
Qed.

(** One step of the inversion of a successful computation in [result]. *)
Ltac ok_step :=
  match goal with
  | |- bind ?m _ = Ok _ -> _ =>
      let E := fresh "E" in destruct m eqn:E; cbn [bind]; [|discriminate]
  | |- (if ?b then _ else _) = Ok _ -> _ =>
      let E := fresh "E" in destruct b eqn:E
  | |- Ok _ = Ok _ -> _ => intros [= <-]
  | |- Throw _ = Ok _ -> _ => discriminate
  end.

Lemma captureValue_path dp masks dataCursor st st' :
  QueryRunner.captureValue dp masks dataCursor st = Ok st' ->
  QueryRunner.currentPath st' = QueryRunner.currentPath st /\
  QueryRunner.currentPathReturns st' = QueryRunner.currentPathReturns st.
Proof.
  unfold QueryRunner.captureValue. repeat ok_step; split; reflexivity.
Qed.

Lemma countSequence_path dp masks dataCursor st st' :
  QueryRunner.countSequence dp masks dataCursor st = Ok st' ->
  QueryRunner.currentPath st' = QueryRunner.currentPath st /\
  QueryRunner.currentPathReturns st' = QueryRunner.currentPathReturns st.
Proof.
  unfold QueryRunner.countSequence. repeat ok_step; split; reflexivity.
Qed.

Lemma removelast_is_firstn {A : Type} (l : list A) :
  removelast l = firstn (Nat.pred (List.length l)) l.
Proof.
  induction l as [|x l IH]; [reflexivity|].
  destruct l as [|y l]; [reflexivity|].
  change (removelast (x :: y :: l)) with (x :: removelast (y :: l)).
  rewrite IH. reflexivity.
Qed.

Lemma vpop_inv {A : Type} (v v' : list A) :
  vpop v = Ok v' -> v' = firstn (Nat.pred (List.length v)) v.
Proof.
  unfold vpop. destruct v as [|x v]; [discriminate|].
  intros [= <-]. exact (removelast_is_firstn (x :: v)).
Qed.

Lemma exitLoop_path dp n st st' :
  QueryRunner.exitLoop dp n st = Ok st' ->
  (exists k, QueryRunner.currentPath st' = firstn k (QueryRunner.currentPath st)) /\
  (exists k, QueryRunner.currentPathReturns st' =
             firstn k (QueryRunner.currentPathReturns st)).
Proof.
  revert st; induction n as [|n IH]; intros st; simpl.
  - intros [= <-]. split; eexists; symmetry; apply firstn_all.
  - repeat ok_step.
    intros H. apply IH in H as [[k Hk] [k' Hk']]. simpl in Hk, Hk'.
    repeat match goal with
           | E : vpop _ = Ok _ |- _ => apply vpop_inv in E; subst
           end.
    rewrite firstn_firstn in Hk, Hk'.
    split; eexists; eassumption.
Qed.

Lemma checkExit_path dp dataCursor st st' :
  QueryRunner.checkExit dp dataCursor st = Ok st' ->
  (exists k, QueryRunner.currentPath st' = firstn k (QueryRunner.currentPath st)) /\
  (exists k, QueryRunner.currentPathReturns st' =
             firstn k (QueryRunner.currentPathReturns st)).
Proof.
  assert (Hsame : forall s : QueryRunner.CollectState,
             (exists k, QueryRunner.currentPath s = firstn k (QueryRunner.currentPath s)) /\
             (exists k, QueryRunner.currentPathReturns s =
                        firstn k (QueryRunner.currentPathReturns s))).
  { intros s. split; eexists; symmetry; apply firstn_all. }
  unfold QueryRunner.checkExit. repeat ok_step; try apply Hsame.
  simpl. eapply exitLoop_path; eassumption.
Qed.

(** C2, as amended: at a cursor whose node is a delayed binary of value zero
    with its path mask set, the step of the collector pushes nothing on
    [currentPath] and [currentPathReturns] (they are what the exit check
    left, prefixes of what they were), leaves the return node alone and
    captures no value in the opening, but it does append a count of zero to
    the counts of the next node. *)
Theorem collectStep_delayed_binary_absent dp masks dataCursor st st' :
  let n := getInv dp dataCursor in
  vget (pathNodeMask masks) n = Ok true ->
  getTyp dp n = DelayedBinary ->
  getVal dp dataCursor == 0 ->
  QueryRunner.collectStep dp masks dataCursor st = Ok st' ->
  exists st3 nd,
    (st1 <- QueryRunner.captureValue dp masks dataCursor st ;;
     st2 <- QueryRunner.countSequence dp masks dataCursor st1 ;;
     QueryRunner.checkExit dp dataCursor st2) = Ok st3 /\
    QueryRunner.currentPath st' = QueryRunner.currentPath st3 /\
    QueryRunner.currentPathReturns st' = QueryRunner.currentPathReturns st3 /\
    QueryRunner.returnNodeIdx st' = QueryRunner.returnNodeIdx st3 /\
    QueryRunner.lastNonZeroReturnIdx st' = QueryRunner.lastNonZeroReturnIdx st3 /\
    (exists k, QueryRunner.currentPath st' = firstn k (QueryRunner.currentPath st)) /\
    (exists k, QueryRunner.currentPathReturns st' =
               firstn k (QueryRunner.currentPathReturns st)) /\
    oa_get (QueryRunner.dataTable st3) (n + 1) = Ok nd /\
    oa_get (QueryRunner.dataTable st') (n + 1) =
      Ok (mkNodeData (values nd) (counts nd ++ [0])) /\
    forall j, j <> n + 1 ->
      oa_get (QueryRunner.dataTable st') j = oa_get (QueryRunner.dataTable st3) j.
Proof.
  intros n Hmask Htyp Hval. unfold QueryRunner.collectStep.
  destruct (QueryRunner.captureValue dp masks dataCursor st) as [st1|] eqn:E1;
    cbn [bind]; [|discriminate].
  destruct (QueryRunner.countSequence dp masks dataCursor st1) as [st2|] eqn:E2;
    cbn [bind]; [|discriminate].
  destruct (QueryRunner.checkExit dp dataCursor st2) as [st3|] eqn:E3;
    cbn [bind]; [|discriminate].
  rewrite openSequence_delayed_binary_zero by assumption. fold n.
  destruct (oa_get (QueryRunner.dataTable st3) (n + 1)) as [nd|] eqn:End.
  - destruct (pushCount_spec _ _ 0 _ End) as (t' & Hpush & Hsame & Hother).
    rewrite Hpush. cbn [bind]. intros [= <-].
    apply captureValue_path in E1 as [P1 R1].
    apply countSequence_path in E2 as [P2 R2].
    apply checkExit_path in E3 as [[k Pk] [k' Rk]].
    exists st3, nd. simpl. repeat split; try assumption.
    + exists k. congruence.
    + exists k'. congruence.
  - unfold QueryRunner.pushCount. rewrite End. discriminate.
Qed.

Lemma collectStep_delayed_binary_absent_witness :
  exists st',
    QueryRunner.collectStep binaryProvider binaryMasks 2
      (QueryRunner.initialState binaryProvider) = Ok st' /\
    QueryRunner.currentPath st' = [] /\
    oa_get (QueryRunner.dataTable st') 3 = Ok (mkNodeData [] [0]).
Proof.
  eexists. split; [reflexivity|].
  destruct (collectStep_delayed_binary_absent binaryProvider binaryMasks 2
              (QueryRunner.initialState binaryProvider) _
              eq_refl eq_refl eq_refl eq_refl)
    as (st3 & nd & H3 & Hp & _ & _ & _ & _ & _ & Hnd & Hnew & _).
  injection H3 as <-. injection Hnd as <-.
  split; [exact Hp | exact Hnew].
Defined.

(** C2, as stated, fails: on the absent delayed binary of the example the
    step appends a count to the counts of the next node, which had none. *)
Lemma collectStep_delayed_binary_appends_count :
  getTyp binaryProvider (getInv binaryProvider 2) = DelayedBinary /\
  getVal binaryProvider 2 == 0 /\
  vget (pathNodeMask binaryMasks) (getInv binaryProvider 2) = Ok true /\
  oa_get (QueryRunner.dataTable (QueryRunner.initialState binaryProvider))
         (getInv binaryProvider 2 + 1) = Ok (mkNodeData [] []) /\
  exists st',
    QueryRunner.collectStep binaryProvider binaryMasks 2
      (QueryRunner.initialState binaryProvider) = Ok st' /\
    oa_get (QueryRunner.dataTable st') (getInv binaryProvider 2 + 1) =
      Ok (mkNodeData [] [0]).
Proof.
  repeat split. eexists. split; reflexivity.
Qed.

Example collectData_binary_absent :
  QueryRunner.collectData binaryProvider [heightTarget] binaryMasks =
  Ok [mkDataField heightTarget [] [[1]; [0]]].
Proof. reflexivity. Qed.

(** ** The fields of a frame *)

Lemma seqCountsOf_spec (t : OffsetArray NodeData) (sp : list Z) (cs : list (list Z)) :
  QueryRunner.seqCountsOf t sp = Ok cs ->
  List.length cs = List.length sp /\
  forall k s, nth_error sp k = Some s ->
    exists nd, oa_get t (s + 1) = Ok nd /\ nth_error cs k = Some (counts nd).
Proof.
  revert cs; induction sp as [|s0 sp IH]; intros cs; simpl.
  - intros [= <-]. split; [reflexivity|]. intros [|k] s H; discriminate.
  - repeat ok_step. destruct (IH _ eq_refl) as [Hlen Hnth].
    split; [simpl; congruence|].
    intros [|k] s H; simpl in H.
    + injection H as <-. eexists; split; [eassumption | reflexivity].
    + apply Hnth in H. exact H.
Qed.

(** The field the collector makes for one target. *)
Lemma fieldFor_spec (t : OffsetArray NodeData) (targ : Target) (f : DataField) :
  QueryRunner.fieldFor t targ = Ok f ->
  target f = targ /\
  (nodeIdx targ = 0 -> data f = [MissingValue] /\ seqCounts f = [[1]]) /\
  (nodeIdx targ <> 0 ->
   List.length (seqCounts f) = S (List.length (seqPath targ)) /\
   nth_error (seqCounts f) 0 = Some [1] /\
   (forall k s, nth_error (seqPath targ) k = Some s ->
      exists nd, oa_get t (s + 1) = Ok nd /\
                 nth_error (seqCounts f) (S k) = Some (counts nd)) /\
   exists nd, oa_get t (nodeIdx targ) = Ok nd /\ data f = values nd).
Proof.
  unfold QueryRunner.fieldFor. destruct (Z.eqb_spec (nodeIdx targ) 0) as [Hz|Hnz].
  - intros [= <-]. simpl.
    split; [reflexivity|]. split; [intros _; split; reflexivity | contradiction].
  - repeat ok_step. simpl.
    match goal with
    | E : QueryRunner.seqCountsOf _ _ = Ok _ |- _ =>
        apply seqCountsOf_spec in E as [Hlen Hnth]
    end.
    split; [reflexivity|]. split; [intros Hz; contradiction|]. intros _.
    split; [simpl; congruence|]. split; [reflexivity|]. split; [exact Hnth|].
    eexists; split; reflexivity.
Qed.

Lemma fieldsFor_spec (t : OffsetArray NodeData) (targets : Targets)
    (fields : list DataField) :
  QueryRunner.fieldsFor t targets = Ok fields ->
  List.length fields = List.length targets /\
  forall i targ, nth_error targets i = Some targ ->
    exists f, nth_error fields i = Some f /\ QueryRunner.fieldFor t targ = Ok f.
Proof.
  revert fields; induction targets as [|t0 targets IH]; intros fields; simpl.
  - intros [= <-]. split; [reflexivity|]. intros [|i] targ H; discriminate.
  - repeat ok_step. destruct (IH _ eq_refl) as [Hlen Hnth].
    split; [simpl; congruence|].
    intros [|i] targ H; simpl in H.
    + injection H as <-. eexists; split; [reflexivity | assumption].
    + apply Hnth in H. exact H.
Qed.

(** The fields exist as soon as the table holds the nodes of the targets. *)
Lemma fieldsFor_defined (t : OffsetArray NodeData) (targets : Targets) :
  Forall (fun targ =>
            nodeIdx targ = 0 \/
            ((exists nd, oa_get t (nodeIdx targ) = Ok nd) /\
             Forall (fun s => exists nd, oa_get t (s + 1) = Ok nd) (seqPath targ)))
         targets ->
  exists fields, QueryRunner.fieldsFor t targets = Ok fields.
Proof.
  induction 1 as [|targ targets Htarg _ IH]; simpl.
  - eexists; reflexivity.
  - assert (Hf : exists f, QueryRunner.fieldFor t targ = Ok f).
    { unfold QueryRunner.fieldFor. destruct Htarg as [-> | [[nd Hnd] Hsp]].
      - eexists; reflexivity.
      - destruct (nodeIdx targ =? 0); [eexists; reflexivity|].
        assert (Hcs : exists cs, QueryRunner.seqCountsOf t (seqPath targ) = Ok cs).
        { induction Hsp as [|s sp [nd' Hs] _ IHsp]; simpl.
          - eexists; reflexivity.
          - rewrite Hs. destruct IHsp as [cs ->]. eexists; reflexivity. }
        destruct Hcs as [cs ->]. rewrite Hnd. eexists; reflexivity. }
    destruct Hf as [f ->]. destruct IH as [fields ->]. eexists; reflexivity.
Qed.

(** [collectData] produces its frame as soon as the pass over the value
    stream ends well and the table holds the nodes of the targets. *)
Lemma collectData_defined dp targets masks table :
  QueryRunner.collectTable dp masks = Ok table ->
  Forall (fun targ =>
            nodeIdx targ = 0 \/
            ((exists nd, oa_get table (nodeIdx targ) = Ok nd) /\
             Forall (fun s => exists nd, oa_get table (s + 1) = Ok nd) (seqPath targ)))
         targets ->
  exists fields, QueryRunner.collectData dp targets masks = Ok fields.
Proof.
  intros Ht Hall. unfold QueryRunner.collectData. rewrite Ht. cbn [bind].
  now apply fieldsFor_defined.
Qed.

(** C7: in the frame [collectData] produces, the field of a resolved target
    has one more vector of counts than its [seqPath] has nodes, the first
    being [{1}] and the one at [k + 1] the counts that the table holds, after
    the pass over the value stream, for the node behind [seqPath[k]], and its
    data are the values of the target's node; the field of an unresolved
    target has the data [[MissingValue]] and the counts [[[1]]]. *)
Theorem collectData_fields dp targets masks fields :
  QueryRunner.collectData dp targets masks = Ok fields ->
  exists table,
    QueryRunner.collectTable dp masks = Ok table /\
    List.length fields = List.length targets /\
    forall i targ, nth_error targets i = Some targ ->
      exists f, nth_error fields i = Some f /\
        target f = targ /\
        (nodeIdx targ = 0 -> data f = [MissingValue] /\ seqCounts f = [[1]]) /\
        (nodeIdx targ <> 0 ->
         List.length (seqCounts f) = S (List.length (seqPath targ)) /\
         nth_error (seqCounts f) 0 = Some [1] /\
         (forall k s, nth_error (seqPath targ) k = Some s ->
            exists nd, oa_get table (s + 1) = Ok nd /\
                       nth_error (seqCounts f) (S k) = Some (counts nd)) /\
         exists nd, oa_get table (nodeIdx targ) = Ok nd /\ data f = values nd).
Proof.
  unfold QueryRunner.collectData.
  destruct (QueryRunner.collectTable dp masks) as [table|] eqn:Et;
    cbn [bind]; [|discriminate].
  intros H. apply fieldsFor_spec in H as [Hlen Hnth].
  exists table. split; [reflexivity|]. split; [assumption|].
  intros i targ Hi. destruct (Hnth i targ Hi) as (f & Hf & Hfield).
  exists f. split; [assumption|]. now apply fieldFor_spec.
Qed.

Lemma collectData_fields_witness :
  QueryRunner.collectData exampleProvider [resolvedTemp; unresolvedTarget] exampleMasks =
    Ok [mkDataField resolvedTemp [2731#10; 2742#10] [[1]; [2]];
        mkDataField unresolvedTarget [MissingValue] [[1]]] /\
  exists table,
    QueryRunner.collectTable exampleProvider exampleMasks = Ok table /\
    oa_get table 3 = Ok (mkNodeData [] [2]).
Proof.
  split; [reflexivity|].
  destruct (collectData_fields exampleProvider [resolvedTemp; unresolvedTarget]
              exampleMasks _ eq_refl) as (table & Ht & _ & Hfields).
  exists table. split; [exact Ht|].
  destruct (Hfields 0%nat resolvedTemp eq_refl) as (f & Hf & _ & _ & Hres).
  injection Hf as <-.
  destruct Hres as (_ & _ & Hcounts & _); [discriminate|].
  destruct (Hcounts 0%nat 2 eq_refl) as (nd & Hnd & Hc).
  change (2 + 1) with 3 in Hnd. rewrite Hnd. f_equal.
  destruct nd as [vs cs]. simpl in Hc. injection Hc as <-.
  vm_compute in Ht. injection Ht as <-. vm_compute in Hnd.
  injection Hnd as <-. reflexivity.
Defined.

(** ** The dimensions and the jaggedness *)

Lemma vget_app_end {A : Type} (pre rest : list A) :
  vget (pre ++ rest) (Z.of_nat (List.length pre)) =
  match rest with
  | [] => Throw Undefined
  | x :: _ => Ok x
  end.
Proof.
  unfold vget.
  replace (Z.of_nat (List.length pre) <? 0) with false by (symmetry; apply Z.ltb_ge; lia).
  rewrite Nat2Z.id, nth_error_app2, Nat.sub_diag by lia.
  destruct rest; reflexivity.
Qed.

Lemma set_nth_app_end {A : Type} (pre rest : list A) (x a : A) :
  set_nth (pre ++ x :: rest) (List.length pre) a = Some (pre ++ a :: rest).
Proof. induction pre as [|y pre IH]; simpl; [reflexivity | now rewrite IH]. Qed.

Lemma vset_app_end {A : Type} (pre rest : list A) (x a : A) :
  vset (pre ++ x :: rest) (Z.of_nat (List.length pre)) a = Ok (pre ++ a :: rest).
Proof.
  unfold vset.
  replace (Z.of_nat (List.length pre) <? 0) with false by (symmetry; apply Z.ltb_ge; lia).
  now rewrite Nat2Z.id, set_nth_app_end.
Qed.

(** The loop over the path is the side-by-side loop behind the dimensions
    already passed. *)
Lemma pathLoop_lockstep frame ps :
  forall (pre rest : list Z) (j : bool),
    ResultSet.pathLoop frame ps (Z.of_nat (List.length pre)) (pre ++ rest) j =
    match lockstep (examinedCounts frame ps) rest j with
    | Some (r, j') => Ok (pre ++ r, j')
    | None => Throw Undefined
    end.
Proof.
  induction ps as [|p ps IH]; intros pre rest j; simpl; [reflexivity|].
  destruct (ResultSet.counts (ResultSet.frameAt frame (ResultSet.nodeId p)))
    as [|c0 cs] eqn:Ec; [reflexivity|].
  cbn [lockstep]. rewrite vget_app_end.
  destruct rest as [|d rest]; [reflexivity|]. cbn [bind].
  rewrite vset_app_end. cbn [bind].
  replace (Z.of_nat (List.length pre) + 1)
    with (Z.of_nat (List.length (pre ++ [Z.max d (ResultSet.max (c0 :: cs))])))
    by (rewrite length_app; simpl; lia).
  replace (pre ++ Z.max d (ResultSet.max (c0 :: cs)) :: rest)
    with ((pre ++ [Z.max d (ResultSet.max (c0 :: cs))]) ++ rest)
    by (rewrite <- app_assoc; reflexivity).
  rewrite IH.
  replace (if negb j
           then
             if negb (negb (ResultSet.allEqual (c0 :: cs))) && negb (d =? 0)
             then negb (d =? Z.max d (ResultSet.max (c0 :: cs)))
             else negb (ResultSet.allEqual (c0 :: cs))
           else j)
    with (j || raisesJagged d (c0 :: cs)).
  - destruct (lockstep _ rest _) as [[r j']|]; [|reflexivity].
    rewrite <- app_assoc. reflexivity.
  - unfold raisesJagged.
    destruct j, (ResultSet.allEqual (c0 :: cs)), (d =? 0),
      (d =? Z.max d (ResultSet.max (c0 :: cs))); reflexivity.
Qed.

(** The side-by-side loop, position by position. *)
Lemma lockstep_spec (ex : list (list Z)) :
  forall (dl dl' : list Z) (j j' : bool),
    lockstep ex dl j = Some (dl', j') ->
    (List.length ex <= List.length dl)%nat /\
    List.length dl' = List.length dl /\
    (forall k, nth_error dl' k =
               match nth_error ex k with
               | Some c => option_map (fun d => Z.max d (ResultSet.max c)) (nth_error dl k)
               | None => nth_error dl k
               end) /\
    (j' = true <->
     j = true \/
     exists k c d, nth_error ex k = Some c /\ nth_error dl k = Some d /\
                   raisesJagged d c = true).
Proof.
  induction ex as [|c ex IH]; intros dl dl' j j' H; simpl in H.
  - injection H as <- <-. split; [simpl; lia|]. split; [reflexivity|]. split.
    + intros k. destruct k; reflexivity.
    + split; [now left|]. intros [H|(k & c & d & H & _)]; [assumption|].
      destruct k; discriminate.
  - destruct dl as [|d dl]; [discriminate|].
    destruct (lockstep ex dl (j || raisesJagged d c)) as [[r j1]|] eqn:E; [|discriminate].
    injection H as <- <-. apply IH in E as (Hlen & Hlen' & Hnth & Hj).
    split; [simpl; lia|]. split; [simpl; lia|]. split.
    + intros [|k]; simpl; [reflexivity | apply Hnth].
    + rewrite Hj, orb_true_iff. split.
      * intros [[H|H]|(k & c' & d' & H1 & H2 & H3)].
        -- now left.
        -- right. exists 0%nat, c, d. repeat split; assumption.
        -- right. exists (S k), c', d'. repeat split; assumption.
      * intros [H|([|k] & c' & d' & H1 & H2 & H3)].
        -- left. now left.
        -- simpl in H1, H2. injection H1 as <-. injection H2 as <-. left. now right.
        -- right. exists k, c', d'. repeat split; assumption.
Qed.

Lemma vat_frameTarget targetIdx frame target :
  vat (ResultSet.getTargets frame) targetIdx = Ok target ->
  frameTarget targetIdx frame = Some target.
Proof.
  unfold vat, frameTarget. destruct (targetIdx <? 0); [discriminate|].
  destruct (nth_error _ _); [|discriminate]. now intros [= <-].
Qed.

(** What the body of the first loop over the frames does to the dimensions,
    the jaggedness and the type information. *)
Lemma dimsFrame_spec targetIdx frame st st' :
  ResultSet.dimsFrame targetIdx frame st = Ok st' ->
  exists target,
    frameTarget targetIdx frame = Some target /\
    ResultSet.ds_target st' = target /\
    ResultSet.ds_info st' = ResultSet.mergeInfo (ResultSet.ds_info st) (typeInfo target) /\
    lockstep (examined targetIdx frame) (ResultSet.ds_dimsList st) (ResultSet.ds_jagged st) =
      Some (ResultSet.ds_dimsList st', ResultSet.ds_jagged st').
Proof.
  unfold ResultSet.dimsFrame.
  destruct (vat (ResultSet.getTargets frame) targetIdx) as [target|] eqn:Et;
    cbn [bind]; [|discriminate].
  apply vat_frameTarget in Et.
  destruct (path target) as [|p0 ps] eqn:Ep; [discriminate|].
  pose proof (pathLoop_lockstep frame (removelast (p0 :: ps)) []
                (ResultSet.ds_dimsList st) (ResultSet.ds_jagged st)) as Hloop.
  cbn [List.length Z.of_nat app] in Hloop. rewrite Hloop.
  unfold examined. rewrite Et, Ep.
  destruct (lockstep _ _ _) as [[r j']|]; cbn [bind]; [|discriminate].
  cbn [app]. intros H. exists target.
  destruct (_ && _) in H; injection H as <-; simpl; repeat split; reflexivity.
Qed.

(** The first loop over the frames: every dimension holds its running
    maximum, the type information is merged in frame order, and the
    jaggedness is raised by exactly the examined counts vectors that raise
    it against the running maximum of the frames before. *)
Lemma dimsLoop_spec targetIdx frames :
  forall st st',
    ResultSet.dimsLoop targetIdx frames st = Ok st' ->
    List.length (ResultSet.ds_dimsList st') = List.length (ResultSet.ds_dimsList st) /\
    (forall f, In f frames ->
       (List.length (examined targetIdx f) <= List.length (ResultSet.ds_dimsList st))%nat) /\
    (forall k d, nth_error (ResultSet.ds_dimsList st) k = Some d ->
       nth_error (ResultSet.ds_dimsList st') k =
         Some (runningMaxFrom targetIdx d frames k)) /\
    ResultSet.ds_info st' =
      fold_left ResultSet.mergeInfo (frameInfos targetIdx frames) (ResultSet.ds_info st) /\
    (ResultSet.ds_jagged st' = true <->
     ResultSet.ds_jagged st = true \/
     exists i f k c d,
       nth_error frames i = Some f /\
       nth_error (examined targetIdx f) k = Some c /\
       nth_error (ResultSet.ds_dimsList st) k = Some d /\
       raisesJagged (runningMaxFrom targetIdx d (firstn i frames) k) c = true).
Proof.
  induction frames as [|f frames IH]; intros st st'; simpl.
  - intros [= <-]. split; [reflexivity|]. split; [intros f []|].
    split; [intros k d H; exact H|]. split; [reflexivity|].
    split; [now left|]. intros [H|(i & f & k & c & d & H & _)]; [assumption|].
    destruct i; discriminate.
  - destruct (ResultSet.dimsFrame targetIdx f st) as [st1|] eqn:E1;
      cbn [bind]; [|discriminate].
    intros H. apply IH in H as (Hlen & Hex & Hnth & Hinfo & Hj).
    apply dimsFrame_spec in E1 as (target & Ht & _ & Hinfo1 & Hlock).
    apply lockstep_spec in Hlock as (Lex & Llen & Lnth & Lj).
    assert (Hstep : forall k d, nth_error (ResultSet.ds_dimsList st) k = Some d ->
              nth_error (ResultSet.ds_dimsList st1) k =
              Some match nth_error (examined targetIdx f) k with
                   | Some c => Z.max d (ResultSet.max c)
                   | None => d
                   end).
    { intros k d Hd. rewrite Lnth, Hd.
      destruct (nth_error (examined targetIdx f) k); reflexivity. }
    split; [congruence|]. split.
    { intros f' [<-|Hin]; [assumption|]. rewrite <- Llen. now apply Hex. }
    split.
    { intros k d Hd. unfold runningMaxFrom. simpl.
      apply Hnth, Hstep, Hd. }
    split.
    { rewrite Hinfo, Hinfo1. unfold frameInfos. simpl. rewrite Ht.
      simpl. reflexivity. }
    rewrite Hj, Lj. split.
    + intros [[H|(k & c & d & H1 & H2 & H3)]|(i & f' & k & c & d1 & H1 & H2 & H3 & H4)].
      * now left.
      * right. exists 0%nat, f, k, c, d. repeat split; assumption.
      * right.
        destruct (nth_error (ResultSet.ds_dimsList st) k) as [d|] eqn:Ed.
        -- exists (S i), f', k, c, d. repeat split; try assumption.
           rewrite (Hstep k d Ed) in H3. injection H3 as <-. exact H4.
        -- rewrite Lnth, Ed in H3.
           destruct (nth_error (examined targetIdx f) k); discriminate.
    + intros [H|([|i] & f' & k & c & d & H1 & H2 & H3 & H4)].
      * left. now left.
      * simpl in H1. injection H1 as <-. left. right. exists k, c, d.
        repeat split; assumption.
      * right. simpl in H1. exists i, f', k, c. eexists.
        split; [exact H1|]. split; [exact H2|]. split; [exact (Hstep k d H3)|].
        exact H4.
Qed.

Lemma resizeEmpty_inv {A : Type} (elemSize n : Z) (x : A) (v : list A) :
  ResultSet.resizeEmpty elemSize n x = Ok v -> v = repeat x (Z.to_nat n).
Proof.
  unfold ResultSet.resizeEmpty. destruct (_ <? _); [discriminate|]. now intros [= <-].
Qed.

(** [computeDims] is the first loop over the frames, started from dimensions
    of zero, no jaggedness and the fresh type information. *)
Lemma computeDims_inv decl fieldName groupByField frames st :
  ResultSet.computeDims decl fieldName groupByField frames = Ok st ->
  exists n target,
    ResultSet.dimsLoop (fieldIdx fieldName frames) frames
      (ResultSet.mkDimState (repeat 0 n) false (TypeInfo_default decl) [] [] target)
    = Ok st.
Proof.
  unfold ResultSet.computeDims. destruct frames as [|front rest]; [discriminate|].
  destruct (vat _ _) as [target|]; cbn [bind]; [|discriminate].
  cbn [ResultSet.checkGroupBy bind].
  destruct (ResultSet.resizeEmpty _ _ _) as [dimsList|] eqn:Er; cbn [bind]; [|discriminate].
  apply resizeEmpty_inv in Er. subst dimsList.
  intros H. eexists _, target. exact H.
Qed.

Lemma raisesJagged_iff (d : Z) (c : list Z) :
  raisesJagged d c = true <->
  ResultSet.allEqual c = false \/ (d <> 0 /\ d < ResultSet.max c).
Proof.
  unfold raisesJagged.
  rewrite orb_true_iff, andb_true_iff, !negb_true_iff, !Z.eqb_neq. split.
  - intros [H|[H1 H2]]; [now left | right; lia].
  - intros [H|[H1 H2]]; [now left | right; lia].
Qed.

(** The jaggedness [getRawValues] works with, exactly. *)
Lemma jaggedness_exact decl fieldName groupByField frames st :
  ResultSet.computeDims decl fieldName groupByField frames = Ok st ->
  let targetIdx := fieldIdx fieldName frames in
  ResultSet.ds_jagged st = true <->
  exists i f k c,
    nth_error frames i = Some f /\
    nth_error (examined targetIdx f) k = Some c /\
    raisesJagged (runningMax targetIdx (firstn i frames) k) c = true.
Proof.
  intros H targetIdx. apply computeDims_inv in H as (n & target & H).
  apply dimsLoop_spec in H as (_ & Hex & _ & _ & Hj). fold targetIdx in Hex, Hj.
  simpl in Hex, Hj. rewrite Hj. split.
  - intros [H|(i & f & k & c & d & H1 & H2 & H3 & H4)]; [discriminate|].
    exists i, f, k, c. split; [assumption|]. split; [assumption|].
    apply nth_error_In, repeat_spec in H3. subst d. exact H4.
  - intros (i & f & k & c & H1 & H2 & H3). right.
    exists i, f, k, c, 0. repeat split; try assumption.
    apply nth_error_repeat.
    pose proof (Hex f (nth_error_In _ _ H1)) as Hle. rewrite repeat_length in Hle.
    assert (k < List.length (examined targetIdx f))%nat
      by (apply nth_error_Some; congruence).
    lia.
Qed.

(** C3, as amended: the jaggedness is raised only if, in some frame, some
    examined counts vector (one of a dimension of the path before the first
    dimension without counts) is non-uniform or has a maximum that differs
    from a running maximum of the frames before that is not zero; and it is
    raised whenever such a vector is non-uniform or has a maximum above a
    running maximum that is not zero.  So, as long as no maximum falls below
    a running maximum that is not zero, it is raised if and only if some
    examined counts vector is non-uniform or has a maximum that differs from
    a running maximum that is not zero. *)
Theorem computeDims_jagged decl fieldName groupByField frames st :
  ResultSet.computeDims decl fieldName groupByField frames = Ok st ->
  let targetIdx := fieldIdx fieldName frames in
  (ResultSet.ds_jagged st = true ->
   exists i f k c,
     nth_error frames i = Some f /\
     nth_error (examined targetIdx f) k = Some c /\
     (ResultSet.allEqual c = false \/
      (runningMax targetIdx (firstn i frames) k <> 0 /\
       ResultSet.max c <> runningMax targetIdx (firstn i frames) k))) /\
  (forall i f k c,
     nth_error frames i = Some f ->
     nth_error (examined targetIdx f) k = Some c ->
     ResultSet.allEqual c = false \/
     (runningMax targetIdx (firstn i frames) k <> 0 /\
      runningMax targetIdx (firstn i frames) k < ResultSet.max c) ->
     ResultSet.ds_jagged st = true) /\
  ((forall i f k c,
      nth_error frames i = Some f ->
      nth_error (examined targetIdx f) k = Some c ->
      runningMax targetIdx (firstn i frames) k <> 0 ->
      runningMax targetIdx (firstn i frames) k <= ResultSet.max c) ->
   (ResultSet.ds_jagged st = true <->
    exists i f k c,
      nth_error frames i = Some f /\
      nth_error (examined targetIdx f) k = Some c /\
      (ResultSet.allEqual c = false \/
       (runningMax targetIdx (firstn i frames) k <> 0 /\
        ResultSet.max c <> runningMax targetIdx (firstn i frames) k)))).
Proof.
  intros H targetIdx.
  pose proof (jaggedness_exact _ _ _ _ _ H) as Hexact.
  fold targetIdx in Hexact. cbv zeta in Hexact.
  assert (Honly : ResultSet.ds_jagged st = true ->
            exists i f k c,
              nth_error frames i = Some f /\
              nth_error (examined targetIdx f) k = Some c /\
              (ResultSet.allEqual c = false \/
               (runningMax targetIdx (firstn i frames) k <> 0 /\
                ResultSet.max c <> runningMax targetIdx (firstn i frames) k))).
  { intros Hj. apply Hexact in Hj as (i & f & k & c & H1 & H2 & H3).
    exists i, f, k, c. split; [assumption|]. split; [assumption|].
    apply raisesJagged_iff in H3 as [H3|[H3 H4]]; [now left | right; lia]. }
  assert (Hif : forall i f k c,
            nth_error frames i = Some f ->
            nth_error (examined targetIdx f) k = Some c ->
            ResultSet.allEqual c = false \/
            (runningMax targetIdx (firstn i frames) k <> 0 /\
             runningMax targetIdx (firstn i frames) k < ResultSet.max c) ->
            ResultSet.ds_jagged st = true).
  { intros i f k c H1 H2 H3. apply Hexact. exists i, f, k, c.
    split; [assumption|]. split; [assumption|]. now apply raisesJagged_iff. }
  split; [exact Honly|]. split; [exact Hif|].
  intros Hnone. split; [exact Honly|].
  intros (i & f & k & c & H1 & H2 & [H3|[H3 H4]]).
  - apply (Hif i f k c H1 H2). now left.
  - apply (Hif i f k c H1 H2). right. split; [exact H3|].
    pose proof (Hnone i f k c H1 H2 H3). lia.
Qed.

Lemma computeDims_jagged_witness :
  exists st,
    ResultSet.computeDims exampleDecl "temp" "" jaggedFrames = Ok st /\
    ResultSet.ds_dimsList st = [1; 3] /\
    ResultSet.ds_jagged st = true /\
    exists i f k c,
      nth_error jaggedFrames i = Some f /\
      nth_error (examined (fieldIdx "temp" jaggedFrames) f) k = Some c /\
      (ResultSet.allEqual c = false \/
       (runningMax (fieldIdx "temp" jaggedFrames) (firstn i jaggedFrames) k <> 0 /\
        ResultSet.max c <>
          runningMax (fieldIdx "temp" jaggedFrames) (firstn i jaggedFrames) k)).
Proof.
  eexists. split; [reflexivity|]. split; [reflexivity|].
  destruct (computeDims_jagged exampleDecl "temp" "" jaggedFrames _ eq_refl)
    as (Honly & Hraise & _).
  assert (Hj : ResultSet.ds_jagged
                 (ResultSet.mkDimState [1; 3] true (kelvin 1) ["*"; "*/OBS"] [0; 1]
                    (tempTarget (kelvin 1))) = true).
  { apply (Hraise 1%nat (obsFrame (kelvin 1) [3] [3#1; 4#1; 5#1]) 1%nat [3]).
    - reflexivity.
    - reflexivity.
    - right. vm_compute. split; [discriminate | reflexivity]. }
  split; [exact Hj|]. exact (Honly Hj).
Defined.

(** C3, as stated, fails where the code guards the comparison: the maximum
    [2] of the second frame differs from the running maximum [0] the first
    frame left, and the counts [[1; 2]] of a dimension behind one without
    counts are not uniform; yet neither raises the jaggedness. *)
Lemma computeDims_not_jagged :
  (exists st,
     ResultSet.computeDims exampleDecl "temp" ""
       [obsFrame (kelvin 1) [0] []; obsFrame (kelvin 1) [2] [1#1; 2#1]] = Ok st /\
     ResultSet.ds_jagged st = false /\
     runningMax 0 [obsFrame (kelvin 1) [0] []] 1 = 0 /\
     ResultSet.max [2] = 2) /\
  (exists st,
     ResultSet.computeDims exampleDecl "gap" "" [gapFrame] = Ok st /\
     ResultSet.ds_jagged st = false /\
     ResultSet.counts (ResultSet.frameAt gapFrame (ResultSet.nodeId
       (mkTargetComponent (exampleComponent "B") 3 TCRepeat))) = [1; 2] /\
     ResultSet.allEqual [1; 2] = false).
Proof.
  split; eexists; repeat split; reflexivity.
Qed.

(** ** The merged type information *)

Lemma mergeInfo_fold_reference (infos : list TypeInfo) (info0 : TypeInfo) :
  reference (fold_left ResultSet.mergeInfo infos info0) =
  fold_left Z.min (map reference infos) (reference info0).
Proof.
  revert info0; induction infos as [|i infos IH]; intros info0; simpl;
    [reflexivity | now rewrite IH].
Qed.

Lemma mergeInfo_fold_bits (infos : list TypeInfo) (info0 : TypeInfo) :
  bits (fold_left ResultSet.mergeInfo infos info0) =
  fold_left Z.max (map bits infos) (bits info0).
Proof.
  revert info0; induction infos as [|i infos IH]; intros info0; simpl;
    [reflexivity | now rewrite IH].
Qed.

Lemma mergeInfo_fold_unit (infos : list TypeInfo) (info0 : TypeInfo) :
  unit (fold_left ResultSet.mergeInfo infos info0) =
  firstNonEmpty (unit info0 :: map unit infos).
Proof.
  revert info0; induction infos as [|i infos IH]; intros info0; simpl.
  - destruct (String.eqb_spec (unit info0) ""); congruence.
  - rewrite IH. simpl. destruct (String.eqb_spec (unit info0) "") as [E|E].
    + reflexivity.
    + destruct (unit info0); [congruence | reflexivity].
Qed.

(** Without negative scales the merged scale is the largest one. *)
Lemma mergeInfo_fold_scale_nonneg (infos : list TypeInfo) (info0 : TypeInfo) :
  Forall (fun i => 0 <= scale i) infos ->
  scale (fold_left ResultSet.mergeInfo infos info0) =
  fold_left Z.max (map scale infos) (scale info0).
Proof.
  intros H; revert info0; induction H as [|i infos Hi _ IH]; intros info0; simpl;
    [reflexivity|].
  rewrite IH. simpl. f_equal. rewrite Z.abs_eq by assumption.
  destruct (Z.ltb_spec (scale info0) (scale i)); lia.
Qed.

(** The type information [getRawValues] returns is the merge, in frame
    order, of the fresh one with those of the targets. *)
Lemma computeDims_info decl fieldName groupByField frames st :
  ResultSet.computeDims decl fieldName groupByField frames = Ok st ->
  ResultSet.ds_info st =
    fold_left ResultSet.mergeInfo (frameInfos (fieldIdx fieldName frames) frames)
      (TypeInfo_default decl).
Proof.
  intros H. apply computeDims_inv in H as (n & target & H).
  apply dimsLoop_spec in H as (_ & _ & _ & Hinfo & _). exact Hinfo.
Qed.

(** C6 at two frames whose targets have the scales [-3] and [1]: whatever
    the fresh type information is, the merged scale is not [-3], the scale of
    the largest magnitude; it is [1] unless the fresh scale is at least 3. *)
Theorem getRawValues_scale_not_largest_magnitude decl :
  exists info,
    ResultSet.getRawValues decl "temp" ""
      [obsFrame (kelvin (-3)) [1] [1#1]; obsFrame (kelvin 1) [1] [2#1]] =
      Ok ([1#1; 2#1], [2; 1], ["*"; "*/OBS"], info) /\
    scale info <> -3 /\
    scale info = (if scale (TypeInfo_default decl) <? 3 then 1
                  else scale (TypeInfo_default decl)).
Proof.
  eexists. split; [reflexivity|]. simpl.
  destruct (Z.ltb_spec (scale (TypeInfo_default decl)) 3) as [H|H]; simpl.
  - split; [discriminate | reflexivity].
  - destruct (Z.ltb_spec (scale (TypeInfo_default decl)) 1); lia.
Qed.

(** ** Fields without any occurrence *)

(** C1 at two frames in which [OBS] did not occur: the dimension of [OBS]
    stays zero (the lifting to one is done on a copy that is not used) and
    no slot for the missing value is made, so [get] returns an object of
    shape [[2; 0]] without data; and at a frame with the empty target the
    resize of the dimensions to the length of the path minus one fails. *)
Theorem get_zero_dims_not_lifted :
  ResultSet.get exampleDecl
    [obsFrame (kelvin 1) [0] []; obsFrame (kelvin 1) [0] []] "temp" "" "" =
    Ok (ResultSet.mkDataObject ResultSet.TFloat [] MissingValue [2; 0]
          "temp" "" ["*"; "*/OBS"]) /\
  ResultSet.liftZeroDims [1; 0] = [1; 1] /\
  ResultSet.get exampleDecl [unresolvedFrame] "nope" "" "" = Throw LengthError.
Proof. repeat split. Qed.

(** * Further properties of the code *)

(** ** What splitPath returns *)

Lemma substring_length (s : string) (start n : nat) :
  (start + n <= String.length s)%nat ->
  String.length (substring start n s) = n.
Proof.
  revert start n; induction s as [|a s IH]; intros start n H; simpl in H.
  - assert (start = 0 /\ n = 0)%nat as [-> ->] by lia. reflexivity.
  - destruct start as [|start]; destruct n as [|n]; simpl; try reflexivity.
    + rewrite IH by lia. reflexivity.
    + apply IH. lia.
    + apply IH. lia.
Qed.

(** The piece in front of the separator that [find] finds holds none. *)
Lemma find_piece_before (s : string) (c : ascii) (start e : nat) :
  find s c start = Some e ->
  find (substring start (e - start) s) c 0 = None.
Proof.
  revert start e; induction s as [|a s IH]; intros start e H; simpl in H.
  - discriminate.
  - destruct start as [|start].
    + destruct (Ascii.eqb a c) eqn:Ea.
      * injection H as <-. reflexivity.
      * destruct (find s c 0) as [j|] eqn:E; simpl in H; [|discriminate].
        injection H as <-. simpl. rewrite Ea.
        apply IH in E. rewrite Nat.sub_0_r in E. rewrite E. reflexivity.
    + destruct (find s c start) as [j|] eqn:E; simpl in H; [|discriminate].
      injection H as <-. simpl. apply IH. exact E.
Qed.

(** Without a separator from [start] on, the rest of the string holds none. *)
Lemma find_piece_rest (s : string) (c : ascii) (start : nat) :
  find s c start = None ->
  find (substring start (String.length s - start) s) c 0 = None.
Proof.
  revert start; induction s as [|a s IH]; intros start H.
  - destruct start; reflexivity.
  - destruct start as [|start]; simpl in H.
    + rewrite Nat.sub_0_r, substring_all. simpl. exact H.
    + destruct (find s c start) eqn:E; [discriminate|].
      simpl. apply IH. exact E.
Qed.

Lemma splitPath_loop_components (n : nat) :
  forall (path : string) (start : nat) (acc : list string),
    (S (String.length path) - start <= n)%nat ->
    Forall isComponent acc ->
    Forall isComponent (splitPath_loop path start acc).
Proof.
  induction n as [|n IH]; intros path start acc Hn Hacc;
    rewrite splitPath_loop_step;
    destruct (find path "/"%char start) as [e|] eqn:E.
  - apply find_bounds in E. lia.
  - destruct (Nat.ltb_spec start (String.length path)); [lia | assumption].
  - pose proof (find_bounds _ _ _ _ E) as Hb.
    apply IH; [lia|].
    destruct (Nat.eqb_spec e start) as [->|Hne]; [assumption|].
    apply Forall_app. split; [assumption|]. constructor; [|constructor].
    split.
    + intros H0. apply (f_equal String.length) in H0. unfold substr in H0.
      rewrite substring_length in H0 by lia. simpl in H0. lia.
    + unfold substr. apply find_piece_before. exact E.
  - destruct (Nat.ltb_spec start (String.length path)) as [Hlt|Hge]; [|assumption].
    apply Forall_app. split; [assumption|]. constructor; [|constructor].
    split.
    + intros H0. apply (f_equal String.length) in H0. unfold substr_from in H0.
      rewrite substring_length in H0 by lia. simpl in H0. lia.
    + unfold substr_from. apply find_piece_rest. exact E.
Qed.

Lemma splitPath_all_components (path : string) :
  Forall isComponent (splitPath path).
Proof.
  unfold splitPath.
  apply (splitPath_loop_components (S (String.length path))); [lia | constructor].
Qed.

(** X1: whatever the path, the components [splitPath] returns are not empty
    and hold no separator: leading, trailing and repeated separators leave
    no empty component behind. *)
Theorem splitPath_components (path : string) :
  Forall isComponent (splitPath path).
Proof. exact (splitPath_all_components path). Qed.

(** X2: joining the components of a path with the separator and splitting
    again gives the same components: [splitPath] brings every path to the
    form without leading, trailing and repeated separators. *)
Theorem splitPath_join_splitPath (path : string) :
  splitPath (join "/" (splitPath path)) = splitPath path.
Proof.
  pose proof (splitPath_all_components path) as Hall.
  destruct (splitPath path) as [|c rest] eqn:E; [reflexivity|].
  unfold splitPath.
  exact (splitPath_loop_join (c :: rest) (fun H => nil_cons (eq_sym H)) Hall "" []).
Qed.

(** ** The dimensions getDimInfo finds *)

Lemma positionsFrom_S (lo : Z) (n : nat) :
  positionsFrom lo (S n) = (lo + 1) :: positionsFrom (lo + 1) n.
Proof.
  unfold positionsFrom. simpl. rewrite Z.add_0_r. f_equal.
  rewrite <- seq_shift, map_map. apply map_ext. intros k. lia.
Qed.

Lemma positionsFrom_bounds (lo : Z) (n : nat) :
  Forall (fun i => lo < i <= lo + Z.of_nat n) (positionsFrom lo n).
Proof.
  revert lo; induction n as [|n IH]; intros lo; [constructor|].
  rewrite positionsFrom_S. constructor; [lia|].
  eapply Forall_impl; [|apply IH]. simpl. intros i Hi. lia.
Qed.

Lemma positionsFrom_sorted (lo : Z) (n : nat) :
  StronglySorted Z.lt (positionsFrom lo n).
Proof.
  revert lo; induction n as [|n IH]; intros lo; [constructor|].
  rewrite positionsFrom_S. constructor; [apply IH|].
  eapply Forall_impl; [|apply positionsFrom_bounds]. simpl. intros i Hi. lia.
Qed.

Lemma StronglySorted_filter {A : Type} (R : A -> A -> Prop) (f : A -> bool)
    (l : list A) :
  StronglySorted R l -> StronglySorted R (filter f l).
Proof.
  induction 1 as [|a l Hs IH Hall]; simpl; [constructor|].
  destruct (f a); [|assumption].
  constructor; [assumption|].
  apply Forall_forall. intros x Hx. apply filter_In in Hx as [Hx _].
  revert x Hx. now apply Forall_forall.
Qed.

Lemma continues_trans (a b c : string) :
  continues a b -> continues b c -> continues a c.
Proof.
  intros [r1 ->] [r2 ->]. exists (r1 ++ r2)%string. apply string_app_assoc.
Qed.

(** The loop of [getDimInfo]: it appends one dimension path and one index for
    every position it passes whose component stands for a dimension, and
    every path it appends continues the current one. *)
Lemma getDimInfo_loop_spec dp components (n : nat) :
  forall branchIdx cur dps idxs dps' idxs',
    QueryRunner.getDimInfo_loop dp components n branchIdx cur dps idxs =
      Ok (dps', idxs') ->
    exists ed,
      dps' = dps ++ ed /\
      idxs' = idxs ++ filter (isDimComponent dp components) (positionsFrom branchIdx n) /\
      List.length ed =
        List.length (filter (isDimComponent dp components) (positionsFrom branchIdx n)) /\
      Forall (fun d => continues cur d /\ d <> cur) ed /\
      StronglySorted continues ed.
Proof.
  induction n as [|n IH]; intros branchIdx cur dps idxs dps' idxs'.
  - simpl. intros [= <- <-]. exists []. rewrite !app_nil_r.
    repeat split; constructor.
  - rewrite positionsFrom_S. cbn [QueryRunner.getDimInfo_loop filter].
    destruct (vget components (branchIdx + 1)) as [c|] eqn:Ec; cbn [bind];
      [|discriminate].
    assert (Hdim : isDimComponent dp components (branchIdx + 1) =
                   isDimTyp (getTyp dp (branch c)))
      by (unfold isDimComponent; now rewrite Ec).
    rewrite Hdim.
    destruct (QueryRunner.stripTag _) as [inner|]; cbn [bind]; [|discriminate].
    fold (isDimTyp (getTyp dp (branch c))).
    assert (Hcur : continues cur (cur ++ "/" ++ inner) /\
                   (cur ++ "/" ++ inner)%string <> cur).
    { split; [eexists; reflexivity|].
      intros H. apply (f_equal String.length) in H.
      rewrite string_app_length in H. simpl in H. lia. }
    destruct (isDimTyp (getTyp dp (branch c))); intros H;
      apply IH in H as (ed & -> & -> & Hlen & Hcont & Hsorted).
    + exists ((cur ++ "/" ++ inner)%string :: ed).
      rewrite <- !app_assoc. cbn [app List.length].
      split; [reflexivity|]. split; [reflexivity|]. split; [now rewrite Hlen|].
      split.
      * constructor; [exact Hcur|].
        eapply Forall_impl; [|exact Hcont]. simpl. intros d [Hd Hne]. split.
        -- eapply continues_trans; [apply Hcur | exact Hd].
        -- intros ->. destruct Hd as [r Hr], Hcur as [_ Hcur].
           apply (f_equal String.length) in Hr.
           rewrite !string_app_length in Hr. simpl in Hr. lia.
      * constructor; [assumption|].
        eapply Forall_impl; [|exact Hcont]. simpl. now intros d [Hd _].
    + exists ed. split; [reflexivity|]. split; [reflexivity|].
      split; [assumption|]. split; [|assumption].
      eapply Forall_impl; [|exact Hcont]. simpl. intros d [Hd Hne]. split.
      * eapply continues_trans; [apply Hcur | exact Hd].
      * intros ->. destruct Hd as [r Hr].
        apply (f_equal String.length) in Hr.
        rewrite !string_app_length in Hr. simpl in Hr. lia.
Qed.

Lemma getDimInfo_spec dp components mnemonicCursor dimPaths dimIdxs :
  QueryRunner.getDimInfo dp components mnemonicCursor = Ok (dimPaths, dimIdxs) ->
  dimIdxs = 0 :: filter (isDimComponent dp components)
                   (positionsFrom 0 (Z.to_nat (mnemonicCursor + 1))) /\
  List.length dimPaths = List.length dimIdxs /\
  hd_error dimPaths = Some "*" /\
  StronglySorted Z.lt dimIdxs /\
  StronglySorted continues dimPaths.
Proof.
  unfold QueryRunner.getDimInfo.
  destruct (Z.leb_spec 0 mnemonicCursor) as [Hmc|Hmc].
  - intros H. apply getDimInfo_loop_spec in H as (ed & -> & -> & Hlen & Hcont & Hsorted).
    simpl. split; [reflexivity|]. split; [now rewrite Hlen|]. split; [reflexivity|].
    split.
    + constructor.
      * apply StronglySorted_filter, positionsFrom_sorted.
      * apply Forall_forall. intros i Hi. apply filter_In in Hi as [Hi _].
        pose proof (positionsFrom_bounds 0 (Z.to_nat (mnemonicCursor + 1))) as Hb.
        rewrite Forall_forall in Hb. apply Hb in Hi. exact (proj1 Hi).
    + constructor; [assumption|].
      eapply Forall_impl; [|exact Hcont]. simpl. now intros d [Hd _].
  - intros [= <- <-]. replace (Z.to_nat (mnemonicCursor + 1)) with 0%nat.
    + simpl. repeat split; repeat constructor.
    + lia.
Qed.

(** X3: the dimensions [getDimInfo] returns: the root ["*"] at index 0, and
    then, in order, one path and one index for exactly the positions
    [1 .. mnemonicCursor + 1] whose component is a delayed, fixed or stacked
    replication (a delayed binary makes no dimension); there are as many
    paths as indices, the indices grow strictly, and every path continues
    the one before. *)
Theorem getDimInfo_dims dp components mnemonicCursor dimPaths dimIdxs :
  QueryRunner.getDimInfo dp components mnemonicCursor = Ok (dimPaths, dimIdxs) ->
  dimIdxs = 0 :: filter (isDimComponent dp components)
                   (positionsFrom 0 (Z.to_nat (mnemonicCursor + 1))) /\
  List.length dimPaths = List.length dimIdxs /\
  hd_error dimPaths = Some "*" /\
  StronglySorted Z.lt dimIdxs /\
  StronglySorted continues dimPaths.
Proof. apply getDimInfo_spec. Qed.

Lemma getDimInfo_dims_witness :
  QueryRunner.getDimInfo exampleProvider (path (tempTarget (kelvin 1))) 0 =
    Ok (["*"; "*/OBS"], [0; 1]) /\
  StronglySorted Z.lt [0; 1].
Proof.
  split; [reflexivity|].
  apply (getDimInfo_dims exampleProvider (path (tempTarget (kelvin 1))) 0
           ["*"; "*/OBS"] [0; 1] eq_refl).
Defined.

(** ** What the node loop of findTarget keeps *)

Lemma map_set_nth {A B : Type} (f : A -> B) (l l' : list A) (n : nat) (a b : A) :
  nth_error l n = Some a -> f b = f a -> set_nth l n b = Some l' ->
  map f l' = map f l.
Proof.
  revert l' n; induction l as [|x l IH]; intros l' n Hn Hf Hs; simpl in Hs;
    [discriminate|].
  destruct n as [|n].
  - injection Hs as <-. simpl in Hn. injection Hn as ->. simpl. now rewrite Hf.
  - destruct (set_nth l n b) as [w|] eqn:E; simpl in Hs; [|discriminate].
    injection Hs as <-. simpl. f_equal. eapply IH; eassumption.
Qed.

Lemma map_vset {A B : Type} (f : A -> B) (l l' : list A) (i : Z) (a b : A) :
  vget l i = Ok a -> f b = f a -> vset l i b = Ok l' -> map f l' = map f l.
Proof.
  unfold vget, vset. destruct (i <? 0); [discriminate|].
  destruct (nth_error l (Z.to_nat i)) as [x|] eqn:En; [|discriminate].
  intros [= ->] Hf. destruct (set_nth l (Z.to_nat i) b) eqn:Es; [|discriminate].
  intros [= <-]. eapply map_set_nth; eassumption.
Qed.

Lemma StronglySorted_snoc (l : list Z) (x : Z) :
  StronglySorted Z.lt l -> Forall (fun y => y < x) l ->
  StronglySorted Z.lt (l ++ [x]).
Proof.
  induction 1 as [|a l Hs IH Hall]; intros Hx; simpl.
  - repeat constructor.
  - inversion Hx as [|? ? Ha Hl]; subst. constructor; [now apply IH|].
    apply Forall_app. split; [assumption | now constructor].
Qed.

Lemma scanInv_weaken dp query (b b' : Z) st :
  b <= b' -> scanInv dp query b st -> scanInv dp query b' st.
Proof.
  intros Hb (H1 & H2 & H3 & H4 & H5 & H6).
  repeat (split; [assumption|]). split; [|split; [assumption | split; assumption]].
  eapply Forall_impl; [|exact H3]. simpl. intros n (Hn & Ht & Hs).
  repeat split; try assumption; lia.
Qed.

(** The first half of the loop body keeps the invariant. *)
Lemma scanMatch_inv dp query nodeIdx st st' :
  getInode dp <= nodeIdx ->
  scanInv dp query nodeIdx st ->
  QueryRunner.scanMatch dp query nodeIdx st = Ok st' ->
  scanInv dp query (nodeIdx + 1) st'.
Proof.
  intros Hlo Hinv.
  assert (Hw : scanInv dp query (nodeIdx + 1) st)
    by (apply (scanInv_weaken dp query nodeIdx); [lia | assumption]).
  unfold QueryRunner.scanMatch.
  destruct (QueryRunner.isSeqTyp (getTyp dp nodeIdx)) eqn:Eseq.
  - destruct (QueryRunner.isQueryNode dp (nodeIdx - 1)); cbn [bind].
    + destruct (vget (q_path query) _) as [qc|]; cbn [bind]; [|discriminate].
      destruct (_ && _); cbn [bind].
      * destruct (vget (QueryRunner.sc_targetComponents st) _) as [c|] eqn:Ec;
          cbn [bind]; [|discriminate].
        destruct (vset (QueryRunner.sc_targetComponents st) _ _) as [comps|] eqn:Es;
          cbn [bind]; [|discriminate].
        intros [= <-]. destruct Hw as (H1 & H2 & H3 & H4 & H5 & H6).
        unfold scanInv. simpl.
        rewrite (map_vset queryComponent _ _ _ c
                   (QueryRunner.setBranch c (nodeIdx - 1)) Ec eq_refl Es).
        rewrite (map_vset type _ _ _ c
                   (QueryRunner.setBranch c (nodeIdx - 1)) Ec eq_refl Es).
        repeat (split; [assumption|]). assumption.
      * intros [= <-]. exact Hw.
    + intros [= <-]. exact Hw.
  - destruct (_ && _); [|intros [= <-]; exact Hw].
    destruct (vback (q_path query)) as [last|] eqn:El; cbn [bind]; [|discriminate].
    destruct (String.eqb_spec (getTag dp nodeIdx) (qc_name last)) as [Etag|_];
      [|intros [= <-]; exact Hw].
    destruct (QueryRunner.getDimInfo dp _ _) as [[dps idxs]|] eqn:Ed;
      cbn [bind]; [|discriminate].
    intros [= <-]. apply getDimInfo_spec in Ed as (Hi & Hlen & Hhd & Hsi & _).
    destruct Hinv as (H1 & H2 & H3 & H4 & H5 & H6).
    unfold scanInv.
    cbn [QueryRunner.sc_targetComponents QueryRunner.sc_targetNodes
         QueryRunner.sc_dimPaths QueryRunner.sc_dimIdxs].
    split; [assumption|]. split; [assumption|]. split.
    { apply Forall_app. split.
      - eapply Forall_impl; [|exact H3]. cbv beta. intros n (Hn & Ht & Hs).
        repeat split; try assumption; lia.
      - constructor; [|constructor]. split; [lia|]. split; [|assumption].
        exists last. split; [exact El | assumption]. }
    split.
    { apply StronglySorted_snoc; [assumption|].
      eapply Forall_impl; [|exact H3]. simpl. intros n (Hn & _). lia. }
    split; [assumption|]. intros _.
    split; [assumption|]. split; [|assumption]. rewrite Hi. reflexivity.
Qed.

Lemma rewind_inv dp query bound (n : nat) :
  forall rewindIdx st st',
    scanInv dp query bound st ->
    QueryRunner.rewind dp n rewindIdx st = Ok st' ->
    scanInv dp query bound st'.
Proof.
  induction n as [|n IH]; intros rewindIdx st st' Hinv; simpl.
  - now intros [= <-].
  - destruct (vget _ _) as [s|]; cbn [bind]; [|discriminate].
    destruct (if QueryRunner.isQueryNode dp (s - 1) then _ else _) as [tc mc].
    destruct (vpop _) as [sp|]; cbn [bind]; [|discriminate].
    apply IH. exact Hinv.
Qed.

Lemma scanNode_inv fuel dp query nodeIdx st st' :
  getInode dp <= nodeIdx ->
  scanInv dp query nodeIdx st ->
  QueryRunner.scanNode fuel dp query nodeIdx st = Some (Ok st') ->
  scanInv dp query (nodeIdx + 1) st'.
Proof.
  intros Hlo Hinv. unfold QueryRunner.scanNode.
  destruct (QueryRunner.scanMatch dp query nodeIdx st) as [st1|] eqn:Em; [|discriminate].
  apply scanMatch_inv in Em; [|assumption..].
  unfold QueryRunner.scanStepBack.
  destruct (1 <? _); [|now intros [= <-]].
  destruct (QueryRunner.jumpBack fuel dp nodeIdx) as [jb|]; [|discriminate].
  destruct (QueryRunner.findSeqIdx _ _ _) as [pathIdx|]; [|now intros [= <-]].
  intros [= H]. eapply rewind_inv; eassumption.
Qed.

Lemma scanLoop_inv fuel dp query (n : nat) :
  forall nodeIdx st st',
    getInode dp <= nodeIdx ->
    scanInv dp query nodeIdx st ->
    QueryRunner.scanLoop fuel dp query n nodeIdx st = Some (Ok st') ->
    scanInv dp query (nodeIdx + Z.of_nat n) st'.
Proof.
  induction n as [|n IH]; intros nodeIdx st st' Hlo Hinv; simpl QueryRunner.scanLoop.
  - intros [= <-]. now rewrite Z.add_0_r.
  - destruct (QueryRunner.scanNode fuel dp query nodeIdx st) as [[st1|]|] eqn:En;
      try discriminate.
    apply scanNode_inv in En; [|assumption..].
    intros H. apply IH in H; [|lia | assumption].
    replace (nodeIdx + Z.of_nat (S n)) with (nodeIdx + 1 + Z.of_nat n) by lia.
    exact H.
Qed.

Lemma initialComponents_queryComponents (query : Query) :
  map queryComponent (QueryRunner.initialComponents query) =
  q_subset query :: q_path query.
Proof.
  unfold QueryRunner.initialComponents.
  set (d := mkTargetComponent (q_subset query) 0 TCSubset).
  set (comps := d :: map _ (q_path query)).
  assert (Hc : map queryComponent comps = q_subset query :: q_path query).
  { unfold comps. simpl. f_equal. rewrite map_map. simpl. apply map_id. }
  rewrite <- Hc.
  transitivity (map queryComponent (removelast comps ++ [last comps d])).
  - rewrite !map_app. reflexivity.
  - rewrite <- app_removelast_last by (unfold comps; discriminate). reflexivity.
Qed.

(** The node loop, from its start to its end. *)
Lemma scan_inv fuel dp query st :
  QueryRunner.scan fuel dp query = Some (Ok st) ->
  scanInv dp query (getIsc dp (getInode dp) + 1) st.
Proof.
  unfold QueryRunner.scan. intros H.
  apply scanLoop_inv in H.
  - destruct (Z.le_gt_cases (getInode dp) (getIsc dp (getInode dp) + 1)).
    + rewrite Z2Nat.id in H by lia.
      replace (getInode dp + (getIsc dp (getInode dp) - getInode dp + 1))
        with (getIsc dp (getInode dp) + 1) in H by lia.
      exact H.
    + replace (Z.to_nat _) with 0%nat in H by lia.
      rewrite Z.add_0_r in H.
      destruct H as (H1 & H2 & H3 & H4 & H5 & H6).
      assert (QueryRunner.sc_targetNodes st = []) as Hnil.
      { destruct (QueryRunner.sc_targetNodes st) as [|n l]; [reflexivity|].
        inversion H3 as [|? ? (Hn & _) _]; subst. lia. }
      unfold scanInv. rewrite Hnil in *.
      repeat (split; [first [assumption | constructor]|]). intros []. reflexivity.
  - lia.
  - unfold scanInv. simpl.
    split; [apply initialComponents_queryComponents|].
    split; [reflexivity|]. split; [constructor|]. split; [constructor|].
    split; [reflexivity|]. intros []. reflexivity.
Qed.

Lemma narrowTargets_keeps (P : Z -> Prop) (index : Z) (targetNodes r : list Z) :
  QueryRunner.narrowTargets index targetNodes = Ok r ->
  Forall P targetNodes -> Forall P r.
Proof.
  unfold QueryRunner.narrowTargets, vget.
  destruct (_ && _); [|now intros [= <-]].
  destruct (_ <? 0); cbn [bind]; [discriminate|].
  destruct (nth_error targetNodes _) as [n|] eqn:E; cbn [bind]; [|discriminate].
  intros [= <-] Hall. constructor; [|constructor].
  rewrite Forall_forall in Hall. apply Hall. eapply nth_error_In; eassumption.
Qed.

(** [findTarget] on a query that applies to the subset, taken apart. *)
Lemma findTarget_inv decl fuel dp targetName query t :
  appliesTo query dp ->
  QueryRunner.findTarget decl fuel dp targetName query = Some (Ok t) ->
  exists st last targetNodes,
    QueryRunner.scan fuel dp query = Some (Ok st) /\
    vback (q_path query) = Ok last /\
    QueryRunner.narrowTargets (qc_index last) (QueryRunner.sc_targetNodes st) =
      Ok targetNodes /\
    QueryRunner.buildTarget decl dp targetName query st targetNodes = Ok t.
Proof.
  intros Happ. rewrite findTarget_applies by assumption.
  destruct (QueryRunner.scan fuel dp query) as [[st|]|]; try discriminate.
  unfold QueryRunner.finishTarget.
  destruct (vback (q_path query)) as [last|]; cbn [bind]; [|discriminate].
  destruct (QueryRunner.narrowTargets _ _) as [nodes|] eqn:En; cbn [bind];
    [|discriminate].
  intros [= H]. exists st, last, nodes. repeat split; assumption.
Qed.

(** X4: a target [findTarget] returns for a query that applies to the subset
    is either unresolved (node 0, the fresh type information, the one
    dimension ["*"]) or sits on a node of the subset that carries the name of
    the last component of the query, is no sequence, and gives the target its
    type information; either way the dimension paths start with ["*"], the
    exported dimensions with 0, and there are as many of the ones as of the
    others. *)
Theorem findTarget_node decl fuel dp targetName query t :
  appliesTo query dp ->
  QueryRunner.findTarget decl fuel dp targetName query = Some (Ok t) ->
  exists last,
    vback (q_path query) = Ok last /\
    hd_error (dimPaths t) = Some "*" /\
    hd_error (exportDimIdxs t) = Some 0 /\
    List.length (dimPaths t) = List.length (exportDimIdxs t) /\
    ((nodeIdx t = 0 /\ typeInfo t = TypeInfo_default decl /\
      dimPaths t = ["*"] /\ exportDimIdxs t = [0]) \/
     (getInode dp <= nodeIdx t <= getIsc dp (getInode dp) /\
      getTag dp (nodeIdx t) = qc_name last /\
      QueryRunner.isSeqTyp (getTyp dp (nodeIdx t)) = false /\
      typeInfo t = getTypeInfo dp (nodeIdx t))).
Proof.
  intros Happ H.
  apply findTarget_inv in H as (st & last & nodes & Hscan & Hlast & Hnarrow & Hbuild);
    [|assumption].
  apply scan_inv in Hscan as (_ & _ & Hnodes & _ & Hlen & Hdims).
  pose proof (narrowTargets_keeps _ _ _ _ Hnarrow Hnodes) as Hkept.
  exists last. split; [assumption|].
  unfold QueryRunner.buildTarget in Hbuild.
  destruct (1 <? vsize nodes); [discriminate|].
  destruct nodes as [|n rest]; injection Hbuild as <-; simpl.
  - repeat (split; [reflexivity|]). left. repeat split.
  - assert (Hne : QueryRunner.sc_targetNodes st <> []).
    { intros Hnil. unfold QueryRunner.narrowTargets in Hnarrow. rewrite Hnil in Hnarrow.
      destruct (_ && _); cbn [vget] in Hnarrow; [|discriminate].
      unfold vget in Hnarrow. destruct (_ <? 0); [discriminate|].
      destruct (Z.to_nat _); discriminate. }
    destruct (Hdims Hne) as (Hd & Hi & _).
    repeat (split; [assumption|]). right.
    inversion Hkept as [|? ? (Hn & (last' & Hl' & Htag) & Hseq) _]; subst.
    rewrite Hlast in Hl'. injection Hl' as <-.
    repeat split; try assumption; lia.
Qed.

Lemma findTarget_node_witness :
  getTag exampleProvider
    (nodeIdx (tempTarget (kelvin 1))) = "TEMP" /\
  List.length (dimPaths (tempTarget (kelvin 1))) = 2%nat.
Proof.
  destruct (findTarget_node exampleDecl 10 exampleProvider "temp" tempQuery
              (tempTarget (kelvin 1)) (or_introl eq_refl) eq_refl)
    as (last & Hlast & _ & _ & Hlen & Hcase).
  injection Hlast as <-.
  split; [|reflexivity].
  destruct Hcase as [(H0 & _)|(_ & Htag & _)]; [discriminate | exact Htag].
Defined.

Lemma removelast_repeat_types (l : list QueryComponent) :
  map type (removelast (map (fun pc => mkTargetComponent pc 0 TCRepeat) l)) =
  repeat TCRepeat (List.length l - 1).
Proof.
  induction l as [|x l IH]; [reflexivity|].
  destruct l as [|y l]; [reflexivity|].
  cbn [map] in IH |- *. cbn [removelast] in IH |- *. cbn [map].
  rewrite IH. cbn [List.length type]. rewrite !Nat.sub_succ, !Nat.sub_0_r.
  reflexivity.
Qed.

Lemma initialComponents_types (query : Query) :
  q_path query <> [] ->
  map type (QueryRunner.initialComponents query) =
  TCSubset :: repeat TCRepeat (List.length (q_path query) - 1) ++ [TCValue].
Proof.
  intros Hne. unfold QueryRunner.initialComponents.
  destruct (q_path query) as [|x l] eqn:E; [congruence|].
  rewrite <- removelast_repeat_types.
  set (m := map (fun pc => mkTargetComponent pc 0 TCRepeat) (x :: l)).
  assert (Hm : m <> []) by (unfold m; discriminate).
  destruct m as [|y m'] eqn:Em; [congruence|].
  change (removelast (mkTargetComponent (q_subset query) 0 TCSubset :: y :: m'))
    with (mkTargetComponent (q_subset query) 0 TCSubset :: removelast (y :: m')).
  rewrite <- app_comm_cons, map_cons, map_app. reflexivity.
Qed.

Lemma filter_by_type (p : TargetComponentType -> bool) (l : TargetComponents) :
  List.length (filter (fun c => p (type c)) l) =
  List.length (filter p (map type l)).
Proof.
  induction l as [|c l IH]; simpl; [reflexivity|].
  destruct (p (type c)); simpl; now rewrite IH.
Qed.

(** X5: the target [findTarget] returns for a query that applies to the
    subset carries the name it was asked for and the string of the query, and
    its path mirrors the query: the subset component followed by the
    components of the query path, typed subset, repeat ..., value; its
    [seqPath] has one node for each component of the query path but the
    last. *)
Theorem findTarget_path decl fuel dp targetName query t :
  appliesTo query dp ->
  QueryRunner.findTarget decl fuel dp targetName query = Some (Ok t) ->
  name t = targetName /\
  queryStr t = q_queryStr query /\
  map queryComponent (path t) = q_subset query :: q_path query /\
  map type (path t) =
    TCSubset :: repeat TCRepeat (List.length (q_path query) - 1) ++ [TCValue] /\
  List.length (seqPath t) = (List.length (q_path query) - 1)%nat.
Proof.
  intros Happ H.
  apply findTarget_inv in H as (st & last & nodes & Hscan & Hlast & Hnarrow & Hbuild);
    [|assumption].
  apply scan_inv in Hscan as (Hqc & Hty & _).
  assert (Hne : q_path query <> []).
  { intros Hnil. rewrite Hnil in Hlast. discriminate. }
  rewrite initialComponents_types in Hty by assumption.
  assert (Hseq : List.length (seqPathOf (QueryRunner.sc_targetComponents st)) =
                 (List.length (q_path query) - 1)%nat).
  { unfold seqPathOf. rewrite length_map.
    rewrite (filter_by_type (fun ty => match ty with TCRepeat => true | _ => false end)).
    rewrite Hty. simpl. rewrite filter_app. simpl. rewrite app_nil_r.
    generalize (List.length (q_path query) - 1)%nat. intros k.
    induction k as [|k IHk]; simpl; [reflexivity | now rewrite IHk]. }
  unfold QueryRunner.buildTarget in Hbuild.
  destruct (1 <? vsize nodes); [discriminate|].
  destruct nodes as [|n rest]; injection Hbuild as <-; simpl;
    repeat split; assumption.
Qed.

Lemma findTarget_path_witness :
  map type (path (tempTarget (kelvin 1))) = [TCSubset; TCRepeat; TCValue] /\
  seqPath (tempTarget (kelvin 1)) = [2].
Proof.
  destruct (findTarget_path exampleDecl 10 exampleProvider "temp" tempQuery
              (tempTarget (kelvin 1)) (or_introl eq_refl) eq_refl)
    as (_ & _ & _ & Hty & _).
  split; [exact Hty | reflexivity].
Defined.

(** ** What the pass over the value stream leaves in the table *)

Lemma tableStep_refl (t : OffsetArray NodeData) :
  tableStep t t (fun _ => []) (fun _ => 0%nat).
Proof.
  split; [reflexivity|]. split; [reflexivity|].
  intros j nd H. exists nd. rewrite app_nil_r, Nat.add_0_r. auto.
Qed.

Lemma tableStep_trans (t1 t2 t3 : OffsetArray NodeData) dv1 dc1 dv2 dc2 :
  tableStep t1 t2 dv1 dc1 -> tableStep t2 t3 dv2 dc2 ->
  tableStep t1 t3 (fun j => dv1 j ++ dv2 j) (fun j => (dc1 j + dc2 j)%nat).
Proof.
  intros (Ho1 & Hl1 & H1) (Ho2 & Hl2 & H2).
  split; [congruence|]. split; [congruence|].
  intros j nd H. apply H1 in H as (nd1 & Hg1 & Hv1 & Hc1).
  apply H2 in Hg1 as (nd2 & Hg2 & Hv2 & Hc2).
  exists nd2. split; [assumption|]. split.
  - rewrite Hv2, Hv1, app_assoc. reflexivity.
  - lia.
Qed.

Lemma tableStep_ext (t t' : OffsetArray NodeData) dv dc dv' dc' :
  (forall j, dv j = dv' j) -> (forall j, dc j = dc' j) ->
  tableStep t t' dv dc -> tableStep t t' dv' dc'.
Proof.
  intros Hv Hc (Ho & Hl & H). split; [assumption|]. split; [assumption|].
  intros j nd Hj. apply H in Hj as (nd' & Hg & Hv' & Hc').
  exists nd'. rewrite <- Hv, <- Hc. auto.
Qed.

Lemma set_nth_length {A : Type} (v v' : list A) (n : nat) (a : A) :
  set_nth v n a = Some v' -> List.length v' = List.length v.
Proof.
  revert v' n; induction v as [|x v IH]; intros v' n H; simpl in H; [discriminate|].
  destruct n as [|n].
  - injection H as <-. reflexivity.
  - destruct (set_nth v n a) as [w|] eqn:E; simpl in H; [|discriminate].
    injection H as <-. simpl. f_equal. eapply IH; eassumption.
Qed.

Lemma vset_length {A : Type} (v v' : list A) (i : Z) (a : A) :
  vset v i a = Ok v' -> List.length v' = List.length v.
Proof. intros H. apply vset_inv in H as [_ H]. eapply set_nth_length; eassumption. Qed.

(** An entry of the table replaced by one with more values and counts. *)
Lemma oa_set_step (t t' : OffsetArray NodeData) (i : Z) (nd nd2 : NodeData)
    (v : list double) (c : nat) :
  oa_get t i = Ok nd -> oa_set t i nd2 = Ok t' ->
  values nd2 = values nd ++ v ->
  List.length (counts nd2) = (List.length (counts nd) + c)%nat ->
  tableStep t t' (fun j => if j =? i then v else [])
                 (fun j => if j =? i then c else 0%nat).
Proof.
  intros Hget Hset Hv Hc.
  pose proof (oa_get_set_same _ _ _ _ Hset) as Hsame.
  pose proof (fun j => oa_get_set_other _ _ _ j _ Hset) as Hother.
  unfold oa_set in Hset.
  destruct (vset (storage t) (i - offset t) nd2) as [s|] eqn:Es; cbn [bind] in Hset;
    [|discriminate].
  injection Hset as <-. split; [reflexivity|]. split.
  - simpl. eapply vset_length; eassumption.
  - intros j ndj Hj. destruct (Z.eqb_spec j i) as [->|Hne].
    + exists nd2. rewrite Hget in Hj. injection Hj as <-. auto.
    + exists ndj. rewrite Hother by assumption.
      rewrite app_nil_r, Nat.add_0_r. auto.
Qed.

Lemma pushValue_step (t t' : OffsetArray NodeData) (i : Z) (v : double) :
  QueryRunner.pushValue t i v = Ok t' ->
  tableStep t t' (fun j => if j =? i then [v] else []) (fun _ => 0%nat).
Proof.
  unfold QueryRunner.pushValue.
  destruct (oa_get t i) as [nd|] eqn:E; cbn [bind]; [|discriminate].
  intros H. eapply tableStep_ext;
    [| |eapply (oa_set_step t t' i nd _ [v] 0); [eassumption..|reflexivity|simpl; lia]].
  - reflexivity.
  - intros j. cbv beta. destruct (j =? i); reflexivity.
Qed.

Lemma pushCount_step (t t' : OffsetArray NodeData) (i c : Z) :
  QueryRunner.pushCount t i c = Ok t' ->
  tableStep t t' (fun _ => []) (fun j => if j =? i then 1%nat else 0%nat).
Proof.
  unfold QueryRunner.pushCount.
  destruct (oa_get t i) as [nd|] eqn:E; cbn [bind]; [|discriminate].
  intros H. eapply tableStep_ext;
    [| |eapply (oa_set_step t t' i nd _ [] 1);
         [eassumption..|simpl; now rewrite app_nil_r|simpl; rewrite length_app; reflexivity]].
  - intros j. cbv beta. destruct (j =? i); reflexivity.
  - reflexivity.
Qed.

Lemma vback_nonempty {A : Type} (v : list A) (a : A) :
  vback v = Ok a -> v <> [].
Proof. destruct v; [discriminate | discriminate]. Qed.

Lemma bumpLastCount_step (t t' : OffsetArray NodeData) (i d : Z) :
  QueryRunner.bumpLastCount t i d = Ok t' ->
  tableStep t t' (fun _ => []) (fun _ => 0%nat).
Proof.
  unfold QueryRunner.bumpLastCount.
  destruct (oa_get t i) as [nd|] eqn:E; cbn [bind]; [|discriminate].
  destruct (vback (counts nd)) as [c|] eqn:Eb; cbn [bind]; [|discriminate].
  intros H. eapply tableStep_ext;
    [| |eapply (oa_set_step t t' i nd _ [] 0); [eassumption..| |]].
  - intros j. cbv beta. destruct (j =? i); reflexivity.
  - intros j. cbv beta. destruct (j =? i); reflexivity.
  - simpl. now rewrite app_nil_r.
  - simpl. rewrite length_app, Nat.add_0_r. simpl.
    apply vback_nonempty in Eb.
    rewrite removelast_is_firstn, length_firstn.
    destruct (counts nd); [congruence | simpl; lia].
Qed.

Lemma captureValue_step dp masks dataCursor st st' :
  QueryRunner.captureValue dp masks dataCursor st = Ok st' ->
  tableStep (QueryRunner.dataTable st) (QueryRunner.dataTable st')
    (fun j => captured dp masks j [dataCursor]) (fun _ => 0%nat).
Proof.
  unfold QueryRunner.captureValue, captured, maskAt. simpl filter.
  destruct (vget (valueNodeMask masks) (getInv dp dataCursor)) as [[|]|];
    cbn [bind]; try discriminate.
  - destruct (QueryRunner.pushValue _ _ _) as [t|] eqn:E; cbn [bind]; [|discriminate].
    intros [= <-]. simpl. apply pushValue_step in E.
    eapply tableStep_ext; [| |exact E]; [|reflexivity].
    intros j. rewrite andb_true_r, Z.eqb_sym.
    destruct (getInv dp dataCursor =? j); reflexivity.
  - intros [= <-]. eapply tableStep_ext; [| |apply tableStep_refl]; [|reflexivity].
    intros j. rewrite andb_false_r. reflexivity.
Qed.

Lemma countSequence_step dp masks dataCursor st st' :
  QueryRunner.countSequence dp masks dataCursor st = Ok st' ->
  tableStep (QueryRunner.dataTable st) (QueryRunner.dataTable st')
    (fun _ => []) (fun _ => 0%nat).
Proof.
  unfold QueryRunner.countSequence. repeat ok_step; try apply tableStep_refl.
  simpl. eapply bumpLastCount_step; eassumption.
Qed.

Lemma exitLoop_step dp (n : nat) :
  forall st st',
    QueryRunner.exitLoop dp n st = Ok st' ->
    tableStep (QueryRunner.dataTable st) (QueryRunner.dataTable st')
      (fun _ => []) (fun _ => 0%nat).
Proof.
  induction n as [|n IH]; intros st st'; simpl.
  - intros [= <-]. apply tableStep_refl.
  - repeat ok_step.
    intros H. apply IH in H. simpl in H.
    match goal with
    | Et : (if _ then _ else _) = Ok ?t |- _ =>
        assert (Ht : tableStep (QueryRunner.dataTable st) t
                       (fun _ => []) (fun _ => 0%nat))
    end.
    { match goal with
      | Et : (if ?b then _ else _) = Ok _ |- _ => destruct b
      end.
      - eapply bumpLastCount_step; eassumption.
      - match goal with Et : Ok _ = Ok _ |- _ => injection Et as <- end.
        apply tableStep_refl. }
    eapply tableStep_ext; [| |eapply tableStep_trans; [exact Ht | exact H]];
      reflexivity.
Qed.

Lemma checkExit_step dp dataCursor st st' :
  QueryRunner.checkExit dp dataCursor st = Ok st' ->
  tableStep (QueryRunner.dataTable st) (QueryRunner.dataTable st')
    (fun _ => []) (fun _ => 0%nat).
Proof.
  unfold QueryRunner.checkExit. repeat ok_step; try apply tableStep_refl.
  simpl. eapply exitLoop_step; eassumption.
Qed.

Lemma openSequence_step dp masks dataCursor st st' :
  QueryRunner.openSequence dp masks dataCursor st = Ok st' ->
  tableStep (QueryRunner.dataTable st) (QueryRunner.dataTable st')
    (fun _ => []) (fun j => opened dp masks j [dataCursor]).
Proof.
  unfold QueryRunner.openSequence, opened, maskAt. simpl filter.
  destruct (vget (pathNodeMask masks) (getInv dp dataCursor)) as [m|];
    cbn [bind]; [|discriminate].
  destruct (m && QueryRunner.isQueryNode dp (getInv dp dataCursor)) eqn:Em.
  - match goal with
    | |- bind ?x _ = Ok _ -> _ => destruct x as [st1|] eqn:E1; cbn [bind]; [|discriminate]
    end.
    destruct (QueryRunner.pushCount _ _ _) as [t|] eqn:Ep; cbn [bind]; [|discriminate].
    intros [= <-]. simpl.
    assert (Ht : QueryRunner.dataTable st1 = QueryRunner.dataTable st).
    { revert E1. repeat ok_step; try reflexivity.
      match goal with
      | |- (let '(_, _) := ?x in _) = _ -> _ => destruct x
      end.
      now intros [= <-]. }
    rewrite Ht in Ep. apply pushCount_step in Ep.
    eapply tableStep_ext; [| |exact Ep]; [reflexivity|].
    intros j. cbv beta. rewrite Z.eqb_sym.
    destruct (getInv dp dataCursor + 1 =? j); reflexivity.
  - intros [= <-]. eapply tableStep_ext; [| |apply tableStep_refl]; [reflexivity|].
    intros j. cbv beta. rewrite andb_false_r. reflexivity.
Qed.

(** One step of the pass: the value of the cursor is captured, if the value
    mask of its node is set, and a count is opened behind its node, if the
    node opens a replication. *)
Lemma collectStep_step dp masks dataCursor st st' :
  QueryRunner.collectStep dp masks dataCursor st = Ok st' ->
  tableStep (QueryRunner.dataTable st) (QueryRunner.dataTable st')
    (fun j => captured dp masks j [dataCursor])
    (fun j => opened dp masks j [dataCursor]).
Proof.
  unfold QueryRunner.collectStep.
  destruct (QueryRunner.captureValue _ _ _ _) as [st1|] eqn:E1; cbn [bind]; [|discriminate].
  destruct (QueryRunner.countSequence _ _ _ _) as [st2|] eqn:E2; cbn [bind]; [|discriminate].
  destruct (QueryRunner.checkExit _ _ _) as [st3|] eqn:E3; cbn [bind]; [|discriminate].
  intros E4.
  apply captureValue_step in E1. apply countSequence_step in E2.
  apply checkExit_step in E3. apply openSequence_step in E4.
  eapply tableStep_ext;
    [| |exact (tableStep_trans _ _ _ _ _ _ _
                 (tableStep_trans _ _ _ _ _ _ _
                    (tableStep_trans _ _ _ _ _ _ _ E1 E2) E3) E4)].
  - intros j. cbv beta. now rewrite !app_nil_r.
  - intros j. reflexivity.
Qed.

Lemma captured_cons dp masks j c cs :
  captured dp masks j (c :: cs) = captured dp masks j [c] ++ captured dp masks j cs.
Proof.
  unfold captured. simpl. destruct (_ && _); reflexivity.
Qed.

Lemma opened_cons dp masks j c cs :
  opened dp masks j (c :: cs) = (opened dp masks j [c] + opened dp masks j cs)%nat.
Proof.
  unfold opened. simpl. destruct (_ && _); reflexivity.
Qed.

Lemma collectLoop_step dp masks (n : nat) :
  forall dataCursor st st',
    QueryRunner.collectLoop dp masks n dataCursor st = Ok st' ->
    tableStep (QueryRunner.dataTable st) (QueryRunner.dataTable st')
      (fun j => captured dp masks j (positionsFrom (dataCursor - 1) n))
      (fun j => opened dp masks j (positionsFrom (dataCursor - 1) n)).
Proof.
  induction n as [|n IH]; intros dataCursor st st'; simpl QueryRunner.collectLoop.
  - intros [= <-]. apply tableStep_refl.
  - destruct (QueryRunner.collectStep _ _ _ _) as [st1|] eqn:E1; cbn [bind];
      [|discriminate].
    intros H. apply collectStep_step in E1. apply IH in H.
    eapply tableStep_ext; [| |exact (tableStep_trans _ _ _ _ _ _ _ E1 H)].
    + intros j. cbv beta. rewrite positionsFrom_S.
      replace (dataCursor - 1 + 1) with dataCursor by lia.
      replace (dataCursor + 1 - 1) with dataCursor by lia.
      symmetry. apply captured_cons.
    + intros j. cbv beta. rewrite positionsFrom_S.
      replace (dataCursor - 1 + 1) with dataCursor by lia.
      replace (dataCursor + 1 - 1) with dataCursor by lia.
      symmetry. apply opened_cons.
Qed.

Lemma vget_defined_by_length {A : Type} (v v' : list A) (i : Z) (a : A) :
  vget v i = Ok a -> List.length v' = List.length v -> exists b, vget v' i = Ok b.
Proof.
  unfold vget. destruct (i <? 0); [discriminate|].
  destruct (nth_error v (Z.to_nat i)) eqn:E; [|discriminate]. intros _ Hlen.
  destruct (nth_error v' (Z.to_nat i)) as [b|] eqn:E'; [eexists; reflexivity|].
  apply nth_error_None in E'.
  assert (Z.to_nat i < List.length v)%nat by (apply nth_error_Some; congruence).
  lia.
Qed.

Lemma oa_make_get {A : Type} (d a : A) (lo hi j : Z) :
  oa_get (oa_make d lo hi) j = Ok a -> a = d.
Proof.
  unfold oa_get, oa_make, vget. simpl. destruct (_ <? 0); [discriminate|].
  destruct (nth_error _ _) as [x|] eqn:E; [|discriminate].
  intros [= <-]. apply nth_error_In, repeat_spec in E. exact E.
Qed.

(** The table after the pass over the value stream: every node holds the
    values of the stream at its cursors, in stream order, if its value mask
    is set (none otherwise), and one count for every opening of the
    replication node in front of it. *)
Lemma collectTable_spec dp masks table :
  QueryRunner.collectTable dp masks = Ok table ->
  forall j nd, oa_get table j = Ok nd ->
    values nd = captured dp masks j (cursors dp) /\
    List.length (counts nd) = opened dp masks j (cursors dp).
Proof.
  unfold QueryRunner.collectTable.
  destruct (QueryRunner.collectLoop _ _ _ _ _) as [st|] eqn:E; cbn [bind]; [|discriminate].
  intros [= <-] j nd Hj.
  apply collectLoop_step in E as (Ho & Hl & Hstep).
  assert (H0 : exists nd0, oa_get (QueryRunner.dataTable (QueryRunner.initialState dp)) j
                           = Ok nd0).
  { unfold oa_get in *. rewrite <- Ho.
    eapply vget_defined_by_length; [exact Hj | now symmetry]. }
  destruct H0 as [nd0 H0]. pose proof H0 as Hinit.
  apply oa_make_get in Hinit. subst nd0.
  apply Hstep in H0 as (nd' & Hg & Hv & Hc).
  rewrite Hj in Hg. injection Hg as <-.
  simpl in Hv, Hc. unfold cursors. replace (1 - 1) with 0 in * by lia. auto.
Qed.

(** The field of a target of [collectData], with the table it was made
    from. *)
Lemma collectData_inv dp targets masks fields i targ f :
  QueryRunner.collectData dp targets masks = Ok fields ->
  nth_error targets i = Some targ ->
  nth_error fields i = Some f ->
  exists table,
    QueryRunner.collectTable dp masks = Ok table /\
    QueryRunner.fieldFor table targ = Ok f.
Proof.
  unfold QueryRunner.collectData.
  destruct (QueryRunner.collectTable dp masks) as [table|]; cbn [bind]; [|discriminate].
  intros H Ht Hf. apply fieldsFor_spec in H as [_ Hnth].
  destruct (Hnth i targ Ht) as (f' & Hf' & Hfield).
  exists table. split; [reflexivity|]. congruence.
Qed.

(** X6: in the frame [collectData] produces, the data of a resolved target
    are the values of the stream at the cursors that stand on the node of the
    target, in stream order, when the value mask of that node is set, and
    there are none when it is not set. *)
Theorem collectData_values dp targets masks fields i targ f :
  QueryRunner.collectData dp targets masks = Ok fields ->
  nth_error targets i = Some targ ->
  nth_error fields i = Some f ->
  nodeIdx targ <> 0 ->
  data f = captured dp masks (nodeIdx targ) (cursors dp) /\
  (maskAt (valueNodeMask masks) (nodeIdx targ) = false -> data f = []).
Proof.
  intros H Ht Hf Hres.
  destruct (collectData_inv _ _ _ _ _ _ _ H Ht Hf) as (table & Htable & Hfield).
  apply fieldFor_spec in Hfield as (_ & _ & Hr).
  destruct (Hr Hres) as (_ & _ & _ & nd & Hnd & Hdata).
  destruct (collectTable_spec _ _ _ Htable _ _ Hnd) as [Hv _].
  assert (Hd : data f = captured dp masks (nodeIdx targ) (cursors dp)) by congruence.
  split; [exact Hd|].
  intros Hmask. rewrite Hd. clear - Hmask. unfold captured.
  induction (cursors dp) as [|c cs IH]; [reflexivity|].
  cbn [filter].
  destruct (Z.eqb_spec (getInv dp c) (nodeIdx targ)) as [->|]; cbn [andb]; [|exact IH].
  rewrite Hmask. exact IH.
Qed.

Lemma collectData_values_witness :
  data (mkDataField resolvedTemp [2731#10; 2742#10] [[1]; [2]]) =
    captured exampleProvider exampleMasks (nodeIdx resolvedTemp)
      (cursors exampleProvider) /\
  captured exampleProvider exampleMasks (nodeIdx resolvedTemp)
    (cursors exampleProvider) = [2731#10; 2742#10].
Proof.
  split; [|reflexivity].
  apply (collectData_values exampleProvider [resolvedTemp; unresolvedTarget]
           exampleMasks _ 0%nat resolvedTemp _ eq_refl eq_refl eq_refl).
  discriminate.
Defined.

(** X7: in the frame [collectData] produces, the counts a resolved target
    has for a node of its [seqPath] have one entry for every cursor of the
    stream at which that node opened a replication (its path mask is set and
    it is a query node), an absent delayed binary included. *)
Theorem collectData_counts_length dp targets masks fields i targ f k s cs :
  QueryRunner.collectData dp targets masks = Ok fields ->
  nth_error targets i = Some targ ->
  nth_error fields i = Some f ->
  nodeIdx targ <> 0 ->
  nth_error (seqPath targ) k = Some s ->
  nth_error (seqCounts f) (S k) = Some cs ->
  List.length cs = opened dp masks (s + 1) (cursors dp).
Proof.
  intros H Ht Hf Hres Hs Hcs.
  destruct (collectData_inv _ _ _ _ _ _ _ H Ht Hf) as (table & Htable & Hfield).
  apply fieldFor_spec in Hfield as (_ & _ & Hr).
  destruct (Hr Hres) as (_ & _ & Hcounts & _).
  destruct (Hcounts k s Hs) as (nd & Hnd & Hc).
  destruct (collectTable_spec _ _ _ Htable _ _ Hnd) as [_ Hlen].
  congruence.
Qed.

Lemma collectData_counts_length_witness :
  List.length [2] = opened exampleProvider exampleMasks (2 + 1) (cursors exampleProvider) /\
  opened exampleProvider exampleMasks (2 + 1) (cursors exampleProvider) = 1%nat.
Proof.
  split; [|reflexivity].
  apply (collectData_counts_length exampleProvider
           [resolvedTemp; unresolvedTarget] exampleMasks _ 0%nat resolvedTemp _
           0%nat 2 [2] eq_refl eq_refl eq_refl);
    [discriminate | reflexivity | reflexivity].
Defined.

(** ** The first loop of getRawValues, frame by frame *)

Lemma dimsFrame_target targetIdx frame st st' :
  ResultSet.dimsFrame targetIdx frame st = Ok st' ->
  exists target,
    frameTarget targetIdx frame = Some target /\
    path target <> [] /\
    ResultSet.ds_target st' = target /\
    (ResultSet.ds_dimPaths st', ResultSet.ds_exportDims st') =
      if negb (Nat.eqb (List.length (dimPaths target)) 0) &&
         (vsize (ResultSet.ds_dimPaths st) <? vsize (dimPaths target))
      then (dimPaths target, exportDimIdxs target)
      else (ResultSet.ds_dimPaths st, ResultSet.ds_exportDims st).
Proof.
  unfold ResultSet.dimsFrame.
  destruct (vat (ResultSet.getTargets frame) targetIdx) as [target|] eqn:Et;
    cbn [bind]; [|discriminate].
  apply vat_frameTarget in Et.
  destruct (path target) as [|p0 ps] eqn:Ep; [discriminate|].
  destruct (ResultSet.pathLoop _ _ _ _ _) as [[dl j]|]; cbn [bind]; [|discriminate].
  intros H. exists target. rewrite Ep.
  split; [exact Et|]. split; [discriminate|].
  destruct (_ && _); injection H as <-; split; reflexivity.
Qed.

(** Every frame has a target at the index of the field, with a path, and
    the loop ends with the target of the last frame. *)
Lemma dimsLoop_targets targetIdx frames :
  forall st st',
    ResultSet.dimsLoop targetIdx frames st = Ok st' ->
    Forall (fun f => exists t, frameTarget targetIdx f = Some t /\ path t <> []) frames /\
    ResultSet.ds_target st' = lastTarget targetIdx frames (ResultSet.ds_target st).
Proof.
  induction frames as [|f frames IH]; intros st st'; simpl.
  - intros [= <-]. split; [constructor | reflexivity].
  - destruct (ResultSet.dimsFrame targetIdx f st) as [st1|] eqn:E1;
      cbn [bind]; [|discriminate].
    intros H. apply IH in H as [Hall Hlast].
    apply dimsFrame_target in E1 as (t & Ht & Hp & Htarg & _).
    split.
    + constructor; [exists t; split; assumption | exact Hall].
    + rewrite Hlast, Htarg. unfold lastTarget. simpl. now rewrite Ht.
Qed.

Lemma lastTarget_last targetIdx frames prev :
  frames <> [] ->
  Forall (fun f => exists t, frameTarget targetIdx f = Some t /\ path t <> []) frames ->
  exists f,
    nth_error frames (Nat.pred (List.length frames)) = Some f /\
    frameTarget targetIdx f = Some (lastTarget targetIdx frames prev).
Proof.
  intros Hne Hall. revert prev.
  induction Hall as [|f frames (t & Ht & _) Hall IH]; intros prev; [congruence|].
  destruct frames as [|f2 frames].
  - exists f. split; [reflexivity|]. unfold lastTarget. simpl. now rewrite Ht.
  - destruct (IH ltac:(discriminate) t) as (g & Hg & Hlast).
    exists g. split; [exact Hg|].
    unfold lastTarget in *. cbn [fold_left] in *. rewrite Ht. exact Hlast.
Qed.

(** The dimension paths the loop ends with are those of the first frame
    whose target has more of them than every frame before and than the
    start; no target has more than these. *)
Lemma dimsLoop_dimPaths targetIdx frames :
  forall st st',
    ResultSet.dimsLoop targetIdx frames st = Ok st' ->
    (List.length (ResultSet.ds_dimPaths st) <= List.length (ResultSet.ds_dimPaths st'))%nat /\
    (forall f t, In f frames -> frameTarget targetIdx f = Some t ->
       (List.length (dimPaths t) <= List.length (ResultSet.ds_dimPaths st'))%nat) /\
    ((ResultSet.ds_dimPaths st' = ResultSet.ds_dimPaths st /\
      ResultSet.ds_exportDims st' = ResultSet.ds_exportDims st) \/
     exists i f t,
       nth_error frames i = Some f /\
       frameTarget targetIdx f = Some t /\
       dimPaths t = ResultSet.ds_dimPaths st' /\
       exportDimIdxs t = ResultSet.ds_exportDims st' /\
       (List.length (ResultSet.ds_dimPaths st) < List.length (dimPaths t))%nat /\
       forall i' f' t',
         (i' < i)%nat -> nth_error frames i' = Some f' ->
         frameTarget targetIdx f' = Some t' ->
         (List.length (dimPaths t') < List.length (dimPaths t))%nat).
Proof.
  induction frames as [|f frames IH]; intros st st'; simpl.
  - intros [= <-]. split; [lia|]. split; [intros f t []|]. left. split; reflexivity.
  - destruct (ResultSet.dimsFrame targetIdx f st) as [st1|] eqn:E1;
      cbn [bind]; [|discriminate].
    intros H. apply IH in H as (Hle & Hall & Hwhich).
    apply dimsFrame_target in E1 as (t & Ht & _ & _ & Hupd).
    assert (Hcase :
              (ResultSet.ds_dimPaths st1 = dimPaths t /\
               ResultSet.ds_exportDims st1 = exportDimIdxs t /\
               (List.length (ResultSet.ds_dimPaths st) < List.length (dimPaths t))%nat) \/
              (ResultSet.ds_dimPaths st1 = ResultSet.ds_dimPaths st /\
               ResultSet.ds_exportDims st1 = ResultSet.ds_exportDims st /\
               (List.length (dimPaths t) <= List.length (ResultSet.ds_dimPaths st))%nat)).
    { unfold vsize in Hupd.
      destruct (Nat.eqb_spec (List.length (dimPaths t)) 0) as [E0|E0]; cbn [negb andb] in Hupd.
      - right. injection Hupd as -> ->. repeat split; lia.
      - destruct (Z.ltb_spec (Z.of_nat (List.length (ResultSet.ds_dimPaths st)))
                              (Z.of_nat (List.length (dimPaths t)))) as [L|L];
          injection Hupd as -> ->.
        + left. repeat split; lia.
        + right. repeat split; lia. }
    assert (Hle1 : (List.length (dimPaths t) <= List.length (ResultSet.ds_dimPaths st1))%nat).
    { destruct Hcase as [(-> & _ & _)|(-> & _ & L)]; lia. }
    assert (Hle0 : (List.length (ResultSet.ds_dimPaths st) <=
                    List.length (ResultSet.ds_dimPaths st1))%nat).
    { destruct Hcase as [(-> & _ & L)|(-> & _ & _)]; lia. }
    split; [lia|]. split.
    { intros f' t' [<-|Hin] Ht'.
      - assert (t' = t) by congruence. subst t'. lia.
      - now apply (Hall f' t'). }
    destruct Hwhich as [[Hp He]|(i & f2 & t2 & H1 & H2 & H3 & H4 & H5 & H6)].
    + destruct Hcase as [(Hp1 & He1 & L)|(Hp1 & He1 & L)].
      * right. exists 0%nat, f, t. split; [reflexivity|]. split; [exact Ht|].
        split; [congruence|]. split; [congruence|]. split; [exact L|].
        intros i' f' t' Hlt. lia.
      * left. split; congruence.
    + right. exists (S i), f2, t2. split; [exact H1|]. split; [exact H2|].
      split; [exact H3|]. split; [exact H4|]. split; [lia|].
      intros [|i'] f' t' Hlt Hf' Ht'.
      * simpl in Hf'. injection Hf' as <-.
        assert (t' = t) by congruence. subst t'. lia.
      * simpl in Hf'. apply (H6 i' f' t'); [lia | assumption | assumption].
Qed.

(** [computeDims] on its first frame: the field is looked up there, and the
    dimensions start as zeros, one for each component of the path of that
    target but the last. *)
Lemma computeDims_front decl fieldName groupByField frames st :
  ResultSet.computeDims decl fieldName groupByField frames = Ok st ->
  exists front rest target,
    frames = front :: rest /\
    frameTarget (fieldIdx fieldName frames) front = Some target /\
    ResultSet.dimsLoop (fieldIdx fieldName frames) frames
      (ResultSet.mkDimState (repeat 0 (dimCount target)) false
         (TypeInfo_default decl) [] [] target) = Ok st.
Proof.
  unfold ResultSet.computeDims. destruct frames as [|front rest]; [discriminate|].
  destruct (vat _ _) as [target|] eqn:Et; cbn [bind]; [|discriminate].
  cbn [ResultSet.checkGroupBy bind].
  destruct (ResultSet.resizeEmpty _ _ _) as [dimsList|] eqn:Er; cbn [bind]; [|discriminate].
  apply resizeEmpty_inv in Er. subst dimsList.
  intros H. exists front, rest, target. split; [reflexivity|].
  apply vat_frameTarget in Et. cbn [fieldIdx]. split; [exact Et | exact H].
Qed.

(** The dimensions [computeDims] ends with are the running maxima over all
    the frames. *)
Lemma computeDims_dimsList decl fieldName groupByField frames st :
  ResultSet.computeDims decl fieldName groupByField frames = Ok st ->
  exists front rest target,
    frames = front :: rest /\
    frameTarget (fieldIdx fieldName frames) front = Some target /\
    ResultSet.ds_dimsList st =
      frameDims (fieldIdx fieldName frames) frames (dimCount target).
Proof.
  intros H. apply computeDims_front in H as (front & rest & target & Hf & Ht & H).
  exists front, rest, target. split; [exact Hf|]. split; [exact Ht|].
  apply dimsLoop_spec in H as (Hlen & _ & Hnth & _). cbn [ResultSet.ds_dimsList] in Hlen, Hnth.
  rewrite repeat_length in Hlen.
  apply nth_error_ext. intros k. unfold frameDims.
  destruct (Nat.lt_ge_cases k (dimCount target)) as [L|L].
  - rewrite (Hnth k 0) by (now apply nth_error_repeat).
    rewrite nth_error_map, nth_error_seq.
    destruct (Nat.ltb_spec k (dimCount target)) as [_|]; [|lia]. reflexivity.
  - rewrite (proj2 (nth_error_None _ _)) by lia.
    symmetry. apply nth_error_None. rewrite length_map, length_seq. exact L.
Qed.

Lemma runningMaxFrom_nonneg targetIdx frames k :
  forall d, 0 <= d -> 0 <= runningMaxFrom targetIdx d frames k.
Proof.
  unfold runningMaxFrom. induction frames as [|f frames IH]; intros d Hd; simpl.
  - exact Hd.
  - apply IH. destruct (nth_error (examined targetIdx f) k); lia.
Qed.

Lemma frameDims_nonneg targetIdx frames n :
  Forall (fun d => 0 <= d) (frameDims targetIdx frames n).
Proof.
  unfold frameDims. apply Forall_map, Forall_forall. intros k _.
  apply runningMaxFrom_nonneg. lia.
Qed.

(** ** The second loop of getRawValues and its result *)

Lemma slice_spec (v idxs out : list Z) :
  ResultSet.slice v idxs = Ok out ->
  List.length out = List.length idxs /\
  forall j e, nth_error idxs j = Some e ->
    0 <= e /\ (Z.to_nat e < List.length v)%nat /\
    nth_error out j = nth_error v (Z.to_nat e).
Proof.
  revert out; induction idxs as [|i idxs IH]; intros out; simpl.
  - intros [= <-]. split; [reflexivity|]. intros [|j] e; discriminate.
  - destruct (vget v i) as [x|] eqn:Ex; cbn [bind]; [|discriminate].
    destruct (ResultSet.slice v idxs) as [xs|]; cbn [bind]; [|discriminate].
    intros [= <-]. destruct (IH xs eq_refl) as [Hlen Hnth].
    split; [simpl; congruence|].
    intros [|j] e He; simpl in He.
    + injection He as <-. unfold vget in Ex.
      destruct (Z.ltb_spec i 0); [discriminate|].
      destruct (nth_error v (Z.to_nat i)) eqn:En; [|discriminate].
      injection Ex as <-. split; [assumption|]. split.
      * apply nth_error_Some. congruence.
      * simpl. congruence.
    + simpl. now apply Hnth.
Qed.

Lemma scatter_length idxs :
  forall fragment base values values',
    ResultSet.scatter idxs fragment base values = Ok values' ->
    List.length values' = List.length values.
Proof.
  induction idxs as [|idx idxs IH]; intros [|x fragment] base values values'; simpl;
    try (now intros [= <-]).
  destruct (vset values _ x) as [v1|] eqn:E; cbn [bind]; [|discriminate].
  intros H. apply IH in H. apply vset_length in E. congruence.
Qed.

Lemma copyTo_length fragment :
  forall pos values values',
    ResultSet.copyTo fragment pos values = Ok values' ->
    List.length values' = List.length values.
Proof.
  induction fragment as [|x fragment IH]; intros pos values values'; simpl.
  - now intros [= <-].
  - destruct (vset values pos x) as [v1|] eqn:E; cbn [bind]; [|discriminate].
    intros H. apply IH in H. apply vset_length in E. congruence.
Qed.

Lemma copyFrame_inv targetIdx jagged dims rowLength frameIdx frame values prev values' t' :
  ResultSet.copyFrame targetIdx jagged dims rowLength frameIdx frame (values, prev) =
    Ok (values', t') ->
  frameTarget targetIdx frame = Some t' /\
  List.length values' = List.length values /\
  (jagged = false ->
   ResultSet.copyTo (ResultSet.data (ResultSet.frameAt frame (nodeIdx prev)))
     (ResultSet.to_size_t (frameIdx * ResultSet.to_size_t rowLength)) values = Ok values').
Proof.
  unfold ResultSet.copyFrame.
  destruct (vat (ResultSet.getTargets frame) targetIdx) as [t|] eqn:Et;
    cbn [bind]; [|discriminate].
  apply vat_frameTarget in Et.
  destruct jagged.
  - destruct (ResultSet.computeInserts _ _ _ _ _ _) as [ins|]; cbn [bind]; [|discriminate].
    destruct (ResultSet.inflate _ _ _ _) as [idxs|]; cbn [bind]; [|discriminate].
    destruct (ResultSet.scatter _ _ _ _) as [v1|] eqn:Es; cbn [bind]; [|discriminate].
    intros [= <- <-]. split; [exact Et|]. split; [|discriminate].
    eapply scatter_length; eassumption.
  - destruct (ResultSet.copyTo _ _ _) as [v1|] eqn:Ec; cbn [bind]; [|discriminate].
    intros [= <- <-]. split; [exact Et|]. split; [|intros _; reflexivity].
    eapply copyTo_length; eassumption.
Qed.

(** The second loop keeps the length of the data and ends with the target of
    the last frame. *)
Lemma copyLoop_inv targetIdx jagged dims rowLength frames :
  forall frameIdx values prev values' t',
    ResultSet.copyLoop targetIdx jagged dims rowLength frameIdx frames (values, prev) =
      Ok (values', t') ->
    List.length values' = List.length values /\
    t' = lastTarget targetIdx frames prev.
Proof.
  induction frames as [|f frames IH]; intros frameIdx values prev values' t';
    cbn [ResultSet.copyLoop].
  - intros [= <- <-]. split; reflexivity.
  - destruct (ResultSet.copyFrame targetIdx jagged dims rowLength frameIdx f (values, prev))
      as [[v1 t1]|] eqn:E; cbn [bind]; [|discriminate].
    intros H. apply IH in H as [Hlen Ht].
    apply copyFrame_inv in E as (Et & Hlen1 & _).
    split; [congruence|]. unfold lastTarget in *. simpl. now rewrite Et.
Qed.

(** The steps of [getRawValues], one by one. *)
Lemma getRawValues_inv decl fieldName groupByField frames values dims paths info :
  ResultSet.getRawValues decl fieldName groupByField frames =
    Ok (values, dims, paths, info) ->
  exists st data0 target dims1,
    ResultSet.computeDims decl fieldName groupByField frames = Ok st /\
    ResultSet.resizeEmpty 8
      (ResultSet.to_size_t
         (vsize frames *
          ResultSet.to_size_t (ResultSet.rowLengthOf (ResultSet.ds_dimsList st))))
      MissingValue = Ok data0 /\
    ResultSet.copyLoop (fieldIdx fieldName frames) (ResultSet.ds_jagged st)
      (ResultSet.ds_dimsList st) (ResultSet.rowLengthOf (ResultSet.ds_dimsList st))
      0 frames (data0, ResultSet.ds_target st) = Ok (values, target) /\
    vset (ResultSet.ds_dimsList st) 0 (vsize frames) = Ok dims1 /\
    ResultSet.slice dims1 (exportDimIdxs target) = Ok dims /\
    paths = ResultSet.ds_dimPaths st /\
    info = ResultSet.ds_info st.
Proof.
  unfold ResultSet.getRawValues. fold (fieldIdx fieldName frames).
  destruct (ResultSet.computeDims decl fieldName groupByField frames) as [st|];
    cbn [bind]; [|discriminate].
  destruct (ResultSet.resizeEmpty _ _ _) as [data0|] eqn:Er; cbn [bind]; [|discriminate].
  destruct (ResultSet.copyLoop _ _ _ _ _ _ _) as [[v1 t1]|] eqn:Ec; cbn [bind];
    [|discriminate].
  destruct (vset _ _ _) as [dims1|] eqn:Ev; cbn [bind]; [|discriminate].
  destruct (ResultSet.slice _ _) as [dims2|] eqn:Es; cbn [bind]; [|discriminate].
  intros [= <- <- <- <-].
  exists st, data0, t1, dims1. repeat split; assumption.
Qed.

Lemma product_from_nonneg (v : list Z) :
  Forall (fun d => 0 <= d) v -> forall a, 0 <= a -> 0 <= fold_left Z.mul v a.
Proof.
  induction 1 as [|d v Hd _ IH]; intros a Ha; simpl; [exact Ha|].
  apply IH. nia.
Qed.

Lemma rowLengthOf_nonneg (dims : list Z) :
  Forall (fun d => 0 <= d) dims -> 0 <= ResultSet.rowLengthOf dims.
Proof.
  intros H. unfold ResultSet.rowLengthOf, ResultSet.product.
  apply product_from_nonneg; [|lia].
  destruct H; [constructor | assumption].
Qed.

Lemma frameInfos_length targetIdx frames :
  Forall (fun f => exists t, frameTarget targetIdx f = Some t /\ path t <> []) frames ->
  List.length (frameInfos targetIdx frames) = List.length frames.
Proof.
  unfold frameInfos. induction 1 as [|f frames (t & Ht & _) _ IH]; simpl; [reflexivity|].
  rewrite Ht. simpl. now rewrite IH.
Qed.

(** X8: the type information [getRawValues] returns merges those of the
    targets of all the frames with the fresh one: the reference is the
    smallest, the number of bits the largest, the unit the first that is not
    empty; and the scale is the largest when no target has a negative one. *)
Theorem getRawValues_info decl fieldName groupByField frames values dims paths info :
  ResultSet.getRawValues decl fieldName groupByField frames =
    Ok (values, dims, paths, info) ->
  let infos := frameInfos (fieldIdx fieldName frames) frames in
  List.length infos = List.length frames /\
  reference info =
    fold_left Z.min (map reference infos) (reference (TypeInfo_default decl)) /\
  bits info = fold_left Z.max (map bits infos) (bits (TypeInfo_default decl)) /\
  unit info = firstNonEmpty (unit (TypeInfo_default decl) :: map unit infos) /\
  (Forall (fun i => 0 <= scale i) infos ->
   scale info = fold_left Z.max (map scale infos) (scale (TypeInfo_default decl))).
Proof.
  intros H infos.
  apply getRawValues_inv in H
    as (st & data0 & target0 & dims1 & Hst & _ & _ & _ & _ & _ & ->).
  pose proof (computeDims_info _ _ _ _ _ Hst) as Hinfo. fold infos in Hinfo.
  apply computeDims_front in Hst as (front & rest & target & _ & _ & Hloop).
  apply dimsLoop_targets in Hloop as [Hall _].
  split; [now apply frameInfos_length|].
  rewrite Hinfo.
  split; [apply mergeInfo_fold_reference|].
  split; [apply mergeInfo_fold_bits|].
  split; [apply mergeInfo_fold_unit|].
  apply mergeInfo_fold_scale_nonneg.
Qed.

Lemma getRawValues_info_witness :
  ResultSet.getRawValues exampleDecl "temp" "" denseFrames =
    Ok ([1#1; 2#1; 3#1; 4#1], [2; 2], ["*"; "*/OBS"], mkTypeInfo 2 (-5) 16 "K") /\
  fold_left Z.min
    (map reference (frameInfos (fieldIdx "temp" denseFrames) denseFrames)) 0 = -5 /\
  fold_left Z.max
    (map scale (frameInfos (fieldIdx "temp" denseFrames) denseFrames)) 0 = 2.
Proof.
  split; [reflexivity|].
  destruct (getRawValues_info exampleDecl "temp" "" denseFrames
              [1#1; 2#1; 3#1; 4#1] [2; 2] ["*"; "*/OBS"] (mkTypeInfo 2 (-5) 16 "K") eq_refl)
    as (_ & Href & _ & _ & Hscale).
  split.
  - symmetry. exact Href.
  - symmetry. apply Hscale. repeat constructor; discriminate.
Defined.

(** X9: the dimension paths [getRawValues] returns are those of the first
    frame whose target has the most of them: no target of a frame has more,
    and the frames before that one have fewer; they are empty only if no
    target has any. *)
Theorem getRawValues_dimPaths decl fieldName groupByField frames values dims paths info :
  ResultSet.getRawValues decl fieldName groupByField frames =
    Ok (values, dims, paths, info) ->
  let targetIdx := fieldIdx fieldName frames in
  (forall f t, In f frames -> frameTarget targetIdx f = Some t ->
     (List.length (dimPaths t) <= List.length paths)%nat) /\
  (paths = [] \/
   exists i f t,
     nth_error frames i = Some f /\
     frameTarget targetIdx f = Some t /\
     dimPaths t = paths /\
     forall i' f' t',
       (i' < i)%nat -> nth_error frames i' = Some f' ->
       frameTarget targetIdx f' = Some t' ->
       (List.length (dimPaths t') < List.length paths)%nat).
Proof.
  intros H targetIdx.
  apply getRawValues_inv in H
    as (st & data0 & target0 & dims1 & Hst & _ & _ & _ & _ & -> & _).
  apply computeDims_front in Hst as (front & rest & target & _ & _ & Hloop).
  apply dimsLoop_dimPaths in Hloop as (_ & Hall & Hwhich).
  cbn [ResultSet.ds_dimPaths] in Hwhich. fold targetIdx in Hall, Hwhich.
  split; [exact Hall|].
  destruct Hwhich as [[Hp _]|(i & f & t & H1 & H2 & H3 & _ & _ & H6)].
  - left. exact Hp.
  - right. exists i, f, t. split; [exact H1|]. split; [exact H2|]. split; [exact H3|].
    rewrite <- H3. exact H6.
Qed.

Lemma getRawValues_dimPaths_witness :
  ResultSet.getRawValues exampleDecl "temp" "" denseFrames =
    Ok ([1#1; 2#1; 3#1; 4#1], [2; 2], ["*"; "*/OBS"], mkTypeInfo 2 (-5) 16 "K") /\
  (List.length (dimPaths (tempTarget (kelvin 1))) <= 2)%nat.
Proof.
  split; [reflexivity|].
  destruct (getRawValues_dimPaths exampleDecl "temp" "" denseFrames
              [1#1; 2#1; 3#1; 4#1] [2; 2] ["*"; "*/OBS"] (mkTypeInfo 2 (-5) 16 "K") eq_refl)
    as [Hall _].
  apply (Hall (obsFrame (kelvin 1) [2] [1#1; 2#1]) (tempTarget (kelvin 1)));
    [left; reflexivity | reflexivity].
Defined.

(** X10: the dimensions [getRawValues] returns are picked by the exported
    dimension indices of the target of the last frame: index 0 gives the
    number of frames, any other index the largest count the frames hold for
    that dimension. *)
Theorem getRawValues_dims decl fieldName groupByField frames values dims paths info :
  ResultSet.getRawValues decl fieldName groupByField frames =
    Ok (values, dims, paths, info) ->
  let targetIdx := fieldIdx fieldName frames in
  exists f target,
    nth_error frames (Nat.pred (List.length frames)) = Some f /\
    frameTarget targetIdx f = Some target /\
    List.length dims = List.length (exportDimIdxs target) /\
    forall j e, nth_error (exportDimIdxs target) j = Some e ->
      0 <= e /\
      nth_error dims j =
        Some (if e =? 0 then vsize frames
              else runningMax targetIdx frames (Z.to_nat e)).
Proof.
  intros H targetIdx.
  apply getRawValues_inv in H
    as (st & data0 & target & dims1 & Hst & _ & Hcopy & Hset & Hslice & _ & _).
  apply copyLoop_inv in Hcopy as [_ Hlast].
  apply computeDims_front in Hst as (front & rest & t0 & Hfr & _ & Hloop).
  fold targetIdx in Hlast, Hloop.
  pose proof (dimsLoop_targets _ _ _ _ Hloop) as [Hall _].
  apply dimsLoop_spec in Hloop as (Hlen & _ & Hnth & _).
  cbn [ResultSet.ds_dimsList] in Hlen, Hnth. rewrite repeat_length in Hlen.
  destruct (lastTarget_last targetIdx frames (ResultSet.ds_target st)) as (f & Hf & Ht);
    [subst frames; discriminate | exact Hall |].
  rewrite <- Hlast in Ht.
  exists f, target. split; [exact Hf|]. split; [exact Ht|].
  apply slice_spec in Hslice as [Hl Hs]. split; [exact Hl|].
  intros j e He. destruct (Hs j e He) as (He0 & Hlt & Hj).
  split; [exact He0|]. rewrite Hj.
  pose proof (vset_length _ _ _ _ Hset) as Hl1. rewrite Hl1, Hlen in Hlt.
  destruct (Z.eqb_spec e 0) as [->|Hne].
  - apply vget_vset_same in Hset. unfold vget in Hset. simpl in Hset.
    simpl. destruct dims1; [discriminate|]. now injection Hset as ->.
  - pose proof (vget_vset_other _ _ _ e _ Hset Hne) as Hother. unfold vget in Hother.
    destruct (Z.ltb_spec e 0); [lia|].
    rewrite (Hnth (Z.to_nat e) 0) in Hother by (now apply nth_error_repeat).
    destruct (nth_error dims1 (Z.to_nat e)); [|discriminate].
    now injection Hother as ->.
Qed.

Lemma getRawValues_dims_witness :
  ResultSet.getRawValues exampleDecl "temp" "" jaggedFrames =
    Ok ([1#1; 2#1; MissingValue; 3#1; 4#1; 5#1; 6#1; MissingValue; MissingValue],
        [3; 3], ["*"; "*/OBS"], kelvin 1) /\
  runningMax (fieldIdx "temp" jaggedFrames) jaggedFrames 1 = 3.
Proof.
  split; [reflexivity|].
  destruct (getRawValues_dims exampleDecl "temp" "" jaggedFrames
              [1#1; 2#1; MissingValue; 3#1; 4#1; 5#1; 6#1; MissingValue; MissingValue]
              [3; 3] ["*"; "*/OBS"] (kelvin 1) eq_refl)
    as (f & target & Hf & Ht & _ & Hnth).
  injection Hf as <-. injection Ht as <-.
  destruct (Hnth 1%nat 1 eq_refl) as [_ H].
  exact (eq_sym (f_equal (fun o => match o with Some x => x | None => 0 end) H)).
Defined.

Lemma to_size_t_small (z : Z) : 0 <= z < 2 ^ 64 -> ResultSet.to_size_t z = z.
Proof. intros H. unfold ResultSet.to_size_t. now apply Z.mod_small. Qed.

Lemma runningProducts_last (v : list Z) :
  forall acc,
    fold_left Z.mul v acc = acc \/ In (fold_left Z.mul v acc) (runningProducts acc v).
Proof.
  induction v as [|d v IH]; intros acc; cbn [fold_left runningProducts]; [now left|].
  right. destruct (IH (acc * d)) as [H|H]; [left; congruence | now right].
Qed.

Lemma rowLengthFits_bound (dims : list Z) :
  rowLengthFits dims -> - 2 ^ 31 <= ResultSet.rowLengthOf dims < 2 ^ 31.
Proof.
  unfold rowLengthFits, ResultSet.rowLengthOf, ResultSet.product. intros H.
  destruct (runningProducts_last (tl dims) 1) as [->|Hin]; [lia|].
  exact (proj1 (Forall_forall _ _) H _ Hin).
Qed.

(** X11: as long as the multiplication of the row length does not overflow
    its [int], the data [getRawValues] returns have as many elements as
    there are frames times the length of a row, which is the product of the
    largest counts of the dimensions behind the first and is not negative. *)
Theorem getRawValues_data_length decl fieldName groupByField frames st values dims paths info :
  ResultSet.computeDims decl fieldName groupByField frames = Ok st ->
  ResultSet.getRawValues decl fieldName groupByField frames =
    Ok (values, dims, paths, info) ->
  let targetIdx := fieldIdx fieldName frames in
  let rowLength := ResultSet.rowLengthOf (ResultSet.ds_dimsList st) in
  rowLengthFits (ResultSet.ds_dimsList st) ->
  (exists front rest target,
     frames = front :: rest /\
     frameTarget targetIdx front = Some target /\
     ResultSet.ds_dimsList st = frameDims targetIdx frames (dimCount target)) /\
  0 <= rowLength < 2 ^ 31 /\
  Z.of_nat (List.length values) = ResultSet.to_size_t (vsize frames * rowLength).
Proof.
  intros Hst H targetIdx rowLength Hfits.
  apply getRawValues_inv in H
    as (st' & data0 & target & dims1 & Hst' & Hres & Hcopy & _).
  assert (st' = st) by congruence. subst st'. fold rowLength in Hres.
  apply copyLoop_inv in Hcopy as [Hlen _].
  pose proof (computeDims_dimsList _ _ _ _ _ Hst) as Hdl. fold targetIdx in Hdl.
  split; [exact Hdl|].
  assert (Hrl : 0 <= rowLength < 2 ^ 31).
  { pose proof (rowLengthFits_bound _ Hfits) as Hb. fold rowLength in Hb.
    split; [|lia]. destruct Hdl as (_ & _ & t0 & _ & _ & Hd).
    unfold rowLength. rewrite Hd. apply rowLengthOf_nonneg, frameDims_nonneg. }
  split; [exact Hrl|].
  apply resizeEmpty_inv in Hres. rewrite Hlen, Hres, repeat_length.
  rewrite (to_size_t_small rowLength) by lia.
  rewrite Z2Nat.id; [reflexivity|].
  unfold ResultSet.to_size_t. apply Z.mod_pos_bound. lia.
Qed.

Lemma getRawValues_data_length_witness :
  ResultSet.getRawValues exampleDecl "temp" "" jaggedFrames =
    Ok ([1#1; 2#1; MissingValue; 3#1; 4#1; 5#1; 6#1; MissingValue; MissingValue],
        [3; 3], ["*"; "*/OBS"], kelvin 1) /\
  ResultSet.to_size_t (vsize jaggedFrames * ResultSet.rowLengthOf [1; 3]) = 9.
Proof.
  split; [reflexivity|].
  destruct (getRawValues_data_length exampleDecl "temp" "" jaggedFrames
              (ResultSet.mkDimState [1; 3] true (kelvin 1) ["*"; "*/OBS"] [0; 1]
                 (tempTarget (kelvin 1)))
              [1#1; 2#1; MissingValue; 3#1; 4#1; 5#1; 6#1; MissingValue; MissingValue]
              [3; 3] ["*"; "*/OBS"] (kelvin 1) eq_refl eq_refl)
    as (_ & _ & Hlen).
  - repeat constructor; discriminate.
  - symmetry. exact Hlen.
Defined.

(** ** The copy of the fragments without jaggedness *)

Lemma skipn_repeat {A : Type} (x : A) (k n : nat) :
  skipn k (repeat x n) = repeat x (n - k).
Proof.
  revert n; induction k as [|k IH]; intros n; simpl.
  - now rewrite Nat.sub_0_r.
  - destruct n; simpl; [reflexivity | apply IH].
Qed.

(** [std::copy] of a fragment to the end of the part already filled. *)
Lemma copyTo_app (fragment : list double) :
  forall (filled rest : list double),
    (List.length fragment <= List.length rest)%nat ->
    ResultSet.copyTo fragment (Z.of_nat (List.length filled)) (filled ++ rest) =
      Ok (filled ++ fragment ++ skipn (List.length fragment) rest).
Proof.
  induction fragment as [|x fragment IH]; intros filled rest Hlen; simpl.
  - reflexivity.
  - destruct rest as [|y rest]; [simpl in Hlen; lia|].
    rewrite vset_app_end. cbn [bind].
    replace (Z.of_nat (List.length filled) + 1)
      with (Z.of_nat (List.length (filled ++ [x]))) by (rewrite length_app; simpl; lia).
    replace (filled ++ x :: rest) with ((filled ++ [x]) ++ rest)
      by (now rewrite <- app_assoc).
    rewrite IH by (simpl in Hlen; lia).
    now rewrite <- app_assoc.
Qed.

(** Without jaggedness the second loop lays the fragments out row by row,
    each padded with the missing value. *)
Lemma copyLoop_dense targetIdx dims rowLength frames :
  forall frameIdx filled prev values' t',
    0 <= rowLength -> 0 <= frameIdx ->
    Z.of_nat (List.length filled) = frameIdx * rowLength ->
    (frameIdx + vsize frames) * rowLength < 2 ^ 64 ->
    Forall (fun fr => Z.of_nat (List.length fr) <= rowLength)
           (fragmentsFrom targetIdx frames prev) ->
    ResultSet.copyLoop targetIdx false dims rowLength frameIdx frames
      (filled ++ repeat MissingValue (List.length frames * Z.to_nat rowLength), prev) =
      Ok (values', t') ->
    values' = filled ++ flat_map (paddedRow rowLength) (fragmentsFrom targetIdx frames prev).
Proof.
  induction frames as [|f frames IH];
    intros frameIdx filled prev values' t' Hrl Hidx Hfilled Hbound Hfrags;
    cbn [ResultSet.copyLoop].
  - intros [= <- <-]. simpl. reflexivity.
  - destruct (ResultSet.copyFrame targetIdx false dims rowLength frameIdx f
                (filled ++ repeat MissingValue
                             (List.length (f :: frames) * Z.to_nat rowLength), prev))
      as [[v1 t1]|] eqn:E; cbn [bind]; [|discriminate].
    apply copyFrame_inv in E as (Et & _ & Hcopy). specialize (Hcopy eq_refl).
    cbn [fragmentsFrom] in Hfrags |- *. rewrite Et in Hfrags |- *.
    inversion Hfrags as [|fr frs Hfr Hrest]; subst fr frs.
    set (fragment := ResultSet.data (ResultSet.frameAt f (nodeIdx prev))) in *.
    unfold vsize in Hbound. cbn [List.length] in Hbound.
    assert (Hbase : ResultSet.to_size_t (frameIdx * ResultSet.to_size_t rowLength) =
                    Z.of_nat (List.length filled)).
    { unfold ResultSet.to_size_t. rewrite Hfilled.
      rewrite (Z.mod_small rowLength) by nia.
      apply Z.mod_small. nia. }
    rewrite Hbase in Hcopy.
    rewrite copyTo_app in Hcopy
      by (rewrite repeat_length; cbn [List.length]; nia).
    injection Hcopy as <-.
    rewrite skipn_repeat.
    match goal with
    | |- context [repeat MissingValue (?n - List.length fragment)%nat] =>
        replace (n - List.length fragment)%nat
          with ((Z.to_nat rowLength - List.length fragment) +
                List.length frames * Z.to_nat rowLength)%nat
          by (cbn [List.length]; nia)
    end.
    rewrite repeat_app.
    replace (filled ++ fragment ++
             repeat MissingValue (Z.to_nat rowLength - List.length fragment) ++
             repeat MissingValue (List.length frames * Z.to_nat rowLength))
      with ((filled ++ paddedRow rowLength fragment) ++
            repeat MissingValue (List.length frames * Z.to_nat rowLength))
      by (unfold paddedRow; now rewrite <- !app_assoc).
    intros H. apply IH in H.
    + rewrite H. cbn [flat_map]. now rewrite <- app_assoc.
    + exact Hrl.
    + lia.
    + unfold paddedRow. rewrite !length_app, repeat_length. nia.
    + unfold vsize. nia.
    + exact Hrest.
Qed.

(** X12: without jaggedness the data [getRawValues] returns are the
    fragments of the frames, in frame order, each followed by missing values
    up to the length of a row, as long as no fragment is longer than a row
    and the multiplication of the row length does not overflow its [int].
    The fragment of a frame is read at the node of the target of the frame
    before it, the one of the first frame at the node of the target of the
    last frame. *)
Theorem getRawValues_dense decl fieldName groupByField frames st values dims paths info :
  ResultSet.computeDims decl fieldName groupByField frames = Ok st ->
  ResultSet.getRawValues decl fieldName groupByField frames =
    Ok (values, dims, paths, info) ->
  ResultSet.ds_jagged st = false ->
  let targetIdx := fieldIdx fieldName frames in
  let rowLength := ResultSet.rowLengthOf (ResultSet.ds_dimsList st) in
  let fragments := fragmentsFrom targetIdx frames (ResultSet.ds_target st) in
  rowLengthFits (ResultSet.ds_dimsList st) ->
  vsize frames * rowLength < 2 ^ 64 ->
  Forall (fun fr => Z.of_nat (List.length fr) <= rowLength) fragments ->
  (exists f,
     nth_error frames (Nat.pred (List.length frames)) = Some f /\
     frameTarget targetIdx f = Some (ResultSet.ds_target st)) /\
  (exists front rest target,
     frames = front :: rest /\
     frameTarget targetIdx front = Some target /\
     ResultSet.ds_dimsList st = frameDims targetIdx frames (dimCount target)) /\
  values = flat_map (paddedRow rowLength) fragments.
Proof.
  intros Hst H Hj targetIdx rowLength fragments _ Hbound Hfrags.
  apply getRawValues_inv in H
    as (st' & data0 & target & dims1 & Hst' & Hres & Hcopy & _).
  assert (st' = st) by congruence. subst st'. clear Hst'.
  fold targetIdx rowLength in Hres, Hcopy. rewrite Hj in Hcopy.
  pose proof (computeDims_dimsList _ _ _ _ _ Hst) as Hdl.
  pose proof (computeDims_front _ _ _ _ _ Hst) as (front & rest & t0 & Hfr & Ht0 & Hloop).
  fold targetIdx in Hdl, Hloop, Ht0.
  apply dimsLoop_targets in Hloop as [Hall Hlast].
  cbn [ResultSet.ds_target] in Hlast.
  split.
  { rewrite Hlast. apply lastTarget_last; [subst frames; discriminate | exact Hall]. }
  split; [exact Hdl|].
  assert (Hrl : 0 <= rowLength).
  { destruct Hdl as (_ & _ & t1 & _ & _ & Hd). unfold rowLength. rewrite Hd.
    apply rowLengthOf_nonneg, frameDims_nonneg. }
  assert (Hn : 1 <= vsize frames) by (subst frames; unfold vsize; cbn [List.length]; lia).
  apply resizeEmpty_inv in Hres.
  assert (Hsize : Z.to_nat (ResultSet.to_size_t (vsize frames * ResultSet.to_size_t rowLength)) =
                  (List.length frames * Z.to_nat rowLength)%nat).
  { unfold ResultSet.to_size_t.
    rewrite (Z.mod_small rowLength) by nia.
    rewrite Z.mod_small by nia. unfold vsize. nia. }
  rewrite Hsize in Hres. subst data0.
  apply (copyLoop_dense targetIdx (ResultSet.ds_dimsList st) rowLength frames 0 []
           (ResultSet.ds_target st) values target); try assumption; try lia.
  simpl. lia.
Qed.

Lemma getRawValues_dense_witness :
  ResultSet.getRawValues exampleDecl "temp" "" denseFrames =
    Ok ([1#1; 2#1; 3#1; 4#1], [2; 2], ["*"; "*/OBS"], mkTypeInfo 2 (-5) 16 "K") /\
  flat_map (paddedRow 2)
    (fragmentsFrom (fieldIdx "temp" denseFrames) denseFrames
       (tempTarget (mkTypeInfo 2 (-5) 16 "K"))) = [1#1; 2#1; 3#1; 4#1].
Proof.
  split; [reflexivity|].
  symmetry.
  apply (getRawValues_dense exampleDecl "temp" "" denseFrames
           (ResultSet.mkDimState [1; 2] false (mkTypeInfo 2 (-5) 16 "K")
              ["*"; "*/OBS"] [0; 1] (tempTarget (mkTypeInfo 2 (-5) 16 "K")))
           [1#1; 2#1; 3#1; 4#1] [2; 2] ["*"; "*/OBS"] (mkTypeInfo 2 (-5) 16 "K")
           eq_refl eq_refl eq_refl).
  - repeat constructor; discriminate.
  - reflexivity.
  - repeat constructor; discriminate.
Defined.

(** ** The lookup of the field and the errors of get *)

Lemma findTargetIdx_absent (targets : Targets) (fieldName : string) :
  Forall (fun t => name t <> fieldName) targets ->
  ResultSet.findTargetIdx targets fieldName = vsize targets.
Proof.
  unfold vsize. induction 1 as [|t targets Ht _ IH]; [reflexivity|].
  cbn [ResultSet.findTargetIdx List.length].
  destruct (String.eqb_spec (name t) fieldName); [contradiction|]. lia.
Qed.

Lemma vat_size {A : Type} (v : list A) : vat v (vsize v) = Throw OutOfRange.
Proof.
  unfold vat, vsize.
  destruct (Z.ltb_spec (Z.of_nat (List.length v)) 0); [reflexivity|].
  rewrite Nat2Z.id.
  now rewrite (proj2 (nth_error_None v (List.length v)) (Nat.le_refl _)).
Qed.

Lemma getRawValues_absent decl fieldName groupByField front rest :
  Forall (fun t => name t <> fieldName) (ResultSet.getTargets front) ->
  ResultSet.getRawValues decl fieldName groupByField (front :: rest) = Throw OutOfRange.
Proof.
  intros H. unfold ResultSet.getRawValues, ResultSet.computeDims.
  rewrite (findTargetIdx_absent _ _ H), vat_size. reflexivity.
Qed.

(** X13: when no target of the first frame carries the name of the field,
    [get] fails with the range error of the lookup in the targets, whatever
    the other frames hold and whatever the override type is. *)
Theorem get_unknown_field decl front rest fieldName groupByField overrideType :
  Forall (fun t => name t <> fieldName) (ResultSet.getTargets front) ->
  ResultSet.get decl (front :: rest) fieldName groupByField overrideType =
    Throw OutOfRange.
Proof.
  intros H. unfold ResultSet.get.
  now rewrite (getRawValues_absent decl fieldName groupByField front rest H).
Qed.

Lemma get_unknown_field_witness :
  ResultSet.get exampleDecl denseFrames "pressure" "" "float" = Throw OutOfRange.
Proof.
  apply (get_unknown_field exampleDecl (obsFrame (kelvin 1) [2] [1#1; 2#1])
           [obsFrame (mkTypeInfo 2 (-5) 16 "K") [2] [3#1; 4#1]] "pressure" "" "float").
  repeat constructor; discriminate.
Defined.

Lemma getRawValues_throws_nonempty decl fieldName groupByField front rest :
  throwsStd (ResultSet.getRawValues decl fieldName groupByField (front :: rest)).
Proof.
  unfold ResultSet.getRawValues. apply throwsStd_bind.
  - unfold ResultSet.computeDims, ResultSet.checkGroupBy. throws.
  - intros st. throws.
Qed.

Lemma objectByType_known (overrideType : string) (t : ResultSet.ElementType) :
  ResultSet.objectByType overrideType = Ok t ->
  In overrideType knownTypes /\ (t = ResultSet.TString <-> overrideType = "string").
Proof.
  unfold ResultSet.objectByType, knownTypes.
  destruct (String.eqb_spec overrideType "int") as [->|_]; cbn [orb].
  { intros [= <-]. split; [simpl; tauto|]. split; discriminate. }
  destruct (String.eqb_spec overrideType "int32") as [->|_].
  { intros [= <-]. split; [simpl; tauto|]. split; discriminate. }
  destruct (String.eqb_spec overrideType "float") as [->|_].
  { intros [= <-]. split; [simpl; tauto|]. split; discriminate. }
  destruct (String.eqb_spec overrideType "double") as [->|_].
  { intros [= <-]. split; [simpl; tauto|]. split; discriminate. }
  destruct (String.eqb_spec overrideType "string") as [->|_].
  { intros [= <-]. split; [simpl; tauto|]. split; reflexivity. }
  destruct (String.eqb_spec overrideType "int64") as [->|_].
  { intros [= <-]. split; [simpl; tauto|]. split; discriminate. }
  discriminate.
Qed.

Lemma objectByTypeInfo_string decl (info : TypeInfo) :
  ResultSet.objectByTypeInfo decl info = ResultSet.TString <-> isString decl info = true.
Proof.
  unfold ResultSet.objectByTypeInfo.
  destruct (isString decl info), (isInteger decl info), (isSigned decl info),
    (is64Bit decl info); split; (reflexivity || discriminate).
Qed.

(** What [makeDataObject] does with an override type that is not empty. *)
Lemma makeDataObject_override decl fieldName groupByField info overrideType values dims paths :
  overrideType <> "" ->
  ResultSet.makeDataObject decl fieldName groupByField info overrideType values dims paths =
    (t <- ResultSet.objectByType overrideType ;;
     if Bool.eqb (String.eqb overrideType "string") (isString decl info)
     then Ok (ResultSet.mkDataObject t values MissingValue dims fieldName groupByField paths)
     else Throw (IncompatibleOverride fieldName)).
Proof.
  intros Hne. unfold ResultSet.makeDataObject.
  destruct (String.eqb_spec overrideType "") as [|_]; [contradiction|].
  destruct (ResultSet.objectByType overrideType) as [t|]; cbn [bind]; [|reflexivity].
  destruct (String.eqb overrideType "string"), (isString decl info); reflexivity.
Qed.

(** X14: the errors of [get].  Without frames it is the error that no data
    was found; with frames, an error comes either from the vectors of
    [getRawValues] or, the raw values being there, from the override type:
    the error of the unknown type for a type that is not known, and the
    error of the conversion for a known type exactly when it is [string] for
    a field that is no string, or another type for a field that is one. *)
Theorem get_errors decl frames fieldName groupByField overrideType e :
  ResultSet.get decl frames fieldName groupByField overrideType = Throw e ->
  (frames = [] /\ e = BadValue "No data was found.") \/
  (frames <> [] /\ stdError e /\
   ResultSet.getRawValues decl fieldName groupByField frames = Throw e) \/
  (exists values dims paths info,
     ResultSet.getRawValues decl fieldName groupByField frames =
       Ok (values, dims, paths, info) /\
     overrideType <> "" /\
     ((~ In overrideType knownTypes /\
       e = BadParameter (ResultSet.unknownTypeMsg overrideType)) \/
      (In overrideType knownTypes /\
       e = IncompatibleOverride fieldName /\
       (overrideType = "string" <-> isString decl info = false)))).
Proof.
  unfold ResultSet.get.
  destruct (ResultSet.getRawValues decl fieldName groupByField frames)
    as [[[[values dims] paths] info]|e'] eqn:E; cbn [bind].
  - intros H. right. right. exists values, dims, paths, info.
    split; [reflexivity|].
    destruct (String.eqb_spec overrideType "") as [->|Hne].
    { unfold ResultSet.makeDataObject in H. simpl in H. discriminate. }
    split; [exact Hne|].
    rewrite makeDataObject_override in H by exact Hne.
    destruct (ResultSet.objectByType overrideType) as [t|e1] eqn:Et; cbn [bind] in H.
    + right. apply objectByType_known in Et as [Hin _]. split; [exact Hin|].
      destruct (String.eqb_spec overrideType "string") as [Hs|Hs];
        destruct (isString decl info); cbn [Bool.eqb] in H; try discriminate;
        injection H as <-; (split; [reflexivity|]); split; congruence.
    + left. injection H as <-.
      assert (Hnot : ~ In overrideType knownTypes).
      { intros Hin. unfold knownTypes in Hin. simpl in Hin.
        unfold ResultSet.objectByType in Et.
        repeat match type of Hin with
               | _ \/ _ => destruct Hin as [<-|Hin]; [simpl in Et; discriminate|]
               end.
        exact Hin. }
      split; [exact Hnot|].
      rewrite (objectByType_unknown _ Hnot) in Et. now injection Et as <-.
  - intros [= <-]. destruct frames as [|front rest].
    + left. split; [reflexivity|]. unfold ResultSet.getRawValues in E. simpl in E.
      now injection E as <-.
    + right. left. split; [discriminate|]. split; [|reflexivity].
      exact (getRawValues_throws_nonempty decl fieldName groupByField front rest e' E).
Qed.

Lemma get_errors_witness :
  ResultSet.get exampleDecl denseFrames "temp" "" "string" =
    Throw (IncompatibleOverride "temp") /\
  isString exampleDecl (mkTypeInfo 2 (-5) 16 "K") = false.
Proof.
  split; [reflexivity|].
  destruct (get_errors exampleDecl denseFrames "temp" "" "string"
              (IncompatibleOverride "temp") eq_refl)
    as [[H _]|[(_ & H & _)|(values & dims & paths & info & Hraw & _ & H)]].
  - discriminate.
  - destruct H.
  - injection Hraw as <- <- <- <-.
    destruct H as [[_ H]|(_ & _ & H)]; [discriminate|].
    apply H. reflexivity.
Defined.

(** X15: the object [get] returns carries the raw values, their dimensions
    and dimension paths and the two field names as given; it holds strings
    exactly when the type information says the field is a string, with or
    without an override type; and an override type that is not empty is one
    of the known ones. *)
Theorem get_object decl frames fieldName groupByField overrideType obj :
  ResultSet.get decl frames fieldName groupByField overrideType = Ok obj ->
  exists values dims paths info,
    ResultSet.getRawValues decl fieldName groupByField frames =
      Ok (values, dims, paths, info) /\
    ResultSet.objData obj = values /\
    ResultSet.objDims obj = dims /\
    ResultSet.objDimPaths obj = paths /\
    ResultSet.objFieldName obj = fieldName /\
    ResultSet.objGroupByFieldName obj = groupByField /\
    (ResultSet.elementType obj = ResultSet.TString <-> isString decl info = true) /\
    (overrideType = "" ->
     ResultSet.elementType obj = ResultSet.objectByTypeInfo decl info) /\
    (overrideType <> "" ->
     In overrideType knownTypes /\
     ResultSet.objectByType overrideType = Ok (ResultSet.elementType obj)).
Proof.
  unfold ResultSet.get.
  destruct (ResultSet.getRawValues decl fieldName groupByField frames)
    as [[[[values dims] paths] info]|e'] eqn:E; cbn [bind]; [|discriminate].
  intros H. exists values, dims, paths, info. split; [reflexivity|].
  destruct (String.eqb_spec overrideType "") as [->|Hne].
  - unfold ResultSet.makeDataObject in H. simpl in H. injection H as <-.
    cbn. repeat (split; [reflexivity|]).
    split; [apply objectByTypeInfo_string|].
    split; [reflexivity | congruence].
  - rewrite makeDataObject_override in H by exact Hne.
    destruct (ResultSet.objectByType overrideType) as [t|] eqn:Et; cbn [bind] in H;
      [|discriminate].
    destruct (Bool.eqb _ _) eqn:Eb in H; [|discriminate].
    injection H as <-. cbn.
    repeat (split; [reflexivity|]).
    apply objectByType_known in Et as [Hin Hstr].
    apply Bool.eqb_prop in Eb.
    split.
    { rewrite Hstr, <- Eb. split.
      - intros ->. reflexivity.
      - intros Hs. now apply String.eqb_eq. }
    split; [congruence|]. intros _. split; [exact Hin | reflexivity].
Qed.

Lemma get_object_witness :
  ResultSet.get exampleDecl denseFrames "temp" "" "int64" =
    Ok (ResultSet.mkDataObject ResultSet.TInt64 [1#1; 2#1; 3#1; 4#1] MissingValue
          [2; 2] "temp" "" ["*"; "*/OBS"]) /\
  ResultSet.objectByType "int64" = Ok ResultSet.TInt64.
Proof.
  split; [reflexivity|].
  destruct (get_object exampleDecl denseFrames "temp" "" "int64" _ eq_refl)
    as (values & dims & paths & info & _ & _ & _ & _ & _ & _ & _ & _ & H).
  apply H. discriminate.
Defined.

(** ** old_findTargets *)

Lemma findTarget_name decl fuel dp targetName query t :
  QueryRunner.findTarget decl fuel dp targetName query = Some (Ok t) ->
  name t = targetName.
Proof.
  unfold QueryRunner.findTarget. destruct (negb _).
  - intros [= <-]. reflexivity.
  - destruct (QueryRunner.scan fuel dp query) as [[st|]|]; try discriminate.
    unfold QueryRunner.finishTarget.
    destruct (vback (q_path query)) as [last|]; cbn [bind]; [|discriminate].
    destruct (QueryRunner.narrowTargets _ _) as [nodes|]; cbn [bind]; [|discriminate].
    unfold QueryRunner.buildTarget. destruct (1 <? vsize nodes); [discriminate|].
    destruct nodes; intros [= <-]; reflexivity.
Qed.

Lemma maskAt_vset (mask mask' : list bool) (i : Z) :
  vset mask i true = Ok mask' ->
  forall j, maskAt mask' j = true <-> maskAt mask j = true \/ j = i.
Proof.
  intros H j. unfold maskAt. destruct (Z.eq_dec j i) as [->|Hne].
  - rewrite (vget_vset_same _ _ _ _ H). split; [now right | reflexivity].
  - rewrite (vget_vset_other _ _ _ j _ H Hne). split; [now left|].
    intros [Hm|Hj]; [exact Hm | contradiction].
Qed.

Lemma maskAt_repeat_false (n : nat) (j : Z) : maskAt (repeat false n) j = false.
Proof.
  unfold maskAt, vget. destruct (j <? 0); [reflexivity|].
  destruct (nth_error (repeat false n) (Z.to_nat j)) as [b|] eqn:E; [|reflexivity].
  apply nth_error_In, repeat_spec in E. exact E.
Qed.

Lemma maskAt_inside (mask : list bool) (j : Z) :
  maskAt mask j = true -> 0 <= j < vsize mask.
Proof.
  unfold maskAt, vget, vsize. destruct (Z.ltb_spec j 0); [discriminate|].
  destruct (nth_error mask (Z.to_nat j)) eqn:E; [|discriminate]. intros _.
  assert (Z.to_nat j < List.length mask)%nat by (apply nth_error_Some; congruence).
  lia.
Qed.

Lemma setPathMask_spec (sp : list Z) :
  forall mask mask',
    QueryRunner.setPathMask sp mask = Ok mask' ->
    List.length mask' = List.length mask /\
    forall j, maskAt mask' j = true <-> maskAt mask j = true \/ In j sp.
Proof.
  induction sp as [|s sp IH]; intros mask mask'; simpl.
  - intros [= <-]. split; [reflexivity|]. intros j. tauto.
  - destruct (vset mask s true) as [m1|] eqn:E; cbn [bind]; [|discriminate].
    intros H. apply IH in H as [Hlen Hiff].
    split; [rewrite Hlen; eapply vset_length; eassumption|].
    intros j. rewrite Hiff, (maskAt_vset _ _ _ E j).
    split; [intros [[H|H]|H] | intros [H|[H|H]]]; auto.
Qed.

Lemma setMasks_spec (t : Target) (masks masks' : ProcessingMasks) :
  QueryRunner.setMasks t masks = Ok masks' ->
  List.length (valueNodeMask masks') = List.length (valueNodeMask masks) /\
  List.length (pathNodeMask masks') = List.length (pathNodeMask masks) /\
  (forall j, maskAt (valueNodeMask masks') j = true <->
             maskAt (valueNodeMask masks) j = true \/ j = nodeIdx t) /\
  (forall j, maskAt (pathNodeMask masks') j = true <->
             maskAt (pathNodeMask masks) j = true \/ In j (seqPath t)).
Proof.
  unfold QueryRunner.setMasks.
  destruct (vset (valueNodeMask masks) (nodeIdx t) true) as [v|] eqn:Ev;
    cbn [bind]; [|discriminate].
  destruct (QueryRunner.setPathMask _ _) as [p|] eqn:Ep; cbn [bind]; [|discriminate].
  intros [= <-]. cbn [valueNodeMask pathNodeMask].
  apply setPathMask_spec in Ep as [Hlen Hiff].
  split; [eapply vset_length; eassumption|].
  split; [exact Hlen|].
  split; [exact (maskAt_vset _ _ _ Ev) | exact Hiff].
Qed.

(** The loop over the sub-queries of a name, [done] being those already
    tried. *)
Lemma subQueryLoop_spec decl fuel dp queryName subQueries :
  forall done masks last target found masks',
    noneResolves decl fuel dp queryName done ->
    match last with
    | None => done = []
    | Some t => exists pre q,
        done = pre ++ [q] /\
        QueryRunner.findTarget decl fuel dp queryName q = Some (Ok t)
    end ->
    QueryRunner.subQueryLoop decl fuel dp queryName subQueries masks last =
      Some (Ok (target, found, masks')) ->
    chosenTarget decl fuel dp queryName (done ++ subQueries) target /\
    resolvedPtr target = found /\
    (if found then exists t, target = Some t /\ QueryRunner.setMasks t masks = Ok masks'
     else masks' = masks).
Proof.
  induction subQueries as [|q rest IH];
    intros done masks last target found masks' Hnone Hlast;
    cbn [QueryRunner.subQueryLoop].
  - intros [= <- <- <-]. rewrite app_nil_r.
    destruct last as [t|].
    + destruct Hlast as (pre & q & -> & Hq).
      apply Forall_app in Hnone as [Hpre Hq'].
      inversion Hq' as [|? ? (t' & Ht' & Hle) _]; subst.
      assert (t' = t) by congruence. subst t'.
      split; [|split; [|reflexivity]].
      * exists pre, q, []. split; [reflexivity|]. split; [exact Hpre|].
        split; [exact Hq | now right].
      * cbn [resolvedPtr]. apply Z.ltb_ge. exact Hle.
    + subst done. repeat split.
  - destruct (QueryRunner.findTarget decl fuel dp queryName q) as [[t|]|] eqn:Eq;
      try discriminate.
    destruct (Z.ltb_spec 0 (nodeIdx t)) as [Hpos|Hle].
    + destruct (QueryRunner.setMasks t masks) as [m1|] eqn:Em; cbn [bind];
        [|discriminate].
      intros [= <- <- <-].
      split; [|split].
      * exists done, q, rest. split; [reflexivity|]. split; [exact Hnone|].
        split; [exact Eq | now left].
      * cbn [resolvedPtr]. now apply Z.ltb_lt.
      * exists t. split; [reflexivity | exact Em].
    + intros H.
      apply (IH (done ++ [q])) in H.
      * rewrite <- app_assoc in H. exact H.
      * apply Forall_app. split; [exact Hnone|].
        constructor; [|constructor]. exists t. split; [exact Eq | exact Hle].
      * exists done, q. split; [reflexivity | exact Eq].
Qed.

Lemma string_app_nil_r (a : string) : (a ++ "")%string = a.
Proof. induction a as [|c a IH]; simpl; [reflexivity | now rewrite IH]. Qed.

Lemma skipn_nth_error {A : Type} (l : list A) (i : nat) (x : A) :
  nth_error l i = Some x -> skipn i l = x :: skipn (S i) l.
Proof.
  revert i; induction l as [|y l IH]; intros [|i] H; simpl in *; try discriminate.
  - now injection H as ->.
  - now apply IH.
Qed.

Lemma chosenTarget_name decl fuel dp queryName subQueries t :
  chosenTarget decl fuel dp queryName subQueries (Some t) -> name t = queryName.
Proof. intros (pre & q & post & _ & _ & Hq & _). eapply findTarget_name; eassumption. Qed.

(** The loop over the names: what it adds to the targets, the masks and the
    log. *)
Lemma queryLoop_spec decl fuel dp querySet n :
  forall targetIdx targets masks log targets' masks' log',
    0 <= targetIdx ->
    QueryRunner.queryLoop decl fuel dp querySet n targetIdx targets masks log =
      Some (Ok (targets', masks', log')) ->
    exists added,
      targets' = targets ++ added /\
      List.length added = n /\
      (forall k tp, nth_error added k = Some tp ->
         exists queryName,
           nth_error (QueryRunner.names querySet) (Z.to_nat targetIdx + k) = Some queryName /\
           chosenTarget decl fuel dp queryName
             (QueryRunner.queriesFor querySet queryName) tp) /\
      List.length (valueNodeMask masks') = List.length (valueNodeMask masks) /\
      List.length (pathNodeMask masks') = List.length (pathNodeMask masks) /\
      (forall j, maskAt (valueNodeMask masks') j = true <->
                 maskAt (valueNodeMask masks) j = true \/
                 exists t, In (Some t) added /\ 0 < nodeIdx t /\ nodeIdx t = j) /\
      (forall j, maskAt (pathNodeMask masks') j = true <->
                 maskAt (pathNodeMask masks) j = true \/
                 exists t, In (Some t) added /\ 0 < nodeIdx t /\ In j (seqPath t)) /\
      log' = (log ++ warningsFor querySet (getSubset dp)
                       (skipn (Z.to_nat targetIdx) (QueryRunner.names querySet))
                       added)%string.
Proof.
  induction n as [|n IH]; intros targetIdx targets masks log targets' masks' log' Hidx;
    cbn [QueryRunner.queryLoop].
  - intros [= <- <- <-]. exists []. rewrite app_nil_r.
    split; [reflexivity|]. split; [reflexivity|].
    split; [intros [|k] tp; discriminate|].
    split; [reflexivity|]. split; [reflexivity|].
    split; [intros j; split; [now left | intros [H|(t & [] & _)]; exact H]|].
    split; [intros j; split; [now left | intros [H|(t & [] & _)]; exact H]|].
    destruct (skipn _ _); cbn [warningsFor]; now rewrite string_app_nil_r.
  - destruct (vget (QueryRunner.names querySet) targetIdx) as [queryName|] eqn:En;
      [|discriminate].
    assert (Hname : nth_error (QueryRunner.names querySet) (Z.to_nat targetIdx) =
                    Some queryName).
    { unfold vget in En. destruct (targetIdx <? 0); [discriminate|].
      destruct (nth_error _ _); [|discriminate]. now injection En as ->. }
    destruct (QueryRunner.subQueryLoop decl fuel dp queryName
                (QueryRunner.queriesFor querySet queryName) masks None)
      as [[[[tp found] m1]|]|] eqn:Es; try discriminate.
    apply (subQueryLoop_spec decl fuel dp queryName _ []) in Es
      as (Hchosen & Hres & Hmask); [|constructor|reflexivity].
    cbn [app] in Hchosen.
    intros H. apply IH in H
      as (added & -> & Hlen & Hnth & Hlv & Hlp & Hv & Hp & ->); [|lia].
    replace (Z.to_nat (targetIdx + 1)) with (S (Z.to_nat targetIdx)) in * by lia.
    exists (tp :: added).
    split; [now rewrite <- app_assoc|].
    split; [simpl; now rewrite Hlen|].
    assert (Hm1 :
              List.length (valueNodeMask m1) = List.length (valueNodeMask masks) /\
              List.length (pathNodeMask m1) = List.length (pathNodeMask masks) /\
              (forall j, maskAt (valueNodeMask m1) j = true <->
                         maskAt (valueNodeMask masks) j = true \/
                         exists t, tp = Some t /\ 0 < nodeIdx t /\ nodeIdx t = j) /\
              (forall j, maskAt (pathNodeMask m1) j = true <->
                         maskAt (pathNodeMask masks) j = true \/
                         exists t, tp = Some t /\ 0 < nodeIdx t /\ In j (seqPath t))).
    { destruct found.
      - destruct Hmask as (t & -> & Hset). cbn [resolvedPtr] in Hres.
        apply Z.ltb_lt in Hres.
        apply setMasks_spec in Hset as (L1 & L2 & Hv1 & Hp1).
        split; [exact L1|]. split; [exact L2|]. split.
        + intros j. rewrite Hv1. split.
          * intros [H|H]; [now left|]. right. exists t. repeat split; congruence.
          * intros [H|(t' & [= <-] & _ & H)]; [now left | right; congruence].
        + intros j. rewrite Hp1. split.
          * intros [H|H]; [now left|]. right. exists t. repeat split; assumption.
          * intros [H|(t' & [= <-] & _ & H)]; [now left | now right].
      - subst m1. split; [reflexivity|]. split; [reflexivity|].
        split; intros j; (split; [now left|]);
          (intros [H|(t & -> & Hpos & _)]; [exact H|]);
          cbn [resolvedPtr] in Hres; apply Z.ltb_ge in Hres; lia. }
    destruct Hm1 as (L1 & L2 & Hv1 & Hp1).
    split.
    { intros [|k] tp' Hk; simpl in Hk.
      - injection Hk as <-. exists queryName. rewrite Nat.add_0_r.
        split; [exact Hname | exact Hchosen].
      - destruct (Hnth k tp' Hk) as (qn & Hqn & Hc). exists qn.
        replace (Z.to_nat targetIdx + S k)%nat with (S (Z.to_nat targetIdx) + k)%nat by lia.
        split; [exact Hqn | exact Hc]. }
    split; [congruence|]. split; [congruence|].
    split.
    { intros j. rewrite Hv, Hv1. split.
      - intros [[H|(t & -> & H1 & H2)]|(t & H0 & H1 & H2)].
        + now left.
        + right. exists t. split; [now left|]. split; assumption.
        + right. exists t. split; [now right|]. split; assumption.
      - intros [H|(t & [H0|H0] & H1 & H2)].
        + left. now left.
        + left. right. exists t. repeat split; assumption.
        + right. exists t. repeat split; assumption. }
    split.
    { intros j. rewrite Hp, Hp1. split.
      - intros [[H|(t & -> & H1 & H2)]|(t & H0 & H1 & H2)].
        + now left.
        + right. exists t. split; [now left|]. split; assumption.
        + right. exists t. split; [now right|]. split; assumption.
      - intros [H|(t & [H0|H0] & H1 & H2)].
        + left. now left.
        + left. right. exists t. repeat split; assumption.
        + right. exists t. repeat split; assumption. }
    rewrite (skipn_nth_error _ _ _ Hname). cbn [warningsFor]. rewrite Hres.
    destruct found.
    + reflexivity.
    + now rewrite string_app_assoc.
Qed.

Lemma newMask_inv (numNodes : Z) (mask : list bool) :
  QueryRunner.newMask numNodes = Ok mask ->
  mask = repeat false (Z.to_nat (numNodes mod 2 ^ 64)).
Proof.
  unfold QueryRunner.newMask. destruct (_ <? _); [discriminate|]. now intros [= <-].
Qed.

(** [old_findTargets] when the subset is not in the cache of the targets. *)
Lemma old_findTargets_miss decl fuel dp querySet caches targets masks caches' log :
  QueryRunner.cache_find (QueryRunner.targetCache_ caches) (getSubset dp) = None ->
  QueryRunner.old_findTargets decl fuel dp querySet caches =
    Some (Ok (targets, masks, caches', log)) ->
  let mask0 := repeat false (Z.to_nat (getIsc dp (getInode dp) mod 2 ^ 64)) in
  QueryRunner.queryLoop decl fuel dp querySet (Z.to_nat (QueryRunner.qs_size querySet)) 0
    [] (mkProcessingMasks mask0 mask0) "" = Some (Ok (targets, masks, log)) /\
  caches' =
    QueryRunner.mkCaches
      (QueryRunner.cache_insert (QueryRunner.targetCache_ caches) (getSubset dp) targets)
      (QueryRunner.cache_insert (QueryRunner.maskCache_ caches) (getSubset dp) masks).
Proof.
  intros Hmiss. unfold QueryRunner.old_findTargets. rewrite Hmiss.
  destruct (QueryRunner.newMask (getIsc dp (getInode dp))) as [m|] eqn:Em;
    cbn [bind]; [|discriminate].
  apply newMask_inv in Em. subst m.
  destruct (QueryRunner.queryLoop _ _ _ _ _ _ _ _ _) as [[[[ts ms] lg]|]|] eqn:El;
    try discriminate.
  intros [= <- <- <- <-]. split; reflexivity.
Qed.

Lemma old_findTargets_spec decl fuel dp querySet caches targets masks caches' log :
  QueryRunner.cache_find (QueryRunner.targetCache_ caches) (getSubset dp) = None ->
  QueryRunner.old_findTargets decl fuel dp querySet caches =
    Some (Ok (targets, masks, caches', log)) ->
  List.length targets = Z.to_nat (QueryRunner.qs_size querySet) /\
  (forall k tp, nth_error targets k = Some tp ->
     exists queryName,
       nth_error (QueryRunner.names querySet) k = Some queryName /\
       chosenTarget decl fuel dp queryName
         (QueryRunner.queriesFor querySet queryName) tp) /\
  List.length (valueNodeMask masks) = Z.to_nat (getIsc dp (getInode dp) mod 2 ^ 64) /\
  List.length (pathNodeMask masks) = Z.to_nat (getIsc dp (getInode dp) mod 2 ^ 64) /\
  (forall j, maskAt (valueNodeMask masks) j = true <->
             exists t, In (Some t) targets /\ 0 < nodeIdx t /\ nodeIdx t = j) /\
  (forall j, maskAt (pathNodeMask masks) j = true <->
             exists t, In (Some t) targets /\ 0 < nodeIdx t /\ In j (seqPath t)) /\
  log = warningsFor querySet (getSubset dp) (QueryRunner.names querySet) targets.
Proof.
  intros Hmiss H.
  destruct (old_findTargets_miss _ _ _ _ _ _ _ _ _ Hmiss H) as [Hloop _].
  apply queryLoop_spec in Hloop
    as (added & -> & Hlen & Hnth & Hlv & Hlp & Hv & Hp & ->); [|lia].
  cbn [app valueNodeMask pathNodeMask] in *. rewrite repeat_length in Hlv, Hlp.
  split; [exact Hlen|]. split; [exact Hnth|].
  split; [exact Hlv|]. split; [exact Hlp|].
  split.
  { intros j. rewrite Hv, maskAt_repeat_false. split.
    - intros [H0|H0]; [discriminate | exact H0].
    - intros H0. now right. }
  split.
  { intros j. rewrite Hp, maskAt_repeat_false. split.
    - intros [H0|H0]; [discriminate | exact H0].
    - intros H0. now right. }
  reflexivity.
Qed.

(** X16: when the subset is not cached, [old_findTargets] returns one
    pointer for each of the first [size()] names of the query set, in their
    order: the target of the first sub-query of the name that resolves to a
    node or, when none does, the target of its last sub-query (the null
    pointer if the name has no sub-query), and every target carries the name
    it was made for; the warning log holds one warning for each name without
    a resolved target, in the same order. *)
Theorem old_findTargets_targets decl fuel dp querySet caches targets masks caches' log :
  QueryRunner.cache_find (QueryRunner.targetCache_ caches) (getSubset dp) = None ->
  QueryRunner.old_findTargets decl fuel dp querySet caches =
    Some (Ok (targets, masks, caches', log)) ->
  List.length targets = Z.to_nat (QueryRunner.qs_size querySet) /\
  (forall k tp, nth_error targets k = Some tp ->
     exists queryName,
       nth_error (QueryRunner.names querySet) k = Some queryName /\
       chosenTarget decl fuel dp queryName
         (QueryRunner.queriesFor querySet queryName) tp /\
       forall t, tp = Some t -> name t = queryName) /\
  log = warningsFor querySet (getSubset dp) (QueryRunner.names querySet) targets.
Proof.
  intros Hmiss H.
  apply old_findTargets_spec in H as (Hlen & Hnth & _ & _ & _ & _ & Hlog);
    [|exact Hmiss].
  split; [exact Hlen|]. split; [|exact Hlog].
  intros k tp Hk. destruct (Hnth k tp Hk) as (qn & Hqn & Hc).
  exists qn. split; [exact Hqn|]. split; [exact Hc|].
  intros t ->. eapply chosenTarget_name; eassumption.
Qed.

Lemma old_findTargets_targets_witness :
  warningsFor exampleQuerySet "NC" ["temp"; "nope"]
    [Some (tempTarget (kelvin 1));
     Some nopeTarget] =
    ("Warning: Query String */NOPE didn't apply to subset NC" ++ QueryRunner.newline)%string.
Proof.
  destruct (old_findTargets_targets exampleDecl 10 exampleProvider exampleQuerySet
              noCaches
              [Some (tempTarget (kelvin 1));
               Some nopeTarget]
              queryMasks
              _ _ eq_refl eq_refl) as (_ & _ & Hlog).
  symmetry. exact Hlog.
Defined.

(** X17: when the subset is not cached, the two masks [old_findTargets]
    returns have [isc(inode)] entries; the value mask is set only at nodes
    of the resolved targets it returns, and at every such node that lies
    below [isc(inode)]; the path mask is set only at nodes of their
    [seqPath]s, and at every such node that lies within the mask. *)
Theorem old_findTargets_masks decl fuel dp querySet caches targets masks caches' log :
  QueryRunner.cache_find (QueryRunner.targetCache_ caches) (getSubset dp) = None ->
  QueryRunner.old_findTargets decl fuel dp querySet caches =
    Some (Ok (targets, masks, caches', log)) ->
  let numNodes := getIsc dp (getInode dp) mod 2 ^ 64 in
  vsize (valueNodeMask masks) = numNodes /\
  vsize (pathNodeMask masks) = numNodes /\
  (forall j, maskAt (valueNodeMask masks) j = true ->
             exists t, In (Some t) targets /\ 0 < nodeIdx t /\ nodeIdx t = j) /\
  (forall j, maskAt (pathNodeMask masks) j = true ->
             exists t, In (Some t) targets /\ 0 < nodeIdx t /\ In j (seqPath t)) /\
  (forall t, In (Some t) targets -> 0 < nodeIdx t -> nodeIdx t < numNodes ->
             maskAt (valueNodeMask masks) (nodeIdx t) = true) /\
  (forall t s, In (Some t) targets -> 0 < nodeIdx t -> In s (seqPath t) ->
               0 <= s < numNodes ->
               maskAt (pathNodeMask masks) s = true).
Proof.
  intros Hmiss H numNodes.
  apply old_findTargets_spec in H as (_ & _ & Hlv & Hlp & Hv & Hp & _);
    [|exact Hmiss].
  assert (Hn : 0 <= numNodes) by (apply Z.mod_pos_bound; lia).
  split; [unfold vsize; rewrite Hlv; now apply Z2Nat.id|].
  split; [unfold vsize; rewrite Hlp; now apply Z2Nat.id|].
  split; [intros j Hj; now apply Hv|].
  split; [intros j Hj; now apply Hp|].
  split.
  - intros t Hin Hpos _. apply Hv. exists t. repeat split; assumption.
  - intros t s Hin Hpos Hs _. apply Hp. exists t. repeat split; assumption.
Qed.

Lemma old_findTargets_masks_witness :
  maskAt (valueNodeMask queryMasks) 4 = true /\
  exists t, In (Some t) [Some (tempTarget (kelvin 1)); Some nopeTarget] /\
            0 < nodeIdx t /\ In 2 (seqPath t).
Proof.
  destruct (old_findTargets_masks exampleDecl 10 exampleProvider exampleQuerySet
              noCaches
              [Some (tempTarget (kelvin 1));
               Some nopeTarget]
              queryMasks
              _ _ eq_refl eq_refl) as (_ & _ & _ & Hp & Hv & _).
  split.
  - apply (Hv (tempTarget (kelvin 1))); [left; reflexivity | reflexivity | reflexivity].
  - apply Hp. reflexivity.
Defined.

Lemma cache_find_insert {A : Type} (m : list (string * A)) (k : string) (v : A) :
  QueryRunner.cache_find m k = None ->
  QueryRunner.cache_find (QueryRunner.cache_insert m k v) k = Some v.
Proof.
  intros H. unfold QueryRunner.cache_insert. rewrite H.
  induction m as [|[k' v'] m IH]; simpl in *.
  - now rewrite String.eqb_refl.
  - destruct (String.eqb k' k); [discriminate | now apply IH].
Qed.

Lemma cache_find_insert_other {A : Type} (m : list (string * A)) (k k' : string) (v : A) :
  k' <> k ->
  QueryRunner.cache_find (QueryRunner.cache_insert m k v) k' = QueryRunner.cache_find m k'.
Proof.
  intros Hne. unfold QueryRunner.cache_insert.
  destruct (QueryRunner.cache_find m k); [reflexivity|].
  induction m as [|[k2 v2] m IH]; simpl.
  - destruct (String.eqb_spec k k'); [congruence | reflexivity].
  - destruct (String.eqb k2 k'); [reflexivity | exact IH].
Qed.

(** X18: the caches are keyed by the name of the subset alone.  After
    [old_findTargets] has returned, with caches that hold masks only for
    subsets that have targets, a further call for a subset of the same name
    returns the same targets and masks from the caches, whatever the nodes
    of the subset and the query set then are, changes nothing and logs
    nothing; and the entries of the other subsets are as before. *)
Theorem old_findTargets_cached decl fuel dp querySet caches targets masks caches' log :
  QueryRunner.old_findTargets decl fuel dp querySet caches =
    Some (Ok (targets, masks, caches', log)) ->
  (QueryRunner.cache_find (QueryRunner.targetCache_ caches) (getSubset dp) = None ->
   QueryRunner.cache_find (QueryRunner.maskCache_ caches) (getSubset dp) = None) ->
  (forall fuel' dp' querySet',
     getSubset dp' = getSubset dp ->
     QueryRunner.old_findTargets decl fuel' dp' querySet' caches' =
       Some (Ok (targets, masks, caches', ""))) /\
  (forall k, k <> getSubset dp ->
     QueryRunner.cache_find (QueryRunner.targetCache_ caches') k =
       QueryRunner.cache_find (QueryRunner.targetCache_ caches) k /\
     QueryRunner.cache_find (QueryRunner.maskCache_ caches') k =
       QueryRunner.cache_find (QueryRunner.maskCache_ caches) k).
Proof.
  intros H Hcons.
  destruct (QueryRunner.cache_find (QueryRunner.targetCache_ caches) (getSubset dp))
    as [ts|] eqn:Ef.
  - unfold QueryRunner.old_findTargets in H. rewrite Ef in H.
    unfold QueryRunner.cache_at in H.
    destruct (QueryRunner.cache_find (QueryRunner.maskCache_ caches) (getSubset dp))
      as [ms|] eqn:Em; cbn [bind] in H; [|discriminate].
    injection H as <- <- <- <-.
    split; [|intros k _; split; reflexivity].
    intros fuel' dp' querySet' Hs. unfold QueryRunner.old_findTargets, QueryRunner.cache_at.
    rewrite Hs, Ef, Em. reflexivity.
  - destruct (old_findTargets_miss _ _ _ _ _ _ _ _ _ Ef H) as [_ ->].
    specialize (Hcons eq_refl). split.
    + intros fuel' dp' querySet' Hs.
      unfold QueryRunner.old_findTargets, QueryRunner.cache_at.
      cbn [QueryRunner.targetCache_ QueryRunner.maskCache_]. rewrite Hs.
      rewrite (cache_find_insert _ _ targets Ef), (cache_find_insert _ _ masks Hcons).
      reflexivity.
    + intros k Hk. cbn [QueryRunner.targetCache_ QueryRunner.maskCache_].
      split; now apply cache_find_insert_other.
Qed.

Lemma old_findTargets_cached_witness :
  QueryRunner.old_findTargets exampleDecl 0 (streamOf 3)
    (QueryRunner.mkQuerySet 0 [] (fun _ => [])) queryCaches =
    Some (Ok ([Some (tempTarget (kelvin 1)); Some nopeTarget], queryMasks,
              queryCaches, "")).
Proof.
  apply (proj1 (old_findTargets_cached exampleDecl 10 exampleProvider exampleQuerySet
                  noCaches [Some (tempTarget (kelvin 1)); Some nopeTarget] queryMasks
                  queryCaches
                  ("Warning: Query String */NOPE didn't apply to subset NC"
                     ++ QueryRunner.newline)%string
                  eq_refl (fun _ => eq_refl))).
  reflexivity.
Defined.


(** ** The rows of a field with one replication *)

Lemma runningMaxFrom_mono targetIdx frames k :
  forall d, d <= runningMaxFrom targetIdx d frames k.
Proof.
  unfold runningMaxFrom. induction frames as [|f frames IH]; intros d; simpl; [lia|].
  etransitivity; [|apply IH]. destruct (nth_error (examined targetIdx f) k); lia.
Qed.

Lemma runningMaxFrom_ge targetIdx frames k f c :
  In f frames -> nth_error (examined targetIdx f) k = Some c ->
  forall d, ResultSet.max c <= runningMaxFrom targetIdx d frames k.
Proof.
  intros Hin Hc. induction frames as [|g frames IH]; [destruct Hin|].
  intros d. destruct Hin as [->|Hin].
  - unfold runningMaxFrom. cbn [fold_left]. rewrite Hc.
    etransitivity; [|apply (runningMaxFrom_mono targetIdx frames k)]. lia.
  - now apply IH.
Qed.

Lemma runningMaxFrom_same targetIdx frames k c :
  Forall (fun f => nth_error (examined targetIdx f) k = Some c) frames ->
  frames <> [] ->
  forall d, runningMaxFrom targetIdx d frames k = Z.max d (ResultSet.max c).
Proof.
  induction 1 as [|f frames Hf Hall IH]; intros Hne d; [congruence|].
  unfold runningMaxFrom. cbn [fold_left]. rewrite Hf.
  destruct frames as [|g frames]; [reflexivity|].
  fold (runningMaxFrom targetIdx (Z.max d (ResultSet.max c)) (g :: frames) k).
  rewrite IH by discriminate. lia.
Qed.

Lemma oneLevel_examined targetIdx frame fragment :
  oneLevel targetIdx frame fragment ->
  examined targetIdx frame = [[1]; [Z.of_nat (List.length fragment)]].
Proof.
  intros (t & pSubset & pSeq & pLeaf & Ht & Hp & Hc1 & Hc2).
  unfold examined. rewrite Ht, Hp. cbn [removelast examinedCounts].
  now rewrite Hc1, Hc2.
Qed.

Lemma Forall2_oneLevel_frames targetIdx frames fragments (P : ResultSet.DataFrame -> Prop) :
  Forall2 (oneLevel targetIdx) frames fragments ->
  (forall f fr, oneLevel targetIdx f fr -> P f) ->
  Forall P frames.
Proof. induction 1; intros HP; constructor; eauto. Qed.

(** The dimensions of a field with one replication: one row of the largest
    number of occurrences. *)
Lemma oneLevel_dims decl fieldName groupByField frames st fragments :
  ResultSet.computeDims decl fieldName groupByField frames = Ok st ->
  Forall2 (oneLevel (fieldIdx fieldName frames)) frames fragments ->
  exists d1,
    ResultSet.ds_dimsList st = [1; d1] /\
    0 <= d1 /\
    Forall (fun fr => Z.of_nat (List.length fr) <= d1) fragments.
Proof.
  intros Hst Hall. set (targetIdx := fieldIdx fieldName frames) in *.
  apply computeDims_dimsList in Hst as (front & rest & target & Hfr & Ht & Hdl).
  fold targetIdx in Ht, Hdl.
  assert (Hcount : dimCount target = 2%nat).
  { rewrite Hfr in Hall. inversion Hall as [|? fr ? ? (t & p1 & p2 & p3 & Ht' & Hp & _) _];
      subst.
    assert (t = target) by congruence. subst t.
    unfold dimCount, vsize. rewrite Hp. reflexivity. }
  rewrite Hcount in Hdl. unfold frameDims in Hdl. cbn [seq map] in Hdl.
  exists (runningMax targetIdx frames 1). split.
  - rewrite Hdl. f_equal. unfold runningMax.
    rewrite (runningMaxFrom_same targetIdx frames 0 [1]).
    + reflexivity.
    + apply (Forall2_oneLevel_frames _ _ _ _ Hall). intros f fr H.
      now rewrite (oneLevel_examined _ _ _ H).
    + rewrite Hfr. discriminate.
  - split; [apply runningMaxFrom_nonneg; lia|].
    clear Hdl Hfr Ht. clearbody targetIdx. unfold runningMax.
    generalize 0 as d. induction Hall as [|f fr fs frs Hf Hall IH]; intros d;
      constructor.
    + pose proof (runningMaxFrom_ge targetIdx (f :: fs) 1 f
                    [Z.of_nat (List.length fr)] (or_introl eq_refl)) as Hge.
      rewrite (oneLevel_examined _ _ _ Hf) in Hge. specialize (Hge eq_refl d).
      exact Hge.
    + unfold runningMaxFrom. cbn [fold_left].
      eapply Forall_impl; [|apply IH]. intros a Ha. exact Ha.
Qed.

Lemma to_int_small (z : Z) : - 2 ^ 31 <= z < 2 ^ 31 -> ResultSet.to_int z = z.
Proof. intros H. unfold ResultSet.to_int. rewrite Z.mod_small; lia. Qed.

Lemma shiftIdxs_below (idxs : list Z) (data_idx num_inserts : Z) :
  Forall (fun idx => ResultSet.to_int idx <= data_idx) idxs ->
  ResultSet.shiftIdxs idxs data_idx num_inserts = idxs.
Proof.
  unfold ResultSet.shiftIdxs. induction 1 as [|idx idxs Hidx _ IH]; simpl; [reflexivity|].
  destruct (Z.ltb_spec data_idx (ResultSet.to_int idx)); [lia|]. now rewrite IH.
Qed.

(** The insertions of a row that is filled from its start move no index. *)
Lemma inflateDim_oneLevel (d1 : Z) (n : nat) :
  Z.of_nat n <= d1 < 2 ^ 31 ->
  ResultSet.inflateDim d1 [d1 - Z.of_nat n] 0 (map Z.of_nat (seq 0 n)) =
  map Z.of_nat (seq 0 n).
Proof.
  intros Hd. cbn [ResultSet.inflateDim].
  rewrite (to_size_t_small (d1 - Z.of_nat n)) by lia.
  destruct (0 <? d1 - Z.of_nat n); [|reflexivity].
  apply shiftIdxs_below. apply Forall_forall. intros idx Hin.
  apply in_map_iff in Hin as (k & <- & Hk). apply in_seq in Hk.
  rewrite (to_size_t_small d1) by lia.
  replace (d1 * 0 + d1 - (d1 - Z.of_nat n) - 1) with (Z.of_nat n - 1) by lia.
  rewrite (to_size_t_small (Z.of_nat n - 1)) by lia.
  rewrite !to_int_small by lia. lia.
Qed.

Lemma computeInserts_oneLevel frame d1 pSubset pSeq pLeaf n :
  ResultSet.counts (ResultSet.frameAt frame (ResultSet.nodeId pSubset)) = [1] ->
  ResultSet.counts (ResultSet.frameAt frame (ResultSet.nodeId pSeq)) = [n] ->
  ResultSet.computeInserts frame [1; d1] [pSubset; pSeq; pLeaf] 2 0 [[0]; [0]] =
    Ok [[0]; [d1 - n]].
Proof.
  intros H1 H2. cbn [ResultSet.computeInserts].
  change (vget [pSubset; pSeq; pLeaf] 0) with (Ok pSubset). cbn [bind].
  rewrite H1.
  change (vget [pSubset; pSeq; pLeaf] (0 + 1)) with (Ok pSeq).
  change (Z.to_nat 0) with 0%nat. change (Z.to_nat (0 + 1)) with 1%nat.
  change (Z.to_nat (0 + 1 + 1)) with 2%nat.
  cbn [skipn]. unfold ResultSet.product, ResultSet.scalarMinusScaled.
  cbn [fold_left map].
  change (vset [[0]; [0]] 0 [1 * 1 * d1 - 1 * (1 * d1)])
    with (Ok [[1 * 1 * d1 - 1 * (1 * d1)]; [0]]).
  cbn [bind]. rewrite H2. cbn [map].
  change (vset [[1 * 1 * d1 - 1 * (1 * d1)]; [0]] (0 + 1) [1 * d1 - n * 1])
    with (Ok [[1 * 1 * d1 - 1 * (1 * d1)]; [1 * d1 - n * 1]]).
  cbn [bind]. repeat f_equal; lia.
Qed.

Lemma scatter_seq (fragment : list double) :
  forall (k : nat) (base : Z) (values : list double),
    0 <= base ->
    base + Z.of_nat k + Z.of_nat (List.length fragment) <= 2 ^ 64 ->
    ResultSet.scatter (map Z.of_nat (seq k (List.length fragment))) fragment base values =
    ResultSet.copyTo fragment (base + Z.of_nat k) values.
Proof.
  induction fragment as [|x fragment IH]; intros k base values Hbase Hbound;
    cbn [List.length seq map ResultSet.scatter ResultSet.copyTo]; [reflexivity|].
  cbn [List.length] in Hbound.
  rewrite to_size_t_small by lia.
  replace (Z.of_nat k + base) with (base + Z.of_nat k) by lia.
  destruct (vset values (base + Z.of_nat k) x) as [v1|]; cbn [bind]; [|reflexivity].
  rewrite IH by lia. f_equal. lia.
Qed.

(** With one replication the copy of a jagged frame is the plain copy. *)
Lemma copyFrame_oneLevel targetIdx d1 frameIdx frame values prev :
  oneLevel targetIdx frame (ResultSet.data (ResultSet.frameAt frame (nodeIdx prev))) ->
  Z.of_nat (List.length (ResultSet.data (ResultSet.frameAt frame (nodeIdx prev)))) <= d1 ->
  d1 < 2 ^ 31 ->
  0 <= frameIdx -> (frameIdx + 1) * d1 <= 2 ^ 64 ->
  ResultSet.copyFrame targetIdx true [1; d1] d1 frameIdx frame (values, prev) =
  ResultSet.copyFrame targetIdx false [1; d1] d1 frameIdx frame (values, prev).
Proof.
  intros (t & pSubset & pSeq & pLeaf & Ht & Hp & Hc1 & Hc2) Hlen Hd Hidx Hbound.
  unfold ResultSet.copyFrame.
  set (fragment := ResultSet.data (ResultSet.frameAt frame (nodeIdx prev))) in *.
  destruct (vat (ResultSet.getTargets frame) targetIdx) as [t'|] eqn:Et;
    cbn [bind]; [|reflexivity].
  apply vat_frameTarget in Et. assert (t' = t) by congruence. subst t'.
  rewrite Hp. cbn [List.length Nat.min repeat].
  rewrite (computeInserts_oneLevel frame d1 pSubset pSeq pLeaf _ Hc1 Hc2).
  cbn [bind ResultSet.inflate].
  change (vget [[0]; [d1 - Z.of_nat (List.length fragment)]] (Z.of_nat 1))
    with (Ok [d1 - Z.of_nat (List.length fragment)]).
  change (vget [[0]; [d1 - Z.of_nat (List.length fragment)]] (Z.of_nat 0))
    with (Ok [0]).
  cbn [bind skipn]. unfold ResultSet.product. cbn [fold_left].
  replace (1 * d1) with d1 by lia.
  rewrite inflateDim_oneLevel by lia.
  cbn [ResultSet.inflateDim].
  change (0 <? ResultSet.to_size_t 0) with false. cbv iota.
  assert (Hbase : 0 <= ResultSet.to_size_t (frameIdx * ResultSet.to_size_t d1) /\
                  ResultSet.to_size_t (frameIdx * ResultSet.to_size_t d1) +
                  Z.of_nat (List.length fragment) <= 2 ^ 64).
  { assert (0 <= d1) by lia.
    destruct (Z.eq_dec d1 (2 ^ 64)) as [->|]; [lia|].
    rewrite (to_size_t_small d1) by lia.
    rewrite to_size_t_small by nia. nia. }
  rewrite (scatter_seq fragment 0) by lia.
  now rewrite Z.add_0_r.
Qed.

Lemma copyLoop_oneLevel targetIdx d1 frames :
  forall frameIdx values prev,
    Forall2 (oneLevel targetIdx) frames (fragmentsFrom targetIdx frames prev) ->
    Forall (fun fr => Z.of_nat (List.length fr) <= d1)
           (fragmentsFrom targetIdx frames prev) ->
    d1 < 2 ^ 31 -> 0 <= frameIdx -> (frameIdx + vsize frames) * d1 <= 2 ^ 64 ->
    ResultSet.copyLoop targetIdx true [1; d1] d1 frameIdx frames (values, prev) =
    ResultSet.copyLoop targetIdx false [1; d1] d1 frameIdx frames (values, prev).
Proof.
  induction frames as [|f frames IH]; intros frameIdx values prev Hone Hlen Hd Hidx Hbound;
    cbn [ResultSet.copyLoop]; [reflexivity|].
  cbn [fragmentsFrom] in Hone, Hlen.
  inversion Hone as [|? ? ? ? Hf Hrest]; subst.
  inversion Hlen as [|? ? Hfl Hlrest]; subst.
  assert (H0 : 0 <= d1) by (pose proof (Nat2Z.is_nonneg
    (List.length (ResultSet.data (ResultSet.frameAt f (nodeIdx prev))))); lia).
  unfold vsize in Hbound. cbn [List.length] in Hbound.
  rewrite (copyFrame_oneLevel targetIdx d1 frameIdx f values prev Hf Hfl Hd Hidx)
    by nia.
  destruct (ResultSet.copyFrame targetIdx false [1; d1] d1 frameIdx f (values, prev))
    as [[v1 t1]|] eqn:E; cbn [bind]; [|reflexivity].
  apply copyFrame_inv in E as (Et & _ & _). rewrite Et in Hrest, Hlrest.
  apply IH; try assumption; [lia | unfold vsize; nia].
Qed.

Lemma runningMaxFrom_attained targetIdx frames k :
  forall d,
    runningMaxFrom targetIdx d frames k = d \/
    exists f c, In f frames /\ nth_error (examined targetIdx f) k = Some c /\
                runningMaxFrom targetIdx d frames k = ResultSet.max c.
Proof.
  induction frames as [|f frames IH]; intros d; [now left|].
  unfold runningMaxFrom. cbn [fold_left].
  destruct (nth_error (examined targetIdx f) k) as [c|] eqn:Ec.
  - destruct (IH (Z.max d (ResultSet.max c))) as [H|(g & c' & Hin & Hc & H)].
    + unfold runningMaxFrom in H. rewrite H.
      destruct (Z.max_spec d (ResultSet.max c)) as [[_ ->]|[_ ->]].
      * right. exists f, c. split; [now left|]. split; [exact Ec | reflexivity].
      * now left.
    + right. exists g, c'. split; [now right|]. split; assumption.
  - destruct (IH d) as [H|(g & c' & Hin & Hc & H)].
    + now left.
    + right. exists g, c'. split; [now right|]. split; assumption.
Qed.

Lemma Forall2_In_l {A B : Type} (R : A -> B -> Prop) (l : list A) (l' : list B) (a : A) :
  Forall2 R l l' -> In a l -> exists b, In b l' /\ R a b.
Proof.
  induction 1 as [|x y l l' Hxy _ IH]; intros Hin; [destruct Hin|].
  destruct Hin as [->|Hin].
  - exists y. split; [now left | exact Hxy].
  - destruct (IH Hin) as (b & Hb & Hr). exists b. split; [now right | exact Hr].
Qed.

(** X21: for a field with one replication (every frame's target has the
    path subset, sequence, leaf; the frame counts the subset once and the
    sequence as often as its fragment has values), jagged or not, the
    dimensions of a frame are one row of the largest number of occurrences,
    and the data [getRawValues] returns are the fragments of the frames in
    frame order, each followed by missing values up to that length. *)
Theorem getRawValues_one_replication decl fieldName groupByField frames st values dims
    paths info :
  ResultSet.computeDims decl fieldName groupByField frames = Ok st ->
  ResultSet.getRawValues decl fieldName groupByField frames =
    Ok (values, dims, paths, info) ->
  let targetIdx := fieldIdx fieldName frames in
  let rowLength := ResultSet.rowLengthOf (ResultSet.ds_dimsList st) in
  let fragments := fragmentsFrom targetIdx frames (ResultSet.ds_target st) in
  Forall2 (oneLevel targetIdx) frames fragments ->
  rowLength < 2 ^ 31 ->
  vsize frames * rowLength < 2 ^ 64 ->
  ResultSet.ds_dimsList st = [1; rowLength] /\
  Forall (fun fr => Z.of_nat (List.length fr) <= rowLength) fragments /\
  (rowLength = 0 \/ Exists (fun fr => Z.of_nat (List.length fr) = rowLength) fragments) /\
  values = flat_map (paddedRow rowLength) fragments.
Proof.
  intros Hst H targetIdx rowLength fragments Hone Hrl Hbound.
  destruct (oneLevel_dims _ _ _ _ _ _ Hst Hone) as (d1 & Hdl & Hd1 & Hlen).
  assert (Hrow : rowLength = d1).
  { unfold rowLength. rewrite Hdl. unfold ResultSet.rowLengthOf, ResultSet.product.
    cbn [tl fold_left]. lia. }
  fold fragments in Hlen. rewrite <- Hrow in Hlen, Hdl.
  split; [exact Hdl|]. split; [exact Hlen|].
  split.
  { pose proof (computeDims_dimsList _ _ _ _ _ Hst) as (front & rest & target & _ & _ & Hfd).
    fold targetIdx in Hfd. rewrite Hdl in Hfd.
    assert (Hmax : rowLength = runningMax targetIdx frames 1).
    { unfold frameDims in Hfd.
      destruct (dimCount target) as [|[|[|n]]]; cbn [seq map] in Hfd;
        try discriminate; now injection Hfd. }
    destruct (runningMaxFrom_attained targetIdx frames 1 0) as [H0|(f & c & Hin & Hc & Hm)].
    - left. unfold runningMax in Hmax. lia.
    - right. destruct (Forall2_In_l _ _ _ _ Hone Hin) as (fr & Hfr & Hf).
      rewrite (oneLevel_examined _ _ _ Hf) in Hc. injection Hc as <-.
      apply Exists_exists. exists fr. split; [exact Hfr|].
      unfold runningMax in Hmax. rewrite Hmax, Hm. reflexivity. }
  pose proof H as H'.
  apply getRawValues_inv in H'
    as (st' & data0 & target & dims1 & Hst' & Hres & Hcopy & _).
  assert (st' = st) by congruence. subst st'.
  fold targetIdx rowLength in Hres, Hcopy. rewrite Hdl in Hcopy.
  assert (Hfalse : ResultSet.copyLoop targetIdx false [1; rowLength] rowLength 0 frames
                     (data0, ResultSet.ds_target st) = Ok (values, target)).
  { destruct (ResultSet.ds_jagged st); [|exact Hcopy].
    rewrite <- Hcopy. symmetry.
    apply copyLoop_oneLevel; try assumption; lia. }
  assert (Hn : 0 <= vsize frames) by (unfold vsize; lia).
  apply resizeEmpty_inv in Hres.
  assert (Hsize : Z.to_nat (ResultSet.to_size_t (vsize frames * ResultSet.to_size_t rowLength)) =
                  (List.length frames * Z.to_nat rowLength)%nat).
  { rewrite (to_size_t_small rowLength) by lia.
    rewrite to_size_t_small by nia. unfold vsize. nia. }
  rewrite Hsize in Hres. subst data0.
  apply (copyLoop_dense targetIdx [1; rowLength] rowLength frames 0 []
           (ResultSet.ds_target st) values target); try assumption; try lia.
  simpl. lia.
Qed.

Lemma getRawValues_one_replication_witness :
  ResultSet.getRawValues exampleDecl "temp" "" jaggedFrames =
    Ok ([1#1; 2#1; MissingValue; 3#1; 4#1; 5#1; 6#1; MissingValue; MissingValue],
        [3; 3], ["*"; "*/OBS"], kelvin 1) /\
  flat_map (paddedRow 3)
    (fragmentsFrom (fieldIdx "temp" jaggedFrames) jaggedFrames (tempTarget (kelvin 1))) =
    [1#1; 2#1; MissingValue; 3#1; 4#1; 5#1; 6#1; MissingValue; MissingValue].
Proof.
  split; [reflexivity|].
  symmetry.
  apply (getRawValues_one_replication exampleDecl "temp" "" jaggedFrames
           (ResultSet.mkDimState [1; 3] true (kelvin 1) ["*"; "*/OBS"] [0; 1]
              (tempTarget (kelvin 1)))
           [1#1; 2#1; MissingValue; 3#1; 4#1; 5#1; 6#1; MissingValue; MissingValue]
           [3; 3] ["*"; "*/OBS"] (kelvin 1) eq_refl eq_refl).
  - repeat constructor;
      exists (tempTarget (kelvin 1)), (mkTargetComponent anySubset 0 TCSubset),
        (mkTargetComponent (exampleComponent "OBS") 2 TCRepeat),
        (mkTargetComponent (exampleComponent "TEMP") 0 TCValue);
      repeat split; reflexivity.
  - reflexivity.
  - reflexivity.
Defined.

(** ** A field whose target has no path *)

Lemma findTargetIdx_nonneg (targets : Targets) (fieldName : string) :
  0 <= ResultSet.findTargetIdx targets fieldName.
Proof.
  induction targets as [|t targets IH]; cbn [ResultSet.findTargetIdx]; [lia|].
  destruct (String.eqb (name t) fieldName); lia.
Qed.

(** X22: when the target of the field in the first frame has an empty path,
    as the empty target of a query that found nothing has, [get] fails with
    the length error of the resize of the dimensions to the length of the
    path minus one, whatever the frames hold. *)
Theorem get_empty_path decl front rest fieldName groupByField overrideType t :
  frameTarget (fieldIdx fieldName (front :: rest)) front = Some t ->
  path t = [] ->
  ResultSet.get decl (front :: rest) fieldName groupByField overrideType =
    Throw LengthError.
Proof.
  unfold frameTarget, fieldIdx. intros Ht Hp.
  unfold ResultSet.get, ResultSet.getRawValues, ResultSet.computeDims.
  unfold vat.
  destruct (Z.ltb_spec (ResultSet.findTargetIdx (ResultSet.getTargets front) fieldName) 0)
    as [Hneg|_].
  { pose proof (findTargetIdx_nonneg (ResultSet.getTargets front) fieldName). lia. }
  rewrite Ht. cbn [bind ResultSet.checkGroupBy]. rewrite Hp. reflexivity.
Qed.

Lemma get_empty_path_witness :
  ResultSet.get exampleDecl [unresolvedFrame; obsFrame (kelvin 1) [2] [1#1; 2#1]]
    "nope" "" "float" = Throw LengthError.
Proof.
  apply (get_empty_path exampleDecl unresolvedFrame [obsFrame (kelvin 1) [2] [1#1; 2#1]]
           "nope" "" "float" unresolvedTarget eq_refl eq_refl).
Defined.

(** ** The resolver accumulate calls *)

Lemma raisesOnly_bind {A B : Type} (P : exn -> Prop) (m : result A) (k : A -> result B) :
  raisesOnly P m -> (forall a, raisesOnly P (k a)) -> raisesOnly P (bind m k).
Proof.
  intros Hm Hk e. destruct m as [a|e']; cbn [bind].
  - apply Hk.
  - intros [= <-]. now apply Hm.
Qed.

Lemma raisesOnly_std {A : Type} (P : exn -> Prop) (r : result A) :
  throwsStd r -> raisesOnly (fun e => stdError e \/ P e) r.
Proof. intros H e He. left. now apply H. Qed.

Lemma raisesOnly_Ok {A : Type} (P : exn -> Prop) (a : A) : raisesOnly P (Ok a).
Proof. intros e H. discriminate. Qed.

Lemma throwsStd_newMask (numNodes : Z) : throwsStd (QueryRunner.newMask numNodes).
Proof. unfold QueryRunner.newMask. throws. Qed.

Lemma throwsStd_setPathMask (sp : list Z) :
  forall mask, throwsStd (QueryRunner.setPathMask sp mask).
Proof. induction sp as [|s sp IH]; intros mask; simpl; throws. Qed.

Lemma throwsStd_setMasks (t : Target) (masks : ProcessingMasks) :
  throwsStd (QueryRunner.setMasks t masks).
Proof.
  unfold QueryRunner.setMasks. throws. apply throwsStd_setPathMask.
Qed.

Lemma throwsStd_cache_at {A : Type} (m : list (string * A)) (k : string) :
  throwsStd (QueryRunner.cache_at m k).
Proof. unfold QueryRunner.cache_at. throws. Qed.

Section FindTargetsErrors.
Variable decl : TypeInfoDecl.
Variable newSubsetTable : DataProvider -> result QueryRunner.SubsetTable.
Variable TargetComponent_default : TargetComponent.
Variable typeOfTyp : Typ -> TargetComponentType.

Lemma throwsStd_fillPath foundQuery nodes :
  forall nodeIdx pathIdx path,
    throwsStd (QueryRunner.fillPath typeOfTyp foundQuery nodes nodeIdx pathIdx path).
Proof. induction nodes as [|node nodes IH]; intros nodeIdx pathIdx path; simpl; throws. Qed.

Lemma raisesOnly_findNode dp table queries :
  newSubsetTable dp = Ok table ->
  raisesOnly (fun e => stdError e \/ raisedByTable newSubsetTable dp e)
    (QueryRunner.findNode table queries).
Proof.
  intros Ht. induction queries as [|query rest IH]; cbn [QueryRunner.findNode].
  - apply raisesOnly_Ok.
  - apply raisesOnly_bind.
    + intros e He. right. right. exists table, (q_path query). split; assumption.
    + intros [node|]; [apply raisesOnly_Ok | exact IH].
Qed.

Lemma raisesOnly_targetFor dp table querySet name masks :
  newSubsetTable dp = Ok table ->
  raisesOnly (fun e => stdError e \/ raisedByTable newSubsetTable dp e)
    (QueryRunner.targetFor decl TargetComponent_default typeOfTyp table querySet name masks).
Proof.
  intros Ht. unfold QueryRunner.targetFor. apply raisesOnly_bind.
  - now apply raisesOnly_findNode.
  - intros [[foundQuery tableNode]|]; apply raisesOnly_std.
    + throws.
      * apply throwsStd_fillPath.
      * apply throwsStd_setMasks.
    + throws.
Qed.

Lemma raisesOnly_namesLoop dp table querySet queryNames :
  newSubsetTable dp = Ok table ->
  forall targets masks,
    raisesOnly (fun e => stdError e \/ raisedByTable newSubsetTable dp e)
      (QueryRunner.namesLoop decl TargetComponent_default typeOfTyp table querySet
         queryNames targets masks).
Proof.
  intros Ht. induction queryNames as [|name rest IH]; intros targets masks;
    cbn [QueryRunner.namesLoop].
  - apply raisesOnly_Ok.
  - apply raisesOnly_bind.
    + now apply raisesOnly_targetFor.
    + intros [target masks']. apply IH.
Qed.

(** [findTargets] raises nothing of its own but the errors of the vectors
    and of the caches: every other error comes from the subset table. *)
Lemma raisesOnly_findTargets dp querySet caches :
  raisesOnly (fun e => stdError e \/ raisedByTable newSubsetTable dp e)
    (QueryRunner.findTargets decl newSubsetTable TargetComponent_default typeOfTyp
       dp querySet caches).
Proof.
  unfold QueryRunner.findTargets.
  destruct (QueryRunner.cache_find _ _) as [targets|].
  - apply raisesOnly_std. throws. apply throwsStd_cache_at.
  - apply raisesOnly_bind; [apply raisesOnly_std, throwsStd_newMask|]. intros v.
    apply raisesOnly_bind; [apply raisesOnly_std, throwsStd_newMask|]. intros p.
    destruct (newSubsetTable dp) as [table|e0] eqn:Et; cbn [bind].
    + apply raisesOnly_bind.
      * now apply raisesOnly_namesLoop.
      * intros [targets masks]. apply raisesOnly_Ok.
    + intros e [= <-]. right. left. exact Et.
Qed.

End FindTargetsErrors.



